(** * Job Application Email Sender: the batch dispatch engine

    A shallow embedding of the two variants of the sender that the
    repository ships,

      - [src/app.py]          (v2.0, classes [Config], [EmailValidator],
                               [EmailSender] and the route [test_email]),
      - [src/backend/app.py]  (v1.0, functions [validate_email],
                               [create_message_with_attachment],
                               [send_emails_generator], [test_email]),

    and the properties of the dispatch run proved about them.

    Conventions of the embedding.
      - A Python [str] is the list of its code points ([pystr]); [len] is
        [List.length].
      - A Python [int] is a [Z]; a Python [float] is an IEEE-754 binary64
        value of [SpecFloat] (precision 53, emax 1024).
      - A generator is run to exhaustion by its consumer: its meaning is the
        ordered list of everything it does ([action]): the values it yields,
        the calls it makes on the SMTP connection, and its [time.sleep]s.
      - The mail relay is the environment: a [relay] says, for each call the
        code makes on [smtplib], whether it returns or which exception it
        raises.  Exceptions are the subclasses of [Exception]. *)

From Stdlib Require Import String Ascii.
From Stdlib Require Import ZArith NArith List Bool Lia SpecFloat.
Import ListNotations.

Set Implicit Arguments.

(* ================================================================== *)
(** * Python strings *)
(* ================================================================== *)

Definition pystr := list N.

(** An ASCII literal of the source, as code points. *)
Fixpoint str (s : string) : pystr :=
  match s with
  | EmptyString => []
  | String a s' => N_of_ascii a :: str s'
  end.

Definition chr (a : ascii) : N := N_of_ascii a.

Definition len {A} (l : list A) : Z := Z.of_nat (length l).

Definition in_range (lo hi c : N) : bool := (lo <=? c)%N && (c <=? hi)%N.

(** [c in s] for a one-character [c]. *)
Definition has_char (c : N) (s : pystr) : bool := existsb (N.eqb c) s.

(** [str.isspace] on one code point, which is what [str.strip()] tests:
    the ASCII white space 0x09-0x0D, 0x1C-0x1F, 0x20 and the Unicode
    characters of bidirectional type WS, B or S or of category Zs. *)
Definition isspace (c : N) : bool :=
  in_range 9 13 c || in_range 28 32 c || (c =? 133)%N || (c =? 160)%N
  || (c =? 5760)%N || in_range 8192 8202 c || (c =? 8232)%N || (c =? 8233)%N
  || (c =? 8239)%N || (c =? 8287)%N || (c =? 12288)%N.

Fixpoint lstrip (s : pystr) : pystr :=
  match s with
  | [] => []
  | c :: s' => if isspace c then lstrip s' else s
  end.

Definition rstrip (s : pystr) : pystr := rev (lstrip (rev s)).

(** [s.strip()] *)
Definition strip (s : pystr) : pystr := rstrip (lstrip s).

(** [needle in s]: substring test. *)
Fixpoint startswith (needle s : pystr) : bool :=
  match needle, s with
  | [], _ => true
  | _ :: _, [] => false
  | a :: needle', b :: s' => (a =? b)%N && startswith needle' s'
  end.

Fixpoint contains (needle s : pystr) : bool :=
  startswith needle s ||
  match s with
  | [] => false
  | _ :: s' => contains needle s'
  end.

(** [s.split(sep)] for a one-character separator: the segments between
    the occurrences of [sep], in order (never the empty list). *)
Fixpoint py_split (sep : N) (s : pystr) : list pystr :=
  match s with
  | [] => [[]]
  | c :: s' =>
      if (c =? sep)%N then [] :: py_split sep s'
      else match py_split sep s' with
           | seg :: segs => (c :: seg) :: segs
           | [] => [[c]]
           end
  end.

(** [str(n)] for an [int]. *)
Definition digit (d : Z) : N := (48 + Z.to_N d)%N.

Fixpoint digits (fuel : nat) (n : Z) (acc : pystr) : pystr :=
  match fuel with
  | O => acc
  | S fuel' =>
      if (n <? 10)%Z then digit n :: acc
      else digits fuel' (n / 10)%Z (digit (n mod 10)%Z :: acc)
  end.

Definition str_of_int (n : Z) : pystr :=
  if (n <? 0)%Z then chr "-" :: digits (S (Z.to_nat (- n))) (- n)%Z []
  else digits (S (Z.to_nat n)) n [].

(* ================================================================== *)
(** * Regular expressions ([re]) *)
(* ================================================================== *)

(** The fragment of [re] patterns the source uses: character sets,
    concatenation and repetition.  [Void] and [Alt] only arise as
    derivatives. *)
Inductive regex : Type :=
| Void : regex
| Eps : regex
| Class (p : N -> bool) : regex
| Seq (r1 r2 : regex) : regex
| Alt (r1 r2 : regex) : regex
| Star (r : regex) : regex.

(** [r+] and [r{n,}] *)
Definition plus (r : regex) : regex := Seq r (Star r).

Fixpoint at_least (n : nat) (r : regex) : regex :=
  match n with
  | O => Star r
  | S n' => Seq r (at_least n' r)
  end.

Definition Chr (a : ascii) : regex := Class (N.eqb (chr a)).

(** The strings a pattern denotes. *)
Inductive lang : regex -> pystr -> Prop :=
| lang_eps : lang Eps []
| lang_class p c : p c = true -> lang (Class p) [c]
| lang_seq r1 r2 s1 s2 : lang r1 s1 -> lang r2 s2 -> lang (Seq r1 r2) (s1 ++ s2)
| lang_alt_l r1 r2 s : lang r1 s -> lang (Alt r1 r2) s
| lang_alt_r r1 r2 s : lang r2 s -> lang (Alt r1 r2) s
| lang_star_nil r : lang (Star r) []
| lang_star_cons r s1 s2 : lang r s1 -> lang (Star r) s2 -> lang (Star r) (s1 ++ s2).

(** Matching by derivatives: whether a whole string is in the language. *)
Fixpoint nullable (r : regex) : bool :=
  match r with
  | Void => false
  | Eps => true
  | Class _ => false
  | Seq r1 r2 => nullable r1 && nullable r2
  | Alt r1 r2 => nullable r1 || nullable r2
  | Star _ => true
  end.

Fixpoint deriv (c : N) (r : regex) : regex :=
  match r with
  | Void => Void
  | Eps => Void
  | Class p => if p c then Eps else Void
  | Seq r1 r2 =>
      if nullable r1 then Alt (Seq (deriv c r1) r2) (deriv c r2)
      else Seq (deriv c r1) r2
  | Alt r1 r2 => Alt (deriv c r1) (deriv c r2)
  | Star r1 => Seq (deriv c r1) (Star r1)
  end.

Fixpoint fullmatch (r : regex) (s : pystr) : bool :=
  match s with
  | [] => nullable r
  | c :: s' => fullmatch (deriv c r) s'
  end.

(** [re.compile('^' + r + '$').match(s) is not None].  [match] anchors at
    the start; [$] matches at the end of the string and also just before a
    newline that ends it. *)
Definition re_match (r : regex) (s : pystr) : bool :=
  fullmatch r s ||
  match rev s with
  | c :: s' => (c =? 10)%N && fullmatch r (rev s')
  | [] => false
  end.

Definition is_alpha (c : N) : bool :=
  in_range 97 122 c || in_range 65 90 c.

Definition is_alnum (c : N) : bool :=
  is_alpha c || in_range 48 57 c.

(** [[a-zA-Z0-9._%+-]] *)
Definition local_char (c : N) : bool :=
  is_alnum c || has_char c (str "._%+-").

(** [[a-zA-Z0-9.-]] *)
Definition domain_char (c : N) : bool :=
  is_alnum c || has_char c (str ".-").

(** src/app.py:52
    [EMAIL_REGEX = re.compile(r'^[a-zA-Z0-9._%+-]+@[a-zA-Z0-9.-]+\.[a-zA-Z]{2,}$')] *)
Definition EMAIL_REGEX : regex :=
  Seq (plus (Class local_char))
   (Seq (Chr "@")
    (Seq (plus (Class domain_char))
     (Seq (Chr ".") (at_least 2 (Class is_alpha))))).

(* ================================================================== *)
(** * Python numbers *)
(* ================================================================== *)

(** IEEE-754 binary64, the format of a Python [float]. *)
Definition prec : Z := 53.
Definition emax : Z := 1024.

(** [float(n)] for an [int]: the nearest binary64 value. *)
Definition float_of_int (n : Z) : spec_float := binary_normalize prec emax n 0 false.

(** [a / b] on two [int]s: true division, correctly rounded.  For operands
    below 2^53 in magnitude (every list length is) it is the binary64
    quotient of the two operands converted.  [None] stands for
    [ZeroDivisionError]. *)
Definition truediv (a b : Z) : option spec_float :=
  if (b =? 0)%Z then None
  else Some (SFdiv prec emax (float_of_int a) (float_of_int b)).

(** [x * n] for a [float] and an [int]. *)
Definition fmul_int (x : spec_float) (n : Z) : spec_float :=
  SFmul prec emax x (float_of_int n).

(** [int(x)]: truncation towards zero; [None] stands for the
    [OverflowError] or [ValueError] of an infinity or a NaN. *)
Definition int_of_float (x : spec_float) : option Z :=
  match x with
  | S754_zero _ => Some 0%Z
  | S754_finite s m e =>
      let a := match e with
               | Zneg p => (Zpos m / 2 ^ Zpos p)%Z
               | _ => (Zpos m * 2 ^ e)%Z
               end in
      Some (if s then (- a)%Z else a)
  | S754_infinity _ | S754_nan => None
  end.

(** The argument of [time.sleep]: an [int] or a [float] literal. *)
Inductive pynum : Type :=
| PyInt (n : Z)
| PyFloat (x : spec_float).

(** The literal [0.5]. *)
Definition half : spec_float := S754_finite false 4503599627370496 (-53).

(* ================================================================== *)
(** * Exceptions, messages, events and the relay *)
(* ================================================================== *)

(** The exception classes the handlers of the source tell apart:
    [smtplib.SMTPAuthenticationError], the other subclasses of
    [smtplib.SMTPException], and the other subclasses of [Exception]. *)
Inductive exn_class : Type :=
| SMTPAuthenticationError
| SMTPException
| OtherException.

(** An exception object: its class and [str(e)]. *)
Record exn : Type := { exn_cls : exn_class; exn_str : pystr }.

(** [isinstance(e, smtplib.SMTPAuthenticationError)] and
    [isinstance(e, smtplib.SMTPException)]; every [exn] is an [Exception]. *)
(** The exceptions of arithmetic: [i / 0], and [int] of an infinity or
    a NaN. *)
Definition ZeroDivisionError : exn :=
  {| exn_cls := OtherException; exn_str := str "division by zero" |}.

Definition OverflowError : exn :=
  {| exn_cls := OtherException;
     exn_str := str "cannot convert float infinity to integer" |}.

(** [int((i / total) * 100)], src/app.py:192 and src/backend/app.py:170:
    its value, or the exception it raises. *)
Definition progress_percent (i total : Z) : exn + Z :=
  match truediv i total with
  | None => inl ZeroDivisionError
  | Some q =>
      match int_of_float (fmul_int q 100) with
      | Some p => inr p
      | None => inl OverflowError
      end
  end.

Definition is_auth_error (e : exn) : bool :=
  match exn_cls e with SMTPAuthenticationError => true | _ => false end.

Definition is_smtp_exception (e : exn) : bool :=
  match exn_cls e with OtherException => false | _ => true end.

(** [email.mime.text.MIMEText(payload, subtype, charset)] *)
Record mime_text : Type :=
  { text_payload : pystr; text_subtype : pystr; text_charset : pystr }.

(** A [MIMEBase(maintype, subtype)] part after [set_payload],
    [encoders.encode_base64] and [add_header('Content-Disposition', ...)]. *)
Record mime_base : Type :=
  { base_maintype : pystr; base_subtype : pystr;
    base_payload : list Byte.byte;
    base_transfer_encoding : pystr;
    base_content_disposition : pystr }.

Inductive mime_part : Type :=
| TextPart (t : mime_text)
| BasePart (b : mime_base).

(** A [MIMEMultipart]: the three headers the builder sets and what it
    attaches, in order. *)
Record message : Type :=
  { msg_From : pystr; msg_To : pystr; msg_Subject : pystr;
    msg_parts : list mime_part }.

Inductive level : Type := info | success | error.

(** What the generator yields: the object that [json.dumps] serialises
    (followed by a newline).  [Log] is [{'type': 'log', 'message', 'level'}],
    [Progress] is [{'type': 'progress', 'progress', 'total', 'sent',
    'failed', 'pending'}], [Complete] is [{'type': 'complete', 'sent',
    'failed'}]. *)
Inductive event : Type :=
| Log (message : pystr) (lvl : level)
| Progress (progress total sent failed pending : Z)
| Complete (sent failed : Z).

(** The calls on [smtplib]. *)
Inductive smtp_op : Type :=
| Op_SMTP (host : pystr) (port : Z) (timeout : option Z)
| Op_starttls
| Op_login (user password : pystr)
| Op_sendmail (from_addr to_addr : pystr) (msg : message)
| Op_quit.

(** One observable step of a run. *)
Inductive action : Type :=
| Yield (e : event)
| Smtp (op : smtp_op)
| Sleep (seconds : pynum).

Definition trace := list action.

(** The environment of a run: for each call that can fail, [None] when it
    returns and [Some e] when it raises [e].  [encode_error i] is the
    exception, if any, that the [email] package raises while the attachment
    of the message for recipient [i] is built; [sendmail_error i] is the
    relay's answer to the submission for recipient [i] (positions count
    from 1). *)
Record relay : Type :=
  { connect_error : option exn;
    starttls_error : option exn;
    login_error : option exn;
    encode_error : Z -> option exn;
    sendmail_error : Z -> option exn;
    quit_error : option exn }.

(** The yielded events of a trace, in order. *)
Fixpoint events (t : trace) : list event :=
  match t with
  | [] => []
  | Yield e :: t' => e :: events t'
  | _ :: t' => events t'
  end.

Definition is_progress (e : event) : bool :=
  match e with Progress _ _ _ _ _ => true | _ => false end.

Definition is_complete (e : event) : bool :=
  match e with Complete _ _ => true | _ => false end.

Definition is_error_log (e : event) : bool :=
  match e with Log _ error => true | _ => false end.

Definition is_sleep (a : action) : bool :=
  match a with Sleep _ => true | _ => false end.

Definition is_quit (a : action) : bool :=
  match a with Smtp Op_quit => true | _ => false end.


(* ================================================================== *)
(** * Generators: state, output and control *)
(* ================================================================== *)

(** The local variables a run assigns after their initialisation:
    the two counters, and whether [server] holds a connection. *)
Record state : Type := { sent : Z; failed : Z; server : bool }.

Definition initial : state := {| sent := 0; failed := 0; server := false |}.

(** How a block of statements ends: it falls through with a value, raises,
    executes [return], or executes [continue]. *)
Inductive ctl (A : Type) : Type :=
| Normal (a : A)
| Raised (e : exn)
| Returned
| Continued.

Arguments Normal {A} a.
Arguments Raised {A} e.
Arguments Returned {A}.
Arguments Continued {A}.

Definition gen (A : Type) : Type := state -> trace * state * ctl A.

Definition ret {A} (a : A) : gen A := fun st => ([], st, Normal a).

Definition bind {A B} (m : gen A) (k : A -> gen B) : gen B :=
  fun st =>
    let '(t, st1, c) := m st in
    match c with
    | Normal a => let '(t', st2, c') := k a st1 in (t ++ t', st2, c')
    | Raised e => (t, st1, Raised e)
    | Returned => (t, st1, Returned)
    | Continued => (t, st1, Continued)
    end.

Declare Scope gen_scope.
Delimit Scope gen_scope with gen.
Notation "x <- m ;; k" := (bind m (fun x => k))
  (at level 61, m at next level, right associativity) : gen_scope.
Notation "m ;; k" := (bind m (fun _ => k))
  (at level 61, right associativity) : gen_scope.
Local Open Scope gen_scope.

Definition emit (a : action) : gen unit := fun st => ([a], st, Normal tt).

(** [yield e] *)
Definition yield (e : event) : gen unit := emit (Yield e).

(** [time.sleep(d)] *)
Definition sleep (d : pynum) : gen unit := emit (Sleep d).

(** A call on the connection, with the outcome the relay gives it. *)
Definition call (op : smtp_op) (outcome : option exn) : gen unit :=
  fun st => ([Smtp op], st,
             match outcome with None => Normal tt | Some e => Raised e end).

Definition raise {A} (e : exn) : gen A := fun st => ([], st, Raised e).

(** [return] and [continue] *)
Definition py_return {A} : gen A := fun st => ([], st, Returned).
Definition py_continue {A} : gen A := fun st => ([], st, Continued).

Definition get : gen state := fun st => ([], st, Normal st).

(** [sent += 1], [failed += 1], [server = smtplib.SMTP(...)] *)
Definition bump_sent (st : state) : state :=
  {| sent := sent st + 1; failed := failed st; server := server st |}.

Definition bump_failed (st : state) : state :=
  {| sent := sent st; failed := failed st + 1; server := server st |}.

Definition connected (st : state) : state :=
  {| sent := sent st; failed := failed st; server := true |}.

Definition incr_sent : gen unit := fun st => ([], bump_sent st, Normal tt).

Definition incr_failed : gen unit := fun st => ([], bump_failed st, Normal tt).

Definition assign_server : gen unit := fun st => ([], connected st, Normal tt).

(** The value of a pure computation that may raise. *)
Definition lift {A} (r : exn + A) : gen A :=
  match r with inl e => raise e | inr a => ret a end.

(** [try: body except ...: handler].  [handler e] is [None] when no
    [except] clause matches [e], and otherwise the body of the first clause
    that does. *)
Definition try_except {A} (body : gen A) (handler : exn -> option (gen A)) : gen A :=
  fun st =>
    let '(t, st1, c) := body st in
    match c with
    | Raised e =>
        match handler e with
        | Some h => let '(t', st2, c') := h st1 in (t ++ t', st2, c')
        | None => (t, st1, Raised e)
        end
    | _ => (t, st1, c)
    end.

(** [try: body finally: fin]: [fin] runs however [body] ends, and the block
    ends as [body] did unless [fin] itself raises, returns or continues. *)
Definition try_finally {A} (body : gen A) (fin : gen unit) : gen A :=
  fun st =>
    let '(t, st1, c) := body st in
    let '(t', st2, c') := fin st1 in
    (t ++ t', st2,
     match c' with
     | Normal _ => c
     | Raised e => Raised e
     | Returned => Returned
     | Continued => Continued
     end).

(** [for i, r in enumerate(rs, i): body]: [continue] goes on with the next
    element; an exception or a [return] leaves the loop. *)
Fixpoint for_enumerate (rs : list pystr) (i : Z) (body : Z -> pystr -> gen unit) : gen unit :=
  match rs with
  | [] => ret tt
  | r :: rs' =>
      fun st =>
        let '(t, st1, c) := body i r st in
        match c with
        | Normal _ | Continued =>
            let '(t', st2, c') := for_enumerate rs' (i + 1) body st1 in
            (t ++ t', st2, c')
        | Raised e => (t, st1, Raised e)
        | Returned => (t, st1, Returned)
        end
  end.

(** The actions of each iteration the loop above executes, one list per
    element (an iteration that raises is the last), and the state after the
    first [n] of these iterations. *)
Fixpoint iterations (rs : list pystr) (i : Z) (body : Z -> pystr -> gen unit)
    (st : state) : list trace :=
  match rs with
  | [] => []
  | r :: rs' =>
      let '(t, st1, c) := body i r st in
      match c with
      | Normal _ | Continued => t :: iterations rs' (i + 1) body st1
      | _ => [t]
      end
  end.

Fixpoint state_after (n : nat) (rs : list pystr) (i : Z)
    (body : Z -> pystr -> gen unit) (st : state) : state :=
  match n, rs with
  | S n', r :: rs' =>
      let '(_, st1, c) := body i r st in
      match c with
      | Normal _ | Continued => state_after n' rs' (i + 1) body st1
      | _ => st1
      end
  | _, _ => st
  end.

(** Running a generator function from its first statement. *)
Definition run {A} (g : gen A) : trace * state * ctl A := g initial.

Definition trace_of {A} (g : gen A) : trace := fst (fst (run g)).
Definition final_state {A} (g : gen A) : state := snd (fst (run g)).
Definition outcome_of {A} (g : gen A) : ctl A := snd (run g).

(* ================================================================== *)
(** * Shared helpers of the two variants *)
(* ================================================================== *)

(** The truth value of a [str] or [bytes] object: non-empty. *)
Definition truthy {A} (l : list A) : bool :=
  match l with [] => false | _ :: _ => true end.

(** [s[:n]] *)
Definition slice_to {A} (n : Z) (s : list A) : list A :=
  if (n <? 0)%Z then firstn (length s - Z.to_nat (- n)) s
  else firstn (Z.to_nat n) s.

Definition dquote : pystr := [34%N].

(** The body of an HTTP answer of the credential test, with its status. *)
Record response : Type :=
  { status_code : Z; status : pystr; answer : pystr }.

(** The JSON object posted to [/test-email]: its two fields, when present. *)
Record json_body : Type :=
  { sender_email_field : option pystr; password_field : option pystr }.

(** [data.get(key, '')] *)
Definition get_or_empty (field : option pystr) : pystr :=
  match field with Some v => v | None => [] end.

Definition signature : pystr := str "Username and Password not accepted".

(* ================================================================== *)
(** * src/app.py *)
(* ================================================================== *)

Module Config.
Definition MAX_RECIPIENTS : Z := 100.
Definition MAX_EMAIL_BODY_LENGTH : Z := 5000.
Definition MAX_SUBJECT_LENGTH : Z := 200.
Definition EMAIL_DELAY : Z := 1.
Definition SMTP_TIMEOUT : Z := 30.
End Config.

Module App.

(** [EmailValidator.validate_email], src/app.py:58-63. *)
Definition validate_email (email : pystr) : bool :=
  if negb (truthy email) || (254 <? len email)%Z then false
  else re_match EMAIL_REGEX (strip email).

(** An [EmailSender] object. *)
Record EmailSender : Type := { smtp_server : pystr; smtp_port : Z }.

(** [email_sender = EmailSender()], with the defaults of [__init__]. *)
Definition email_sender : EmailSender :=
  {| smtp_server := str "smtp.gmail.com"; smtp_port := 587 |}.

(** [EmailSender._create_response]; every call passes ['log'] as
    [msg_type]. *)
Definition create_response (message : pystr) (lvl : level) : event :=
  Log message lvl.

Section Sender.

(** [werkzeug.utils.secure_filename], which is not part of the repository. *)
Variable secure_filename : pystr -> pystr.

(** [EmailSender.create_message], src/app.py:88-122.  [encode] is what
    building the attachment part raises, if anything: the handler logs it
    and raises it again. *)
Definition create_message (sender_email sender_name recipient_email subject body : pystr)
    (cv_data : list Byte.byte) (cv_filename : pystr) (encode : option exn)
    : exn + message :=
  let from :=
    if truthy sender_name && truthy (strip sender_name)
    then dquote ++ strip sender_name ++ dquote ++ str " <" ++ sender_email ++ str ">"
    else sender_email in
  let text :=
    TextPart {| text_payload := slice_to Config.MAX_EMAIL_BODY_LENGTH body;
                text_subtype := str "plain";
                text_charset := str "utf-8" |} in
  let headers parts :=
    {| msg_From := from; msg_To := recipient_email;
       msg_Subject := slice_to Config.MAX_SUBJECT_LENGTH subject;
       msg_parts := parts |} in
  if truthy cv_data && truthy cv_filename then
    match encode with
    | Some e => inl e
    | None =>
        inr (headers
          [text;
           BasePart {| base_maintype := str "application";
                       base_subtype := str "pdf";
                       base_payload := cv_data;
                       base_transfer_encoding := str "base64";
                       base_content_disposition :=
                         str "attachment; filename=" ++ dquote
                           ++ secure_filename cv_filename ++ dquote |}])
    end
  else inr (headers [text]).

(** The body of the [for] loop of [send_emails_batch], src/app.py:167-206. *)
Definition send_one (sender_email sender_name subject body : pystr)
    (cv_data : list Byte.byte) (cv_filename : pystr) (total : Z) (env : relay)
    (i : Z) (recipient : pystr) : gen unit :=
  try_except
    ((if negb (validate_email recipient) then
        incr_failed ;;
        yield (create_response (str "Invalid email: " ++ recipient) error) ;;
        py_continue
      else ret tt) ;;
     msg <- lift (create_message sender_email sender_name recipient subject body
                    cv_data cv_filename (encode_error env i)) ;;
     call (Op_sendmail sender_email recipient msg) (sendmail_error env i) ;;
     incr_sent ;;
     yield (create_response ([10003%N] ++ str " Sent to: " ++ recipient) success))
    (fun e => Some
       (incr_failed ;;
        yield (create_response
                 ([10007%N] ++ str " Failed to send to " ++ recipient ++ str ": "
                    ++ exn_str e) error))) ;;
  progress <- lift (progress_percent i total) ;;
  st <- get ;;
  let pending := (total - sent st - failed st)%Z in
  yield (Progress progress total (sent st) (failed st) pending) ;;
  if (i <? total)%Z then sleep (PyInt Config.EMAIL_DELAY) else ret tt.

(** [EmailSender.send_emails_batch], src/app.py:124-221. *)
Definition send_emails_batch (self : EmailSender)
    (sender_email sender_name password subject body : pystr)
    (recipients : list pystr) (cv_data : list Byte.byte) (cv_filename : pystr)
    (env : relay) : gen unit :=
  let total := len recipients in
  yield (create_response (str "Starting email campaign...") info) ;;
  try_finally
    (try_except
       (yield (create_response
                 (str "Connecting to " ++ smtp_server self ++ str "...") info) ;;
        call (Op_SMTP (smtp_server self) (smtp_port self) (Some Config.SMTP_TIMEOUT))
             (connect_error env) ;;
        assign_server ;;
        call Op_starttls (starttls_error env) ;;
        yield (create_response (str "Authenticating...") info) ;;
        try_except
          (call (Op_login sender_email password) (login_error env) ;;
           yield (create_response (str "Authentication successful") success))
          (fun e =>
             if is_auth_error e then Some
               (let error_msg := exn_str e in
                (if contains signature error_msg then
                   yield (create_response
                     (str "Authentication failed! For Gmail, use an App Password, not your regular password. "
                      ++ str "Generate one at: https://myaccount.google.com/apppasswords")
                     error)
                 else
                   yield (create_response
                     (str "Authentication failed: " ++ error_msg) error)) ;;
                py_return)
             else None) ;;
        yield (create_response
                 (str "Sending to " ++ str_of_int total ++ str " recipients...") info) ;;
        for_enumerate recipients 1
          (send_one sender_email sender_name subject body cv_data cv_filename total env) ;;
        st <- get ;;
        yield (create_response
                 (str "Campaign completed! Sent: " ++ str_of_int (sent st)
                    ++ str ", Failed: " ++ str_of_int (failed st)) success) ;;
        yield (Complete (sent st) (failed st)))
       (fun e => Some (yield (create_response (str "Error: " ++ exn_str e) error))))
    (st <- get ;;
     if server st then
       try_except (call Op_quit (quit_error env)) (fun _ => Some (ret tt))
     else ret tt).

End Sender.

(** The route [test_email], src/app.py:264-295.  [data] is what
    [request.get_json()] returns: [None] without a body or with an empty
    object. *)
Definition test_email (data : option json_body) (env : relay) : gen response :=
  try_except
    (match data with
     | None => ret {| status_code := 400; status := str "error";
                      answer := str "No data provided" |}
     | Some d =>
         let sender_email := strip (get_or_empty (sender_email_field d)) in
         let password := get_or_empty (password_field d) in
         if negb (validate_email sender_email) then
           ret {| status_code := 400; status := str "error";
                  answer := str "Invalid email format" |}
         else
           call (Op_SMTP (str "smtp.gmail.com") 587 (Some 10%Z)) (connect_error env) ;;
           call Op_starttls (starttls_error env) ;;
           call (Op_login sender_email password) (login_error env) ;;
           call Op_quit (quit_error env) ;;
           ret {| status_code := 200; status := str "success";
                  answer := str "Authentication successful" |}
     end)
    (fun e =>
       if is_auth_error e then Some
         (ret {| status_code := 401; status := str "error";
                 answer := str "Authentication failed. For Gmail, use an App Password from https://myaccount.google.com/apppasswords" |})
       else Some
         (ret {| status_code := 500; status := str "error";
                 answer := str "Connection failed" |})).

End App.

(* ================================================================== *)
(** * src/backend/app.py *)
(* ================================================================== *)

Module Backend.

(** [validate_email], src/backend/app.py:36-38:
    ['@' in email and '.' in email.split('@')[1]].  The second operand is
    only evaluated when the first holds, and then the split has an element
    of index 1 (the [None] branch, an [IndexError], is never taken). *)
Definition validate_email (email : pystr) : bool :=
  has_char (chr "@") email &&
  match nth_error (py_split (chr "@") email) 1 with
  | Some domain => has_char (chr ".") domain
  | None => false
  end.

(** [create_message_with_attachment], src/backend/app.py:41-72.  [encode]
    is what building the attachment part raises, if anything: the handler
    raises a new [Exception] that quotes it. *)
Definition create_message_with_attachment
    (sender_email sender_name recipient_email subject body : pystr)
    (cv_data : list Byte.byte) (cv_filename : pystr) (encode : option exn)
    : exn + message :=
  let from :=
    if truthy sender_name
    then dquote ++ sender_name ++ dquote ++ str " <" ++ sender_email ++ str ">"
    else sender_email in
  let text :=
    TextPart {| text_payload := body;
                text_subtype := str "plain";
                text_charset := str "utf-8" |} in
  match encode with
  | Some e =>
      inl {| exn_cls := OtherException;
             exn_str := str "Error attaching file: " ++ exn_str e |}
  | None =>
      inr {| msg_From := from; msg_To := recipient_email;
             msg_Subject := subject;
             msg_parts :=
               [text;
                BasePart {| base_maintype := str "application";
                            base_subtype := str "octet-stream";
                            base_payload := cv_data;
                            base_transfer_encoding := str "base64";
                            base_content_disposition :=
                              str "attachment; filename=" ++ dquote
                                ++ cv_filename ++ dquote |}] |}
  end.

Definition smtp_server : pystr := str "smtp.gmail.com".
Definition smtp_port : Z := 587.

(** The body of the [for] loop of [send_emails_generator],
    src/backend/app.py:135-182. *)
Definition send_one (sender_email sender_name subject body : pystr)
    (cv_data : list Byte.byte) (cv_filename : pystr) (total : Z) (env : relay)
    (i : Z) (recipient : pystr) : gen unit :=
  try_except
    (if negb (validate_email recipient) then
       incr_failed ;;
       yield (Log (str "Invalid email: " ++ recipient) error)
     else
       msg <- lift (create_message_with_attachment sender_email sender_name
                      recipient subject body cv_data cv_filename
                      (encode_error env i)) ;;
       call (Op_sendmail sender_email recipient msg) (sendmail_error env i) ;;
       incr_sent ;;
       yield (Log (str "Email sent to: " ++ recipient) success))
    (fun e => Some
       (incr_failed ;;
        yield (Log (str "Failed to send to " ++ recipient ++ str ": " ++ exn_str e)
                 error))) ;;
  st <- get ;;
  let pending := (total - sent st - failed st)%Z in
  progress <- lift (progress_percent i total) ;;
  yield (Progress progress total (sent st) (failed st) pending) ;;
  sleep (PyFloat half).

(** [send_emails_generator], src/backend/app.py:75-230. *)
Definition send_emails_generator
    (sender_email sender_name password subject body : pystr)
    (recipients : list pystr) (cv_data : list Byte.byte) (cv_filename : pystr)
    (env : relay) : gen unit :=
  let total := len recipients in
  yield (Log (str "Starting email campaign...") info) ;;
  yield (Log (str "Connecting to SMTP server (" ++ smtp_server ++ str ")...") info) ;;
  try_except
    (call (Op_SMTP smtp_server smtp_port None) (connect_error env) ;;
     assign_server ;;
     call Op_starttls (starttls_error env) ;;
     yield (Log (str "Authenticating...") info) ;;
     try_except
       (call (Op_login sender_email password) (login_error env) ;;
        yield (Log (str "Successfully authenticated") success))
       (fun auth_error => Some
          (yield (Log (str "Authentication failed: " ++ exn_str auth_error) error) ;;
           raise auth_error)) ;;
     yield (Log (str "Starting to send emails to " ++ str_of_int total
                   ++ str " recipients") info) ;;
     for_enumerate recipients 1
       (send_one sender_email sender_name subject body cv_data cv_filename total env) ;;
     call Op_quit (quit_error env) ;;
     st <- get ;;
     yield (Log (str "Campaign completed! Sent: " ++ str_of_int (sent st)
                   ++ str ", Failed: " ++ str_of_int (failed st)) success) ;;
     yield (Complete (sent st) (failed st)))
    (fun e =>
       if is_auth_error e then Some
         (let error_msg := exn_str e in
          if contains signature error_msg then
            yield (Log (str "Authentication failed! For Gmail, you need to use an App Password, not your regular password.") error) ;;
            yield (Log (str "Please go to https://myaccount.google.com/apppasswords to generate one.") error)
          else
            yield (Log (str "Authentication failed: " ++ error_msg) error))
       else if is_smtp_exception e then Some
         (yield (Log (str "SMTP error: " ++ exn_str e) error))
       else Some
         (yield (Log (str "Unexpected error: " ++ exn_str e) error))).

(** The route [test_email], src/backend/app.py:289-309, on the two fields
    of the posted object. *)
Definition test_email (sender_email password : pystr) (env : relay) : gen response :=
  try_except
    (call (Op_SMTP (str "smtp.gmail.com") 587 None) (connect_error env) ;;
     call Op_starttls (starttls_error env) ;;
     call (Op_login sender_email password) (login_error env) ;;
     call Op_quit (quit_error env) ;;
     ret {| status_code := 200; status := str "success";
            answer := str "Authentication successful" |})
    (fun e =>
       if is_auth_error e then Some
         (ret {| status_code := 401; status := str "error";
                 answer := str "Authentication failed. For Gmail, use an App Password from https://myaccount.google.com/apppasswords" |})
       else Some
         (ret {| status_code := 500; status := str "error";
                 answer := exn_str e |})).

End Backend.

(* ================================================================== *)
(** * Vocabulary of the properties *)
(* ================================================================== *)

(** The shape [local-part@domain]: a local part of one or more characters
    of [[A-Za-z0-9._%+-]], a domain of one or more characters of
    [[A-Za-z0-9.-]], a dot, and a final label of at least two letters. *)
Definition address_shape (s : pystr) : Prop :=
  exists l d t,
    s = l ++ chr "@" :: d ++ chr "." :: t /\
    l <> [] /\ Forall (fun c => local_char c = true) l /\
    d <> [] /\ Forall (fun c => domain_char c = true) d /\
    (2 <= length t)%nat /\ Forall (fun c => is_alpha c = true) t.

(** What the older validator looks for: an [@], and a dot between the first
    [@] and the next one (or the end of the string). *)
Definition at_then_dot (s : pystr) : Prop :=
  exists a d rest,
    s = a ++ chr "@" :: d ++ rest /\
    ~ In (chr "@") a /\ ~ In (chr "@") d /\ In (chr ".") d /\
    (rest = [] \/ exists r, rest = chr "@" :: r).

(** The state in which the loop over the recipients starts: both counters
    are 0 and [server] is connected. *)
Definition loop_start : state := connected initial.

(** How [send_emails_batch] (src/app.py) goes on after the loop has ended
    with [c] in state [st]: the completion events, or the log of the outer
    [except Exception] clause; then the [finally] clause. *)
Definition app_epilogue (st : state) (c : ctl unit) : trace :=
  match c with
  | Normal _ =>
      [Yield (Log (str "Campaign completed! Sent: " ++ str_of_int (sent st)
                     ++ str ", Failed: " ++ str_of_int (failed st)) success);
       Yield (Complete (sent st) (failed st));
       Smtp Op_quit]
  | Raised e => [Yield (Log (str "Error: " ++ exn_str e) error); Smtp Op_quit]
  | _ => [Smtp Op_quit]
  end.

(** The log lines of the [except] clauses that close
    [send_emails_generator] (src/backend/app.py:200-230). *)
Definition backend_error_logs (e : exn) : list event :=
  if is_auth_error e then
    if contains signature (exn_str e) then
      [Log (str "Authentication failed! For Gmail, you need to use an App Password, not your regular password.") error;
       Log (str "Please go to https://myaccount.google.com/apppasswords to generate one.") error]
    else [Log (str "Authentication failed: " ++ exn_str e) error]
  else if is_smtp_exception e then [Log (str "SMTP error: " ++ exn_str e) error]
  else [Log (str "Unexpected error: " ++ exn_str e) error].

(** How [send_emails_generator] goes on after the loop has ended with [c]
    in state [st], given what [quit] does. *)
Definition backend_epilogue (quit : option exn) (st : state) (c : ctl unit) : trace :=
  match c with
  | Normal _ =>
      Smtp Op_quit ::
      match quit with
      | None =>
          [Yield (Log (str "Campaign completed! Sent: " ++ str_of_int (sent st)
                         ++ str ", Failed: " ++ str_of_int (failed st)) success);
           Yield (Complete (sent st) (failed st))]
      | Some e => map Yield (backend_error_logs e)
      end
  | Raised e => map Yield (backend_error_logs e)
  | _ => []
  end.

(** The log line of [send_emails_batch] for a failed [login]: the clause
    for [SMTPAuthenticationError], or the outer [except Exception]. *)
Definition app_login_failure (e : exn) : pystr :=
  if is_auth_error e then
    if contains signature (exn_str e) then
      str "Authentication failed! For Gmail, use an App Password, not your regular password. "
      ++ str "Generate one at: https://myaccount.google.com/apppasswords"
    else str "Authentication failed: " ++ exn_str e
  else str "Error: " ++ exn_str e.

(** An action that does not yield a [Complete] event. *)
Definition not_complete (a : action) : Prop :=
  match a with
  | Yield (Complete _ _) => False
  | _ => True
  end.

(** The completion log line for the counters [s] and [f]. *)
Definition completed (s f : Z) : event :=
  Log (str "Campaign completed! Sent: " ++ str_of_int s
         ++ str ", Failed: " ++ str_of_int f) success.

(** The events of a run: a list free of [Complete] events, possibly
    followed by the completion log and one [Complete] event. *)
Definition completes_last (evs : list event) : Prop :=
  exists l, Forall (fun e => is_complete e = false) l /\
    (evs = l \/ exists s f, evs = l ++ [completed s f; Complete s f]).

(** One iteration counts its recipient exactly once: [sent] grows by one
    when the address is valid, the message is built and the relay accepts
    it, and [failed] grows by one in every other case. *)
Definition counts_once (valid : bool) (built : exn + message)
    (submitted : option exn) (st st' : state) : Prop :=
  match valid, built, submitted with
  | true, inr _, None => sent st' = (sent st + 1)%Z /\ failed st' = failed st
  | _, _, _ => sent st' = sent st /\ failed st' = (failed st + 1)%Z
  end.

(** A relay that accepts everything. *)
Definition relay_ok : relay :=
  {| connect_error := None; starttls_error := None; login_error := None;
     encode_error := fun _ => None; sendmail_error := fun _ => None;
     quit_error := None |}.

(** The relay [env] with another answer to [quit]. *)
Definition with_quit_error (q : option exn) (env : relay) : relay :=
  {| connect_error := connect_error env; starttls_error := starttls_error env;
     login_error := login_error env; encode_error := encode_error env;
     sendmail_error := sendmail_error env; quit_error := q |}.

(** A relay that rejects the credentials with the given message. *)
Definition relay_rejecting (msg : pystr) : relay :=
  {| connect_error := None; starttls_error := None;
     login_error := Some {| exn_cls := SMTPAuthenticationError; exn_str := msg |};
     encode_error := fun _ => None; sendmail_error := fun _ => None;
     quit_error := None |}.

(** An action that is neither a pause nor a [Progress] event. *)
Definition quiet (a : action) : Prop :=
  match a with
  | Sleep _ => False
  | Yield (Progress _ _ _ _ _) => False
  | _ => True
  end.

(** The actions of one iteration are paced by [pause] when at most one
    [Progress] event occurs among them, everything before it is [quiet],
    and what follows it is exactly [pause]. *)
Definition paced (pause : trace) (seg : trace) : Prop :=
  exists work, Forall quiet work /\
    (seg = work \/
     exists p t s f n, seg = work ++ Yield (Progress p t s f n) :: pause).

(** A campaign to run the generators on.  [secure_filename] leaves the
    name ["cv.pdf"] as it is. *)
Definition sample_sender : pystr := str "me@example.com".
Definition sample_name : pystr := str "Me".
Definition sample_password : pystr := str "secret".
Definition sample_subject : pystr := str "Application".
Definition sample_body : pystr := str "Dear team".
Definition sample_cv : list Byte.byte := [Byte.x25; Byte.x50; Byte.x44; Byte.x46].
Definition sample_filename : pystr := str "cv.pdf".

Definition app_sample (recipients : list pystr) (env : relay) : gen unit :=
  App.send_emails_batch (fun name => name) App.email_sender sample_sender
    sample_name sample_password sample_subject sample_body recipients
    sample_cv sample_filename env.

Definition backend_sample (recipients : list pystr) (env : relay) : gen unit :=
  Backend.send_emails_generator sample_sender sample_name sample_password
    sample_subject sample_body recipients sample_cv sample_filename env.



Definition alice : pystr := str "a@b.com".
Definition carol : pystr := str "c@d.org".
Definition bad : pystr := str "bad".

(** The answer of the relay to a wrong password. *)
Definition rejected : pystr :=
  str "(535, b'5.7.8 Username and Password not accepted')".


(** What a [Progress] event must report in a run over [total] recipients
    when the counters summed to [base] before the iterations that may have
    emitted it and at most [more] recipients were processed since. *)
Definition progress_within (total base more : Z) (a : action) : Prop :=
  match a with
  | Yield (Progress _ t s f n) =>
      t = total /\ (base < s + f <= base + more)%Z /\ n = (total - s - f)%Z
  | _ => True
  end.

(** The positions at which [int((i / total) * 100)] is one below the
    integer quotient, among the campaigns of at most
    [Config.MAX_RECIPIENTS] recipients. *)
Definition rounds_below (i total : Z) : bool :=
  ((i =? 29) && (total =? 50) || (i =? 29) && (total =? 100)
   || (i =? 57) && (total =? 100) || (i =? 58) && (total =? 100))%Z.

(** The percentage is the integer quotient, or one below it exactly at the
    positions of [rounds_below]. *)
Definition percent_as_expected (i total : Z) : bool :=
  match progress_percent i total with
  | inr p =>
      if rounds_below i total then (p =? i * 100 / total - 1)%Z
      else (p =? i * 100 / total)%Z
  | inl _ => false
  end.

(* ================================================================== *)
(** * src/app.py: the file checks and the route [/send-emails] *)
(* ================================================================== *)

(** [a == b] on two [str]. *)
Fixpoint pystr_eqb (a b : pystr) : bool :=
  match a, b with
  | [], [] => true
  | x :: a', y :: b' => (x =? y)%N && pystr_eqb a' b'
  | _, _ => false
  end.

(** The text before and the text after the first [sep] of [s]. *)
Fixpoint break_first (sep : N) (s : pystr) : option (pystr * pystr) :=
  match s with
  | [] => None
  | c :: s' =>
      if (c =? sep)%N then Some ([], s')
      else match break_first sep s' with
           | Some (a, b) => Some (c :: a, b)
           | None => None
           end
  end.

(** [s.rsplit(sep, 1)] for a one-character separator: the text before and
    the text after the last [sep], or [s] alone when it has none. *)
Definition rsplit1 (sep : N) (s : pystr) : list pystr :=
  match break_first sep (rev s) with
  | Some (a, b) => [rev b; rev a]
  | None => [s]
  end.

Definition is_ascii (c : N) : bool := (c <? 128)%N.

Definition ascii_lower (c : N) : N :=
  if in_range 65 90 c then (c + 32)%N else c.

(** An element of a JSON list, as the route looks at it: a string, or
    anything else ([isinstance(r, str)] fails). *)
Inductive json_element : Type :=
| JStr (s : pystr)
| JNotStr.

(** The value a JSON text denotes ([json.loads]), as the route looks at it:
    a list, or anything else ([isinstance(recipients, list)] fails). *)
Inductive json : Type :=
| JList (items : list json_element)
| JNotList.

(** The field [recipients] of the form: absent, not a JSON text
    ([json.JSONDecodeError]), or the value it denotes. *)
Inductive recipients_field : Type :=
| Absent
| Malformed
| Parsed (j : json).

(** An uploaded file ([werkzeug] [FileStorage]): its name and its bytes. *)
Record upload : Type := { filename : pystr; content : list Byte.byte }.

Inductive http_method : Type := POST | OPTIONS.

(** A request to [/send-emails]: the method, the form fields when present,
    and the file [cv] when present. *)
Record send_request : Type :=
  { http_verb : http_method;
    form_sender_email : option pystr;
    form_sender_name : option pystr;
    form_password : option pystr;
    form_subject : option pystr;
    form_body : option pystr;
    form_recipients : recipients_field;
    file_cv : option upload }.

(** The arguments the route passes to [send_emails_batch]. *)
Record campaign : Type :=
  { c_sender_email : pystr; c_sender_name : pystr; c_password : pystr;
    c_subject : pystr; c_body : pystr; c_recipients : list pystr;
    c_cv_data : list Byte.byte; c_cv_filename : pystr }.

(** What the route returns: [jsonify({'error': message}), status], the
    empty answer 204 to a preflight, or the streaming response around the
    generator. *)
Inductive reply : Type :=
| Refused (status : Z) (message : pystr)
| NoContent
| Streaming (c : campaign).

(** The two constants of [class Config] (src/app.py:36-37) that the file
    checks read. *)
Module WebConfig.
Definition ALLOWED_EXTENSIONS : list pystr := [str "pdf"].
Definition MAX_FILE_SIZE : Z := 10 * 1024 * 1024.
End WebConfig.

Module EmailValidator.

Section Lower.

(** [str.lower] on a string that has a character outside ASCII, which
    follows the Unicode tables. *)
Variable unicode_lower : pystr -> pystr.

(** [s.lower()] *)
Definition lower (s : pystr) : pystr :=
  if forallb is_ascii s then map ascii_lower s else unicode_lower s.

(** [EmailValidator.validate_file], src/app.py:65-71.  The index [1] of
    the split exists whenever ['.' in filename] holds. *)
Definition validate_file (filename : pystr) : bool :=
  if negb (truthy filename) then false
  else
    has_char (chr ".") filename &&
    match nth_error (rsplit1 (chr ".") filename) 1 with
    | Some ext => existsb (pystr_eqb (lower ext)) WebConfig.ALLOWED_EXTENSIONS
    | None => false
    end.

End Lower.

(** [EmailValidator.validate_pdf_content], src/app.py:73-78. *)
Definition validate_pdf_content (file_data : list Byte.byte) : bool :=
  if negb (truthy file_data) || (len file_data <? 4)%Z then false
  else
    match slice_to 4 file_data with
    | [b0; b1; b2; b3] =>
        Byte.eqb b0 Byte.x25 && Byte.eqb b1 Byte.x50
        && Byte.eqb b2 Byte.x44 && Byte.eqb b3 Byte.x46
    | _ => false
    end.

End EmailValidator.

Module AppRoute.

(** The loop of src/app.py:331-334: the strings of the list that pass
    [validate_email], stripped, in their order. *)
Fixpoint valid_recipients (recipients : list json_element) : list pystr :=
  match recipients with
  | [] => []
  | JStr r :: rest =>
      if App.validate_email r then strip r :: valid_recipients rest
      else valid_recipients rest
  | JNotStr :: rest => valid_recipients rest
  end.

Section Route.

Variable unicode_lower : pystr -> pystr.
Variable secure_filename : pystr -> pystr.

(** The checks on the uploaded file and the answer, src/app.py:345-389. *)
Definition with_file (req : send_request)
    (sender_email sender_name password subject body : pystr)
    (valid : list pystr) : reply :=
  match file_cv req with
  | None => Refused 400 (str "No CV file uploaded")
  | Some cv_file =>
      if negb (truthy (filename cv_file)) then
        Refused 400 (str "No file selected")
      else if negb (EmailValidator.validate_file unicode_lower (filename cv_file)) then
        Refused 400 (str "Invalid file type. Only PDF files are allowed")
      else
        let cv_data := content cv_file in
        if negb (truthy cv_data) then
          Refused 400 (str "Empty file uploaded")
        else if (WebConfig.MAX_FILE_SIZE <? len cv_data)%Z then
          Refused 400 (str "File too large. Maximum size: 10.0MB")
        else if negb (EmailValidator.validate_pdf_content cv_data) then
          Refused 400 (str "Invalid PDF file content")
        else
          Streaming {| c_sender_email := sender_email;
                       c_sender_name := sender_name;
                       c_password := password;
                       c_subject := subject;
                       c_body := body;
                       c_recipients := valid;
                       c_cv_data := cv_data;
                       c_cv_filename := secure_filename (filename cv_file) |}
  end.

(** The route [send_emails], src/app.py:298-393. *)
Definition send_emails (req : send_request) : reply :=
  match http_verb req with
  | OPTIONS => NoContent
  | POST =>
      let sender_email := strip (get_or_empty (form_sender_email req)) in
      let sender_name := strip (get_or_empty (form_sender_name req)) in
      let password := get_or_empty (form_password req) in
      let subject := strip (get_or_empty (form_subject req)) in
      let body := strip (get_or_empty (form_body req)) in
      if negb (truthy sender_email && truthy password
               && truthy subject && truthy body) then
        Refused 400 (str "Missing required fields")
      else if negb (App.validate_email sender_email) then
        Refused 400 (str "Invalid sender email format")
      else
        match form_recipients req with
        | Malformed => Refused 400 (str "Invalid recipients format")
        | field =>
            match (match field with Parsed j => j | _ => JList [] end) with
            | JList recipients =>
                let valid := valid_recipients recipients in
                if negb (truthy valid) then
                  Refused 400 (str "No valid recipients found")
                else if (Config.MAX_RECIPIENTS <? len valid)%Z then
                  Refused 400 (str "Too many recipients. Maximum: "
                                 ++ str_of_int Config.MAX_RECIPIENTS)
                else
                  with_file req sender_email sender_name password subject body valid
            | JNotList => Refused 400 (str "Recipients must be a list")
            end
        end
  end.

(** The generator that the streaming response of a campaign iterates. *)
Definition stream (c : campaign) (env : relay) : gen unit :=
  App.send_emails_batch secure_filename App.email_sender
    (c_sender_email c) (c_sender_name c) (c_password c) (c_subject c)
    (c_body c) (c_recipients c) (c_cv_data c) (c_cv_filename c) env.

End Route.

End AppRoute.

(* ================================================================== *)
(** * src/backend/app.py: the file check *)
(* ================================================================== *)

Module BackendRoute.

(** src/backend/app.py:27 *)
Definition ALLOWED_EXTENSIONS : list pystr := [str "pdf"].

Section Lower.

Variable unicode_lower : pystr -> pystr.

(** [allowed_file], src/backend/app.py:31-33. *)
Definition allowed_file (filename : pystr) : bool :=
  has_char (chr ".") filename &&
  match nth_error (rsplit1 (chr ".") filename) 1 with
  | Some ext =>
      existsb (pystr_eqb (EmailValidator.lower unicode_lower ext))
        ALLOWED_EXTENSIONS
  | None => false
  end.

End Lower.

End BackendRoute.

(* ================================================================== *)
(** * The records on the wire: [json.dumps(...) + '\n'] *)
(* ================================================================== *)

Definition hex_digit (d : N) : N :=
  if (d <? 10)%N then (48 + d)%N else (87 + d)%N.

(** ['{0:04x}'.format(n)] for [n] below 0x10000, as every call has it. *)
Definition hex4 (n : N) : pystr :=
  [hex_digit (n / 4096 mod 16); hex_digit (n / 256 mod 16);
   hex_digit (n / 16 mod 16); hex_digit (n mod 16)]%N.

(** The replacement of one character by [json.encoder]'s
    [py_encode_basestring_ascii] ([ensure_ascii] is on by default): the
    backslash, the double quote and every character outside [' '..'~'] are
    escaped, characters above 0xFFFF as a surrogate pair. *)
Definition escape_char (c : N) : pystr :=
  if (c =? 92)%N then [92; 92]%N
  else if (c =? 34)%N then [92; 34]%N
  else if (c =? 8)%N then [92; 98]%N
  else if (c =? 12)%N then [92; 102]%N
  else if (c =? 10)%N then [92; 110]%N
  else if (c =? 13)%N then [92; 114]%N
  else if (c =? 9)%N then [92; 116]%N
  else if in_range 32 126 c then [c]
  else if (c <? 65536)%N then [92; 117]%N ++ hex4 c
  else
    let n := (c - 65536)%N in
    [92; 117]%N ++ hex4 (N.lor 55296 (N.land (N.shiftr n 10) 1023))
    ++ [92; 117]%N ++ hex4 (N.lor 56320 (N.land n 1023)).

(** [json.dumps(s)] for a [str]. *)
Definition json_string (s : pystr) : pystr :=
  dquote ++ flat_map escape_char s ++ dquote.

Definition level_name (lvl : level) : pystr :=
  match lvl with
  | info => str "info"
  | success => str "success"
  | error => str "error"
  end.

(** One item of a serialised [dict]: its key, and its value already
    serialised. *)
Definition dict_item (key : string) (value : pystr) : pystr :=
  json_string (str key) ++ str ": " ++ value.

(** [json.dumps(d)] for the three dictionaries the generators build, with
    the keys in the order of the source. *)
Definition json_dumps (e : event) : pystr :=
  match e with
  | Log message lvl =>
      str "{" ++ dict_item "type" (json_string (str "log")) ++ str ", "
      ++ dict_item "message" (json_string message) ++ str ", "
      ++ dict_item "level" (json_string (level_name lvl)) ++ str "}"
  | Progress progress total sent failed pending =>
      str "{" ++ dict_item "type" (json_string (str "progress")) ++ str ", "
      ++ dict_item "progress" (str_of_int progress) ++ str ", "
      ++ dict_item "total" (str_of_int total) ++ str ", "
      ++ dict_item "sent" (str_of_int sent) ++ str ", "
      ++ dict_item "failed" (str_of_int failed) ++ str ", "
      ++ dict_item "pending" (str_of_int pending) ++ str "}"
  | Complete sent failed =>
      str "{" ++ dict_item "type" (json_string (str "complete")) ++ str ", "
      ++ dict_item "sent" (str_of_int sent) ++ str ", "
      ++ dict_item "failed" (str_of_int failed) ++ str "}"
  end.

(** The string a generator yields for an event. *)
Definition yielded (e : event) : pystr := json_dumps e ++ [10%N].

(** The response body of a run: the strings it yields, one after the
    other. *)
Definition body_of (t : trace) : pystr := concat (map yielded (events t)).

Definition printable (c : N) : Prop := in_range 32 126 c = true.

(* ================================================================== *)
(** * Vocabulary of the further properties *)
(* ================================================================== *)






(** The number of recipients, counted from position [i], that are valid,
    whose message is built, and that the relay accepts. *)
Fixpoint accepted (valid : pystr -> bool) (build : Z -> pystr -> exn + message)
    (env : relay) (i : Z) (rs : list pystr) : Z :=
  match rs with
  | [] => 0
  | r :: rs' =>
      (match valid r, build i r, sendmail_error env i with
       | true, inr _, None => 1
       | _, _, _ => 0
       end + accepted valid build env (i + 1) rs')%Z
  end.

(** A trace with the password of its [login] call blanked. *)
Definition redact (a : action) : action :=
  match a with
  | Smtp (Op_login user _) => Smtp (Op_login user [])
  | _ => a
  end.

(** The percentage reported at position [i] of [total], for a campaign of
    at most [Config.MAX_RECIPIENTS] recipients: the integer quotient, or
    one below it at the positions of [rounds_below]. *)
Definition expected_percent (i total : Z) : Z :=
  (if rounds_below i total then i * 100 / total - 1 else i * 100 / total)%Z.

(** The [Progress] event for position [k] of a loop over [rs] with body
    [one]: the percentage of the position, the total, and the counters as
    they stand after the first [k] recipients. *)
Definition progress_at (one : Z -> pystr -> gen unit) (rs : list pystr)
    (k : nat) : event :=
  let total := len rs in
  let st := state_after k rs 1 one loop_start in
  Progress (expected_percent (Z.of_nat k) total) total (sent st) (failed st)
    (total - sent st - failed st).

(** What makes a stored recipient well formed: it passes [validate_email],
    has the shape of an address, and carries no white space at its ends. *)
Definition clean_address (r : pystr) : Prop :=
  App.validate_email r = true /\ address_shape r /\ strip r = r.

(** A request that the route accepts, and the campaign it starts:
    the second and third entries of the posted list are dropped, the
    fourth is stripped. *)
Definition sample_request : send_request :=
  {| http_verb := POST;
     form_sender_email := Some (str " me@example.com ");
     form_sender_name := Some sample_name;
     form_password := Some sample_password;
     form_subject := Some sample_subject;
     form_body := Some sample_body;
     form_recipients :=
       Parsed (JList [JStr alice; JNotStr; JStr bad; JStr (str " c@d.org")]);
     file_cv := Some {| filename := sample_filename; content := sample_cv |} |}.

Definition sample_campaign : campaign :=
  {| c_sender_email := sample_sender; c_sender_name := sample_name;
     c_password := sample_password; c_subject := sample_subject;
     c_body := sample_body; c_recipients := [alice; carol];
     c_cv_data := sample_cv; c_cv_filename := sample_filename |}.




(** The positions, counted from [i], of the recipients that [valid]
    accepts. *)
Fixpoint valid_positions (valid : pystr -> bool) (i : Z) (rs : list pystr)
    : list Z :=
  match rs with
  | [] => []
  | r :: rs' =>
      (if valid r then [i] else []) ++ valid_positions valid (i + 1) rs'
  end.

(** The percentage a [Progress] event reports. *)
Definition percent_of (e : event) : Z :=
  match e with
  | Progress p _ _ _ _ => p
  | _ => 0
  end.

(** A list of numbers that never goes down. *)
Fixpoint nondecreasing (l : list Z) : Prop :=
  match l with
  | a :: (b :: _) as l' => (a <= b)%Z /\ nondecreasing l'
  | _ => True
  end.

(** The percentage of position [i] of [total] lies between 1 and 100 and
    is not above that of the next position. *)
Definition percent_step_ok (i total : Z) : bool :=
  ((1 <=? expected_percent i total) && (expected_percent i total <=? 100)
   && ((total <=? i)
       || (expected_percent i total <=? expected_percent (i + 1) total)))%Z.

(* ================================================================== *)
(** * Facts about strings and patterns *)
(* ================================================================== *)

Lemma lang_class_inv p s : lang (Class p) s <-> exists c, s = [c] /\ p c = true.
Proof.
  split.
  - intros H. inversion H; subst. eauto.
  - intros (c & -> & Hc). now constructor.
Qed.

Lemma lang_seq_inv r1 r2 s :
  lang (Seq r1 r2) s <-> exists s1 s2, s = s1 ++ s2 /\ lang r1 s1 /\ lang r2 s2.
Proof.
  split.
  - intros H. inversion H; subst. eauto.
  - intros (s1 & s2 & -> & H1 & H2). now constructor.
Qed.

Lemma lang_star_uncons r c s :
  lang (Star r) (c :: s) ->
  exists s1 s2, s = s1 ++ s2 /\ lang r (c :: s1) /\ lang (Star r) s2.
Proof.
  intros H. remember (Star r) as q eqn:Hq. remember (c :: s) as w eqn:Hw.
  revert c s Hw.
  induction H; intros c0 s0 Hw; try discriminate.
  injection Hq as ->.
  destruct s1 as [|a s1].
  - simpl in Hw. now apply IHlang2.
  - simpl in Hw. injection Hw as -> <-. eauto.
Qed.

Lemma nullable_lang r : nullable r = true <-> lang r [].
Proof.
  induction r; simpl.
  - split; [discriminate | intros H; inversion H].
  - split; [constructor | reflexivity].
  - split; [discriminate | intros H; inversion H].
  - rewrite andb_true_iff, IHr1, IHr2, lang_seq_inv. split.
    + intros [H1 H2]. now exists [], [].
    + intros (s1 & s2 & E & H1 & H2).
      symmetry in E. apply app_eq_nil in E as [-> ->]. now split.
  - rewrite orb_true_iff, IHr1, IHr2. split.
    + intros [H | H]; [now apply lang_alt_l | now apply lang_alt_r].
    + intros H. inversion H; subst; auto.
  - split; [constructor | reflexivity].
Qed.

Lemma deriv_lang c r : forall s, lang (deriv c r) s <-> lang r (c :: s).
Proof.
  induction r; intros s; simpl.
  - split; intros H; inversion H.
  - split; intros H; inversion H.
  - destruct (p c) eqn:Hp; split; intros H; inversion H; subst.
    + now constructor.
    + constructor.
    + congruence.
  - assert (Hseq : lang (Seq (deriv c r1) r2) s <->
                   exists s1 s2, s = s1 ++ s2 /\ lang r1 (c :: s1) /\ lang r2 s2).
    { rewrite lang_seq_inv. split; intros (s1 & s2 & E & H1 & H2);
        exists s1, s2; repeat split; auto; now apply IHr1. }
    destruct (nullable r1) eqn:Hn.
    + split.
      * intros H. inversion H; subst.
        -- apply Hseq in H3 as (s1 & s2 & -> & H1 & H2).
           change (c :: s1 ++ s2) with ((c :: s1) ++ s2). now constructor.
        -- apply IHr2 in H3. apply nullable_lang in Hn.
           change (c :: s) with ([] ++ c :: s). now constructor.
      * intros H. apply lang_seq_inv in H as (s1 & s2 & E & H1 & H2).
        destruct s1 as [|a s1]; simpl in E.
        -- subst s2. apply lang_alt_r. now apply IHr2.
        -- injection E as <- ->. apply lang_alt_l. apply Hseq. eauto.
    + rewrite Hseq. split.
      * intros (s1 & s2 & -> & H1 & H2).
        change (c :: s1 ++ s2) with ((c :: s1) ++ s2). now constructor.
      * intros H. apply lang_seq_inv in H as (s1 & s2 & E & H1 & H2).
        destruct s1 as [|a s1]; simpl in E.
        -- apply nullable_lang in H1. congruence.
        -- injection E as <- ->. eauto.
  - split; intros H; inversion H; subst.
    + apply lang_alt_l. now apply IHr1.
    + apply lang_alt_r. now apply IHr2.
    + apply lang_alt_l. now apply IHr1.
    + apply lang_alt_r. now apply IHr2.
  - rewrite lang_seq_inv. split.
    + intros (s1 & s2 & -> & H1 & H2). apply IHr in H1.
      change (c :: s1 ++ s2) with ((c :: s1) ++ s2). now constructor.
    + intros H. apply lang_star_uncons in H as (s1 & s2 & -> & H1 & H2).
      exists s1, s2. repeat split; auto. now apply IHr.
Qed.

Lemma fullmatch_lang s : forall r, fullmatch r s = true <-> lang r s.
Proof.
  induction s as [|c s IH]; intros r; simpl.
  - apply nullable_lang.
  - rewrite IH. apply deriv_lang.
Qed.

Lemma lang_star_class p s :
  lang (Star (Class p)) s <-> Forall (fun c => p c = true) s.
Proof.
  split.
  - induction s as [|c s IH]; intros H; [constructor|].
    apply lang_star_uncons in H as (s1 & s2 & -> & H1 & H2).
    apply lang_class_inv in H1 as (c' & E & Hc). injection E as E1 E2. subst.
    simpl in *. constructor; auto.
  - induction 1 as [|c s Hc _ IH]; [constructor|].
    change (c :: s) with ([c] ++ s). constructor; auto. now constructor.
Qed.

Lemma lang_plus_class p s :
  lang (plus (Class p)) s <-> s <> [] /\ Forall (fun c => p c = true) s.
Proof.
  unfold plus. rewrite lang_seq_inv. split.
  - intros (s1 & s2 & -> & H1 & H2).
    apply lang_class_inv in H1 as (c & -> & Hc). apply lang_star_class in H2.
    split; [discriminate | now constructor].
  - intros [Hne H]. destruct s as [|c s]; [congruence|].
    inversion H; subst. exists [c], s. repeat split.
    + now constructor.
    + now apply lang_star_class.
Qed.

Lemma lang_at_least_two p s :
  lang (at_least 2 (Class p)) s <->
  (2 <= length s)%nat /\ Forall (fun c => p c = true) s.
Proof.
  simpl. rewrite lang_seq_inv. split.
  - intros (s1 & s2 & -> & H1 & H2).
    apply lang_class_inv in H1 as (c & -> & Hc).
    apply lang_seq_inv in H2 as (s3 & s4 & -> & H3 & H4).
    apply lang_class_inv in H3 as (c' & -> & Hc'). apply lang_star_class in H4.
    split; [simpl; lia | repeat constructor; auto].
  - intros [Hlen H]. destruct s as [|c [|c' s]]; simpl in Hlen; try lia.
    inversion H as [|? ? Hc H']; subst. inversion H' as [|? ? Hc' H'']; subst.
    exists [c], (c' :: s). repeat split; [now constructor|].
    apply lang_seq_inv. exists [c'], s. repeat split; [now constructor|].
    now apply lang_star_class.
Qed.

(** The pattern of the source denotes the shape of the specification. *)
Lemma EMAIL_REGEX_shape s : lang EMAIL_REGEX s <-> address_shape s.
Proof.
  unfold EMAIL_REGEX, address_shape, Chr. split.
  - intros H.
    apply lang_seq_inv in H as (l & s1 & -> & Hl & H).
    apply lang_seq_inv in H as (a & s2 & -> & Ha & H).
    apply lang_seq_inv in H as (d & s3 & -> & Hd & H).
    apply lang_seq_inv in H as (b & t & -> & Hb & Ht).
    apply lang_class_inv in Ha as (ca & -> & Hca). apply N.eqb_eq in Hca. subst ca.
    apply lang_class_inv in Hb as (cb & -> & Hcb). apply N.eqb_eq in Hcb. subst cb.
    apply lang_plus_class in Hl as [Hl1 Hl2].
    apply lang_plus_class in Hd as [Hd1 Hd2].
    apply lang_at_least_two in Ht as [Ht1 Ht2].
    exists l, d, t. simpl. repeat split; auto.
  - intros (l & d & t & -> & Hl1 & Hl2 & Hd1 & Hd2 & Ht1 & Ht2).
    apply lang_seq_inv. exists l, (chr "@" :: d ++ chr "." :: t).
    repeat split; [now apply lang_plus_class|].
    apply lang_seq_inv. exists [chr "@"], (d ++ chr "." :: t).
    repeat split; [constructor; apply N.eqb_refl|].
    apply lang_seq_inv. exists d, (chr "." :: t).
    repeat split; [now apply lang_plus_class|].
    apply lang_seq_inv. exists [chr "."], t.
    repeat split; [constructor; apply N.eqb_refl|].
    now apply lang_at_least_two.
Qed.

Lemma has_char_In c s : has_char c s = true <-> In c s.
Proof.
  unfold has_char. rewrite existsb_exists. split.
  - intros (x & Hx & E). apply N.eqb_eq in E. now subst.
  - intros H. exists c. split; [assumption | apply N.eqb_refl].
Qed.

Lemma lstrip_head s c s' : lstrip s = c :: s' -> isspace c = false.
Proof.
  induction s as [|a s IH]; simpl; [discriminate|].
  destruct (isspace a) eqn:Ha; [assumption|].
  intros E. injection E as <- _. assumption.
Qed.

Lemma rev_strip s : rev (strip s) = lstrip (rev (lstrip s)).
Proof. unfold strip, rstrip. apply rev_involutive. Qed.

(** A stripped string does not end in a newline, so [$] can only match at
    its very end. *)
Lemma re_match_strip r s : re_match r (strip s) = fullmatch r (strip s).
Proof.
  unfold re_match. rewrite rev_strip.
  destruct (lstrip (rev (lstrip s))) as [|c t] eqn:E.
  - apply orb_false_r.
  - apply lstrip_head in E.
    destruct (c =? 10)%N eqn:Hc.
    + apply N.eqb_eq in Hc. subst c. discriminate.
    + apply orb_false_r.
Qed.

Lemma app_validate_email_iff s :
  App.validate_email s = true <->
  s <> [] /\ (length s <= 254)%nat /\ address_shape (strip s).
Proof.
  unfold App.validate_email, len.
  destruct s as [|c s]; cbn [truthy negb orb].
  - split; [discriminate | intros [H _]; congruence].
  - destruct (254 <? Z.of_nat (length (c :: s)))%Z eqn:Hlen.
    + apply Z.ltb_lt in Hlen. split; [discriminate | intros (_ & H & _); lia].
    + apply Z.ltb_ge in Hlen.
      rewrite re_match_strip, fullmatch_lang, EMAIL_REGEX_shape.
      split; [intros H; repeat split; [discriminate | lia | assumption] | tauto].
Qed.

Lemma py_split_first sep s :
  exists seg, ~ In sep seg /\
    ((s = seg /\ py_split sep s = [seg]) \/
     exists b, s = seg ++ sep :: b /\ py_split sep s = seg :: py_split sep b).
Proof.
  induction s as [|c s IH]; simpl.
  - exists []. split; [intros [] | now left].
  - destruct (c =? sep)%N eqn:Hc.
    + apply N.eqb_eq in Hc. subst c. exists []. split; [intros [] | right].
      now exists s.
    + apply N.eqb_neq in Hc.
      destruct IH as (seg & Hseg & [[-> E] | (b & -> & E)]); rewrite E;
        exists (c :: seg); (split; [intros [H | H]; congruence|]).
      * now left.
      * right. now exists b.
Qed.

Lemma py_split_app sep a b :
  ~ In sep a -> py_split sep (a ++ sep :: b) = a :: py_split sep b.
Proof.
  induction a as [|c a IH]; simpl; intros H.
  - now rewrite N.eqb_refl.
  - destruct (c =? sep)%N eqn:Hc.
    + apply N.eqb_eq in Hc. tauto.
    + rewrite IH by tauto. reflexivity.
Qed.

Lemma py_split_none sep d : ~ In sep d -> py_split sep d = [d].
Proof.
  induction d as [|c d IH]; simpl; intros H; [reflexivity|].
  destruct (c =? sep)%N eqn:Hc.
  - apply N.eqb_eq in Hc. tauto.
  - rewrite IH by tauto. reflexivity.
Qed.

(** The index [1] of the split exists whenever the guard ['@' in email]
    holds: the validator never raises. *)
Lemma backend_split_index s :
  has_char (chr "@") s = true -> nth_error (py_split (chr "@") s) 1 <> None.
Proof.
  intros H. apply has_char_In in H.
  destruct (py_split_first (chr "@") s) as (seg & Hseg & [[-> E] | (b & -> & E)]).
  - contradiction.
  - rewrite E. cbn [nth_error].
    destruct (py_split_first (chr "@") b) as (d & _ & [[_ E'] | (b' & _ & E')]);
      rewrite E'; discriminate.
Qed.

Lemma backend_validate_email_iff s :
  Backend.validate_email s = true <-> at_then_dot s.
Proof.
  unfold Backend.validate_email, at_then_dot. rewrite andb_true_iff. split.
  - intros [Hat Hdot]. apply has_char_In in Hat.
    destruct (py_split_first (chr "@") s) as (a & Ha & [[-> E] | (b & -> & E)]);
      [contradiction|].
    rewrite E in Hdot. cbn [nth_error] in Hdot.
    destruct (py_split_first (chr "@") b) as (d & Hd & [[-> E'] | (r & -> & E')]);
      rewrite E' in Hdot; cbn [nth_error] in Hdot; apply has_char_In in Hdot.
    + exists a, d, []. rewrite app_nil_r. repeat split; auto.
    + exists a, d, (chr "@" :: r). repeat split; eauto.
  - intros (a & d & rest & -> & Ha & Hd & Hdot & Hrest). split.
    + apply has_char_In. apply in_or_app. right. now left.
    + rewrite py_split_app by assumption. cbn [nth_error].
      destruct Hrest as [-> | (r & ->)].
      * rewrite app_nil_r, py_split_none by assumption. now apply has_char_In.
      * rewrite py_split_app by assumption. now apply has_char_In.
Qed.

(* ================================================================== *)
(** * The loop *)
(* ================================================================== *)

Lemma for_enumerate_trace rs : forall i body st,
  fst (fst (for_enumerate rs i body st)) = concat (iterations rs i body st).
Proof.
  induction rs as [|r rs IH]; intros i body st; simpl; [reflexivity|].
  destruct (body i r st) as [[t st1] c].
  destruct c; simpl; try (symmetry; apply app_nil_r);
    rewrite <- IH; destruct (for_enumerate rs (i + 1) body st1) as [[t' st2] c'];
    reflexivity.
Qed.

Lemma for_enumerate_state rs : forall i body st,
  snd (fst (for_enumerate rs i body st)) = state_after (length rs) rs i body st.
Proof.
  induction rs as [|r rs IH]; intros i body st; simpl; [reflexivity|].
  destruct (body i r st) as [[t st1] c].
  destruct c; simpl; try reflexivity;
    rewrite <- IH; destruct (for_enumerate rs (i + 1) body st1) as [[t' st2] c'];
    reflexivity.
Qed.

(** A property of every action of every iteration holds of the loop. *)
Lemma iterations_Forall (P : action -> Prop) body :
  (forall i r st, Forall P (fst (fst (body i r st)))) ->
  forall rs i st, Forall (Forall P) (iterations rs i body st).
Proof.
  intros Hbody. induction rs as [|r rs IH]; intros i st; simpl; [constructor|].
  specialize (Hbody i r st). destruct (body i r st) as [[t st1] c]. simpl in Hbody.
  destruct c; constructor; auto.
Qed.

Lemma for_enumerate_Forall (P : action -> Prop) body :
  (forall i r st, Forall P (fst (fst (body i r st)))) ->
  forall rs i st, Forall P (fst (fst (for_enumerate rs i body st))).
Proof.
  intros Hbody rs i st. rewrite for_enumerate_trace.
  apply Forall_concat. now apply iterations_Forall.
Qed.

(** A loop whose body never executes [return] ends normally or raises. *)
Lemma for_enumerate_ctl body :
  (forall i r st, snd (body i r st) <> Returned) ->
  forall rs i st,
    snd (for_enumerate rs i body st) = Normal tt \/
    exists e, snd (for_enumerate rs i body st) = Raised e.
Proof.
  intros Hbody. induction rs as [|r rs IH]; intros i st; simpl; [now left|].
  specialize (Hbody i r st). destruct (body i r st) as [[t st1] c]. simpl in Hbody.
  destruct c; try congruence; try (right; eexists; reflexivity);
    specialize (IH (i + 1)%Z st1);
    destruct (for_enumerate rs (i + 1) body st1) as [[t' st2] c']; exact IH.
Qed.

Lemma for_enumerate_server body :
  (forall i r st, server (snd (fst (body i r st))) = server st) ->
  forall rs i st, server (snd (fst (for_enumerate rs i body st))) = server st.
Proof.
  intros Hbody. induction rs as [|r rs IH]; intros i st; simpl; [reflexivity|].
  specialize (Hbody i r st). destruct (body i r st) as [[t st1] c]. simpl in Hbody.
  destruct c; simpl; try assumption;
    specialize (IH (i + 1)%Z st1);
    destruct (for_enumerate rs (i + 1) body st1) as [[t' st2] c']; simpl in *;
    congruence.
Qed.

Section AppLoop.

Variable secure_filename : pystr -> pystr.
Variables sender_email sender_name subject body : pystr.
Variable cv_data : list Byte.byte.
Variable cv_filename : pystr.
Variable total : Z.
Variable env : relay.

Let send_one := App.send_one secure_filename sender_email sender_name subject body
                  cv_data cv_filename total env.

(** What one iteration of [send_emails_batch] does, case by case. *)
Lemma app_send_one_eq i recipient st :
  send_one i recipient st =
  if negb (App.validate_email recipient) then
    ([Yield (Log (str "Invalid email: " ++ recipient) error)], bump_failed st, Continued)
  else
    let '(work, st1) :=
      match App.create_message secure_filename sender_email sender_name recipient
              subject body cv_data cv_filename (encode_error env i) with
      | inl e =>
          ([Yield (Log ([10007%N] ++ str " Failed to send to " ++ recipient
                          ++ str ": " ++ exn_str e) error)], bump_failed st)
      | inr msg =>
          match sendmail_error env i with
          | Some e =>
              ([Smtp (Op_sendmail sender_email recipient msg);
                Yield (Log ([10007%N] ++ str " Failed to send to " ++ recipient
                              ++ str ": " ++ exn_str e) error)], bump_failed st)
          | None =>
              ([Smtp (Op_sendmail sender_email recipient msg);
                Yield (Log ([10003%N] ++ str " Sent to: " ++ recipient) success)],
               bump_sent st)
          end
      end in
    match progress_percent i total with
    | inl e => (work, st1, Raised e)
    | inr p =>
        (work ++ Yield (Progress p total (sent st1) (failed st1)
                          (total - sent st1 - failed st1))
              :: (if (i <? total)%Z then [Sleep (PyInt 1)] else []),
         st1, Normal tt)
    end.
Proof.
  unfold send_one, App.send_one, App.create_response, try_except, bind, lift,
    yield, sleep, emit, call, incr_failed, incr_sent, py_continue, get, ret, raise.
  destruct (App.validate_email recipient); cbn [negb]; [|reflexivity].
  destruct (App.create_message _ _ _ _ _ _ _ _ _) as [e|msg];
    [|destruct (sendmail_error env i) as [e|]];
    destruct (progress_percent i total) as [e'|p];
    try destruct (i <? total)%Z; reflexivity.
Qed.

Lemma app_send_one_server i recipient st :
  server (snd (fst (send_one i recipient st))) = server st.
Proof.
  rewrite app_send_one_eq.
  destruct (App.validate_email recipient); cbn [negb]; [|reflexivity].
  destruct (App.create_message _ _ _ _ _ _ _ _ _) as [e|msg];
    [|destruct (sendmail_error env i) as [e|]];
    destruct (progress_percent i total) as [e'|p]; reflexivity.
Qed.

End AppLoop.

Section BackendLoop.

Variables sender_email sender_name subject body : pystr.
Variable cv_data : list Byte.byte.
Variable cv_filename : pystr.
Variable total : Z.
Variable env : relay.

Let send_one := Backend.send_one sender_email sender_name subject body
                  cv_data cv_filename total env.

(** What one iteration of [send_emails_generator] does, case by case. *)
Lemma backend_send_one_eq i recipient st :
  send_one i recipient st =
  let '(work, st1) :=
    if negb (Backend.validate_email recipient) then
      ([Yield (Log (str "Invalid email: " ++ recipient) error)], bump_failed st)
    else
      match Backend.create_message_with_attachment sender_email sender_name
              recipient subject body cv_data cv_filename (encode_error env i) with
      | inl e =>
          ([Yield (Log (str "Failed to send to " ++ recipient ++ str ": "
                          ++ exn_str e) error)], bump_failed st)
      | inr msg =>
          match sendmail_error env i with
          | Some e =>
              ([Smtp (Op_sendmail sender_email recipient msg);
                Yield (Log (str "Failed to send to " ++ recipient ++ str ": "
                              ++ exn_str e) error)], bump_failed st)
          | None =>
              ([Smtp (Op_sendmail sender_email recipient msg);
                Yield (Log (str "Email sent to: " ++ recipient) success)],
               bump_sent st)
          end
      end in
  match progress_percent i total with
  | inl e => (work, st1, Raised e)
  | inr p =>
      (work ++ [Yield (Progress p total (sent st1) (failed st1)
                         (total - sent st1 - failed st1));
                Sleep (PyFloat half)],
       st1, Normal tt)
  end.
Proof.
  unfold send_one, Backend.send_one, try_except, bind, lift,
    yield, sleep, emit, call, incr_failed, incr_sent, get, ret, raise.
  destruct (Backend.validate_email recipient); cbn [negb].
  - destruct (Backend.create_message_with_attachment _ _ _ _ _ _ _ _) as [e|msg];
      [|destruct (sendmail_error env i) as [e|]];
      destruct (progress_percent i total) as [e'|p]; reflexivity.
  - destruct (progress_percent i total) as [e'|p]; reflexivity.
Qed.

End BackendLoop.

(* ================================================================== *)
(** * The shape of a run *)
(* ================================================================== *)

Section AppRun.

Variable secure_filename : pystr -> pystr.
Variable self : App.EmailSender.
Variables sender_email sender_name password subject body : pystr.
Variable recipients : list pystr.
Variable cv_data : list Byte.byte.
Variable cv_filename : pystr.
Variable env : relay.

Let g := App.send_emails_batch secure_filename self sender_email sender_name
           password subject body recipients cv_data cv_filename env.

Let hello : trace :=
  [Yield (Log (str "Starting email campaign...") info);
   Yield (Log (str "Connecting to " ++ App.smtp_server self ++ str "...") info);
   Smtp (Op_SMTP (App.smtp_server self) (App.smtp_port self) (Some 30%Z))].

Let auth : trace :=
  hello ++ [Smtp Op_starttls;
            Yield (Log (str "Authenticating...") info);
            Smtp (Op_login sender_email password)].

Ltac app_unfold :=
  unfold run, g, App.send_emails_batch, App.create_response, try_finally,
    try_except, bind, yield, emit, call, assign_server, get, ret, py_return.

Lemma app_run_connect_fails e :
  connect_error env = Some e ->
  run g = (hello ++ [Yield (Log (str "Error: " ++ exn_str e) error)],
           initial, Normal tt).
Proof. intros H. app_unfold. rewrite H. reflexivity. Qed.

Lemma app_run_starttls_fails e :
  connect_error env = None -> starttls_error env = Some e ->
  run g = (hello ++ [Smtp Op_starttls;
                     Yield (Log (str "Error: " ++ exn_str e) error);
                     Smtp Op_quit],
           loop_start, Normal tt).
Proof.
  intros H1 H2. app_unfold. rewrite H1, H2. cbn.
  destruct (quit_error env); reflexivity.
Qed.

Lemma app_run_login_fails e :
  connect_error env = None -> starttls_error env = None ->
  login_error env = Some e ->
  run g = (auth ++ [Yield (Log (app_login_failure e) error); Smtp Op_quit],
           loop_start,
           if is_auth_error e then Returned else Normal tt).
Proof.
  intros H1 H2 H3. app_unfold. rewrite H1, H2, H3. unfold app_login_failure.
  destruct (is_auth_error e); [destruct (contains signature (exn_str e))|];
    cbn; destruct (quit_error env); reflexivity.
Qed.

Lemma app_run_loop lt lst lc :
  connect_error env = None -> starttls_error env = None ->
  login_error env = None ->
  for_enumerate recipients 1
    (App.send_one secure_filename sender_email sender_name subject body
       cv_data cv_filename (len recipients) env) loop_start = (lt, lst, lc) ->
  run g = (auth ++ [Yield (Log (str "Authentication successful") success);
                    Yield (Log (str "Sending to " ++ str_of_int (len recipients)
                                  ++ str " recipients...") info)]
                ++ lt ++ app_epilogue lst lc,
           lst,
           match lc with
           | Returned => Returned
           | Continued => Continued
           | _ => Normal tt
           end).
Proof.
  intros H1 H2 H3 Hloop.
  assert (Hs : server lst = true).
  { change lst with (snd (fst (lt, lst, lc))). rewrite <- Hloop.
    apply for_enumerate_server. intros i r st. apply app_send_one_server. }
  app_unfold. rewrite H1, H2, H3.
  cbn -[for_enumerate App.send_one len str str_of_int].
  unfold loop_start in Hloop. rewrite Hloop.
  destruct lc; cbn -[str str_of_int]; rewrite Hs; cbn -[str str_of_int];
    destruct (quit_error env); cbn -[str str_of_int];
    rewrite <- ?app_assoc; reflexivity.
Qed.

End AppRun.

Section BackendRun.

Variables sender_email sender_name password subject body : pystr.
Variable recipients : list pystr.
Variable cv_data : list Byte.byte.
Variable cv_filename : pystr.
Variable env : relay.

Let g := Backend.send_emails_generator sender_email sender_name
           password subject body recipients cv_data cv_filename env.

Let hello : trace :=
  [Yield (Log (str "Starting email campaign...") info);
   Yield (Log (str "Connecting to SMTP server (" ++ Backend.smtp_server
                 ++ str ")...") info);
   Smtp (Op_SMTP Backend.smtp_server Backend.smtp_port None)].

Let auth : trace :=
  hello ++ [Smtp Op_starttls;
            Yield (Log (str "Authenticating...") info);
            Smtp (Op_login sender_email password)].

Ltac backend_unfold :=
  unfold run, g, Backend.send_emails_generator,
    try_except, bind, yield, emit, call, assign_server, get, ret, raise.

Ltac backend_handlers e :=
  unfold backend_error_logs;
  destruct (is_auth_error e);
    [destruct (contains signature (exn_str e))
    |destruct (is_smtp_exception e)].

Lemma backend_run_connect_fails e :
  connect_error env = Some e ->
  run g = (hello ++ map Yield (backend_error_logs e), initial, Normal tt).
Proof.
  intros H. backend_unfold. rewrite H. backend_handlers e; reflexivity.
Qed.

Lemma backend_run_starttls_fails e :
  connect_error env = None -> starttls_error env = Some e ->
  run g = (hello ++ Smtp Op_starttls :: map Yield (backend_error_logs e),
           loop_start, Normal tt).
Proof.
  intros H1 H2. backend_unfold. rewrite H1, H2. backend_handlers e; reflexivity.
Qed.

Lemma backend_run_login_fails e :
  connect_error env = None -> starttls_error env = None ->
  login_error env = Some e ->
  run g = (auth ++ Yield (Log (str "Authentication failed: " ++ exn_str e) error)
                :: map Yield (backend_error_logs e),
           loop_start, Normal tt).
Proof.
  intros H1 H2 H3. backend_unfold. rewrite H1, H2, H3.
  backend_handlers e; reflexivity.
Qed.

Lemma backend_run_loop lt lst lc :
  connect_error env = None -> starttls_error env = None ->
  login_error env = None ->
  for_enumerate recipients 1
    (Backend.send_one sender_email sender_name subject body
       cv_data cv_filename (len recipients) env) loop_start = (lt, lst, lc) ->
  run g = (auth ++ [Yield (Log (str "Successfully authenticated") success);
                    Yield (Log (str "Starting to send emails to "
                                  ++ str_of_int (len recipients)
                                  ++ str " recipients") info)]
                ++ lt ++ backend_epilogue (quit_error env) lst lc,
           lst,
           match lc with
           | Returned => Returned
           | Continued => Continued
           | _ => Normal tt
           end).
Proof.
  intros H1 H2 H3 Hloop. backend_unfold. rewrite H1, H2, H3.
  cbn -[for_enumerate Backend.send_one len str str_of_int].
  unfold loop_start in Hloop. rewrite Hloop.
  destruct lc as [[]|e| |]; cbn -[str str_of_int backend_error_logs].
  - destruct (quit_error env) as [e|]; cbn -[str str_of_int backend_error_logs].
    + backend_handlers e; cbn -[str str_of_int]; rewrite <- ?app_assoc; reflexivity.
    + rewrite <- ?app_assoc. reflexivity.
  - backend_handlers e; cbn -[str str_of_int]; rewrite <- ?app_assoc; reflexivity.
  - rewrite ?app_nil_r. reflexivity.
  - rewrite ?app_nil_r. reflexivity.
Qed.

End BackendRun.

(* ================================================================== *)
(** * Events of a run *)
(* ================================================================== *)

Lemma events_app t1 t2 : events (t1 ++ t2) = events t1 ++ events t2.
Proof.
  induction t1 as [|a t1 IH]; simpl; [reflexivity|].
  destruct a; simpl; now rewrite IH.
Qed.

Lemma events_map_Yield l : events (map Yield l) = l.
Proof. induction l as [|e l IH]; simpl; now rewrite ?IH. Qed.

Lemma events_not_complete t :
  Forall not_complete t -> Forall (fun e => is_complete e = false) (events t).
Proof.
  induction 1 as [|a t Ha _ IH]; simpl; [constructor|].
  destruct a as [e| |]; auto. constructor; auto. now destruct e.
Qed.

Lemma no_complete_inside l pre s f post :
  Forall (fun e => is_complete e = false) l -> l <> pre ++ Complete s f :: post.
Proof.
  intros H E. subst l. apply Forall_app in H as [_ H].
  inversion H; subst. discriminate.
Qed.

Lemma complete_at_end l x s f pre s' f' post :
  Forall (fun e => is_complete e = false) l -> is_complete x = false ->
  l ++ [x; Complete s f] = pre ++ Complete s' f' :: post ->
  pre = l ++ [x] /\ post = [] /\ s' = s /\ f' = f.
Proof.
  intros Hl Hx. revert pre. induction Hl as [|a l Ha _ IH]; intros pre E.
  - destruct pre as [|p pre]; simpl in E.
    + injection E as E _. subst x. discriminate.
    + injection E as -> E. destruct pre as [|q pre]; simpl in E.
      * injection E as -> -> <-. auto.
      * injection E as _ E. now destruct pre.
  - destruct pre as [|p pre]; simpl in E.
    + injection E as E _. subst a. discriminate.
    + injection E as -> E. apply IH in E as (-> & -> & -> & ->). auto.
Qed.

Lemma backend_error_logs_not_complete e :
  Forall not_complete (map Yield (backend_error_logs e)).
Proof.
  unfold backend_error_logs.
  destruct (is_auth_error e);
    [destruct (contains signature (exn_str e))|destruct (is_smtp_exception e)];
    repeat constructor.
Qed.

Lemma app_send_one_not_complete sf se sn subj body cv fn total env i r st :
  Forall not_complete
    (fst (fst (App.send_one sf se sn subj body cv fn total env i r st))).
Proof.
  rewrite app_send_one_eq.
  destruct (App.validate_email r); cbn [negb]; [|repeat constructor].
  destruct (App.create_message _ _ _ _ _ _ _ _ _) as [e|msg];
    [|destruct (sendmail_error env i) as [e|]];
    destruct (progress_percent i total) as [e'|p];
    try destruct (i <? total)%Z; repeat constructor.
Qed.

Lemma backend_send_one_not_complete se sn subj body cv fn total env i r st :
  Forall not_complete
    (fst (fst (Backend.send_one se sn subj body cv fn total env i r st))).
Proof.
  rewrite backend_send_one_eq.
  destruct (Backend.validate_email r); cbn [negb].
  - destruct (Backend.create_message_with_attachment _ _ _ _ _ _ _ _) as [e|msg];
      [|destruct (sendmail_error env i) as [e|]];
      destruct (progress_percent i total) as [e'|p]; repeat constructor.
  - destruct (progress_percent i total) as [e'|p]; repeat constructor.
Qed.

Lemma completes_last_intro (t : trace) tail :
  Forall not_complete t ->
  (tail = [] \/ exists s f, tail = [completed s f; Complete s f]) ->
  completes_last (events t ++ tail).
Proof.
  intros Ht Htail. exists (events t). split; [now apply events_not_complete|].
  destruct Htail as [-> | (s & f & ->)]; [left; apply app_nil_r | right; eauto].
Qed.

Lemma app_events_shape sf self se sn pw subj body rs cv fn env :
  completes_last
    (events (trace_of (App.send_emails_batch sf self se sn pw subj body rs cv fn env))).
Proof.
  unfold trace_of.
  destruct (connect_error env) as [e|] eqn:H1;
    [rewrite (app_run_connect_fails _ _ _ _ _ _ _ _ _ _ _ H1); cbn [fst];
     rewrite <- (app_nil_r (events _)); apply completes_last_intro; auto;
     repeat constructor|].
  destruct (starttls_error env) as [e|] eqn:H2;
    [rewrite (app_run_starttls_fails _ _ _ _ _ _ _ _ _ _ _ H1 H2); cbn [fst];
     rewrite <- (app_nil_r (events _)); apply completes_last_intro; auto;
     repeat constructor|].
  destruct (login_error env) as [e|] eqn:H3;
    [rewrite (app_run_login_fails _ _ _ _ _ _ _ _ _ _ _ H1 H2 H3); cbn [fst];
     rewrite <- (app_nil_r (events _)); apply completes_last_intro; auto;
     repeat constructor|].
  destruct (for_enumerate rs 1
              (App.send_one sf se sn subj body cv fn (len rs) env) loop_start)
    as [[lt lst] lc] eqn:Hloop.
  rewrite (app_run_loop _ _ _ _ _ _ _ _ _ _ _ H1 H2 H3 Hloop); cbn [fst].
  assert (Hlt : Forall not_complete lt).
  { change lt with (fst (fst (lt, lst, lc))). rewrite <- Hloop.
    apply for_enumerate_Forall. intros i r st. apply app_send_one_not_complete. }
  destruct lc as [[]|e| |].
  - replace (events _) with
      (events ([Yield (Log (str "Starting email campaign...") info);
                Yield (Log (str "Connecting to " ++ App.smtp_server self ++ str "...") info);
                Yield (Log (str "Authenticating...") info);
                Yield (Log (str "Authentication successful") success);
                Yield (Log (str "Sending to " ++ str_of_int (len rs)
                              ++ str " recipients...") info)] ++ lt)
       ++ [completed (sent lst) (failed lst); Complete (sent lst) (failed lst)]).
    + apply completes_last_intro; [|right; eauto].
      apply Forall_app. split; [repeat constructor | assumption].
    + rewrite !events_app. cbn -[str str_of_int].
      rewrite ?events_app. reflexivity.
  - rewrite <- (app_nil_r (events _)); apply completes_last_intro; auto.
    repeat (apply Forall_app; split); auto; repeat constructor.
  - rewrite <- (app_nil_r (events _)); apply completes_last_intro; auto.
    repeat (apply Forall_app; split); auto; repeat constructor.
  - rewrite <- (app_nil_r (events _)); apply completes_last_intro; auto.
    repeat (apply Forall_app; split); auto; repeat constructor.
Qed.

Lemma backend_events_shape se sn pw subj body rs cv fn env :
  completes_last
    (events (trace_of (Backend.send_emails_generator se sn pw subj body rs cv fn env))).
Proof.
  unfold trace_of.
  destruct (connect_error env) as [e|] eqn:H1;
    [rewrite (backend_run_connect_fails _ _ _ _ _ _ _ _ _ H1); cbn [fst];
     rewrite <- (app_nil_r (events _)); apply completes_last_intro; auto;
     apply Forall_app; split;
       [repeat constructor | apply backend_error_logs_not_complete]|].
  destruct (starttls_error env) as [e|] eqn:H2;
    [rewrite (backend_run_starttls_fails _ _ _ _ _ _ _ _ _ H1 H2); cbn [fst];
     rewrite <- (app_nil_r (events _)); apply completes_last_intro; auto;
     apply Forall_app; split;
       [repeat constructor
       |constructor; [exact I | apply backend_error_logs_not_complete]]|].
  destruct (login_error env) as [e|] eqn:H3;
    [rewrite (backend_run_login_fails _ _ _ _ _ _ _ _ _ H1 H2 H3); cbn [fst];
     rewrite <- (app_nil_r (events _)); apply completes_last_intro; auto;
     apply Forall_app; split;
       [repeat constructor
       |constructor; [exact I | apply backend_error_logs_not_complete]]|].
  destruct (for_enumerate rs 1
              (Backend.send_one se sn subj body cv fn (len rs) env) loop_start)
    as [[lt lst] lc] eqn:Hloop.
  rewrite (backend_run_loop _ _ _ _ _ _ _ _ _ H1 H2 H3 Hloop); cbn [fst].
  assert (Hlt : Forall not_complete lt).
  { change lt with (fst (fst (lt, lst, lc))). rewrite <- Hloop.
    apply for_enumerate_Forall. intros i r st. apply backend_send_one_not_complete. }
  destruct lc as [[]|e| |]; [destruct (quit_error env) as [e|] eqn:Hq| | |];
    cbn [backend_epilogue].
  2: { replace (events _) with
      (events ([Yield (Log (str "Starting email campaign...") info);
                Yield (Log (str "Connecting to SMTP server (" ++ Backend.smtp_server
                              ++ str ")...") info);
                Yield (Log (str "Authenticating...") info);
                Yield (Log (str "Successfully authenticated") success);
                Yield (Log (str "Starting to send emails to " ++ str_of_int (len rs)
                              ++ str " recipients") info)] ++ lt)
       ++ [completed (sent lst) (failed lst); Complete (sent lst) (failed lst)]).
    - apply completes_last_intro; [|right; eauto].
      apply Forall_app. split; [repeat constructor | assumption].
    - rewrite !events_app. cbn -[str str_of_int].
      rewrite ?events_app. reflexivity. }
  all: rewrite <- (app_nil_r (events _)); apply completes_last_intro; auto;
    repeat (apply Forall_app; split); auto;
    try apply backend_error_logs_not_complete;
    repeat first [apply backend_error_logs_not_complete | constructor].
Qed.

(* ================================================================== *)
(** * The claims *)
(* ================================================================== *)

(** C8.  In every run of either generator, a [Complete] event, if one is
    emitted, is the last event of the sequence (so no [Progress] event and
    no other event follows it), and the event just before it is the
    completion success log ["Campaign completed! Sent: s, Failed: f"]. *)
Theorem complete_event_is_last :
  forall secure_filename self sender_email sender_name password subject body
         recipients cv_data cv_filename env evs pre s f post,
    evs = events (trace_of (App.send_emails_batch secure_filename self
                    sender_email sender_name password subject body recipients
                    cv_data cv_filename env)) \/
    evs = events (trace_of (Backend.send_emails_generator
                    sender_email sender_name password subject body recipients
                    cv_data cv_filename env)) ->
    evs = pre ++ Complete s f :: post ->
    post = [] /\
    exists pre',
      pre = pre' ++ [Log (str "Campaign completed! Sent: " ++ str_of_int s
                            ++ str ", Failed: " ++ str_of_int f) success].
Proof.
  intros sf self se sn pw subj body rs cv fn env evs pre s f post Hevs E.
  assert (H : completes_last evs).
  { destruct Hevs as [-> | ->];
      [apply app_events_shape | apply backend_events_shape]. }
  destruct H as (l & Hl & [-> | (s0 & f0 & ->)]).
  - exfalso. exact (@no_complete_inside l pre s f post Hl E).
  - apply complete_at_end in E as (-> & -> & -> & ->); auto.
    split; [reflexivity | now exists l].
Qed.

(* ------------------------------------------------------------------ *)
(** ** Counters *)

Lemma state_after_count body :
  (forall i r st,
     (sent (snd (fst (body i r st))) + failed (snd (fst (body i r st)))
      = sent st + failed st + 1)%Z) ->
  forall rs n i st,
    (n <= length (iterations rs i body st))%nat ->
    (sent (state_after n rs i body st) + failed (state_after n rs i body st)
     = sent st + failed st + Z.of_nat n)%Z.
Proof.
  intros Hbody. induction rs as [|r rs IH]; intros n i st Hn.
  - simpl in Hn. assert (n = 0%nat) by lia. subst n. simpl. lia.
  - destruct n as [|n]; [simpl; lia|].
    specialize (Hbody i r st). simpl in Hn |- *.
    destruct (body i r st) as [[t st1] c]. simpl in Hbody.
    destruct c; simpl in Hn;
      try (assert (n = 0%nat) by lia; subst n; lia);
      rewrite IH by lia; lia.
Qed.

Lemma state_after_ge body :
  (forall i r st,
     (sent st <= sent (snd (fst (body i r st))))%Z /\
     (failed st <= failed (snd (fst (body i r st))))%Z) ->
  forall rs n i st,
    (sent st <= sent (state_after n rs i body st))%Z /\
    (failed st <= failed (state_after n rs i body st))%Z.
Proof.
  intros Hbody. induction rs as [|r rs IH]; intros n i st.
  - destruct n; simpl; lia.
  - destruct n as [|n]; [simpl; lia|]. simpl.
    specialize (Hbody i r st). destruct (body i r st) as [[t st1] c].
    simpl in Hbody. destruct c; try lia;
      specialize (IH n (i + 1)%Z st1); lia.
Qed.

Lemma state_after_mono body :
  (forall i r st,
     (sent st <= sent (snd (fst (body i r st))))%Z /\
     (failed st <= failed (snd (fst (body i r st))))%Z) ->
  forall rs n m i st, (n <= m)%nat ->
    (sent (state_after n rs i body st) <= sent (state_after m rs i body st))%Z /\
    (failed (state_after n rs i body st) <= failed (state_after m rs i body st))%Z.
Proof.
  intros Hbody. induction rs as [|r rs IH]; intros n m i st Hnm.
  - destruct n, m; simpl; lia.
  - destruct n as [|n].
    + apply state_after_ge. exact Hbody.
    + destruct m as [|m]; [lia|]. simpl.
      destruct (body i r st) as [[t st1] c].
      destruct c; try lia; apply IH; lia.
Qed.

Lemma app_send_one_counts sf se sn subj body cv fn total env i r st :
  counts_once (App.validate_email r)
    (App.create_message sf se sn r subj body cv fn (encode_error env i))
    (sendmail_error env i) st
    (snd (fst (App.send_one sf se sn subj body cv fn total env i r st))).
Proof.
  rewrite app_send_one_eq. unfold counts_once.
  destruct (App.validate_email r); cbn [negb]; [|simpl; auto].
  destruct (App.create_message _ _ _ _ _ _ _ _ _) as [e|msg];
    [|destruct (sendmail_error env i) as [e|]];
    destruct (progress_percent i total) as [e'|p]; simpl; auto.
Qed.

Lemma backend_send_one_counts se sn subj body cv fn total env i r st :
  counts_once (Backend.validate_email r)
    (Backend.create_message_with_attachment se sn r subj body cv fn (encode_error env i))
    (sendmail_error env i) st
    (snd (fst (Backend.send_one se sn subj body cv fn total env i r st))).
Proof.
  rewrite backend_send_one_eq. unfold counts_once.
  destruct (Backend.validate_email r); cbn [negb].
  - destruct (Backend.create_message_with_attachment _ _ _ _ _ _ _ _) as [e|msg];
      [|destruct (sendmail_error env i) as [e|]];
      destruct (progress_percent i total) as [e'|p]; simpl; auto.
  - destruct (progress_percent i total) as [e'|p]; simpl; auto.
Qed.

Lemma counts_once_step valid built submitted st st' :
  counts_once valid built submitted st st' ->
  (sent st' + failed st' = sent st + failed st + 1)%Z /\
  (sent st <= sent st')%Z /\ (failed st <= failed st')%Z.
Proof.
  unfold counts_once. destruct valid, built, submitted; lia.
Qed.

(** C10.  In each iteration of the loop over the recipients, of either
    generator, exactly one of the two counters grows, and by exactly 1:
    [sent] when the address is valid, the message is built and the relay
    accepts it; [failed] for an invalid address, a build failure or a submit
    failure.  Hence after the [n]-th recipient has been processed
    [sent + failed = n], and neither counter ever decreases. *)
Theorem counters_count_each_recipient_once :
  forall secure_filename sender_email sender_name subject body cv_data
         cv_filename env recipients one,
    one = App.send_one secure_filename sender_email sender_name subject body
            cv_data cv_filename (len recipients) env \/
    one = Backend.send_one sender_email sender_name subject body
            cv_data cv_filename (len recipients) env ->
    (forall i r st,
       counts_once (App.validate_email r)
         (App.create_message secure_filename sender_email sender_name r subject
            body cv_data cv_filename (encode_error env i))
         (sendmail_error env i) st
         (snd (fst (App.send_one secure_filename sender_email sender_name
                      subject body cv_data cv_filename (len recipients) env
                      i r st)))) /\
    (forall i r st,
       counts_once (Backend.validate_email r)
         (Backend.create_message_with_attachment sender_email sender_name r
            subject body cv_data cv_filename (encode_error env i))
         (sendmail_error env i) st
         (snd (fst (Backend.send_one sender_email sender_name
                      subject body cv_data cv_filename (len recipients) env
                      i r st)))) /\
    (forall n,
       (n <= length (iterations recipients 1 one loop_start))%nat ->
       (sent (state_after n recipients 1 one loop_start)
        + failed (state_after n recipients 1 one loop_start) = Z.of_nat n)%Z) /\
    (forall n m, (n <= m)%nat ->
       (sent (state_after n recipients 1 one loop_start)
          <= sent (state_after m recipients 1 one loop_start))%Z /\
       (failed (state_after n recipients 1 one loop_start)
          <= failed (state_after m recipients 1 one loop_start))%Z).
Proof.
  intros sf se sn subj body cv fn env rs one Hone.
  assert (Hstep : forall i r st,
            (sent (snd (fst (one i r st))) + failed (snd (fst (one i r st)))
             = sent st + failed st + 1)%Z /\
            (sent st <= sent (snd (fst (one i r st))))%Z /\
            (failed st <= failed (snd (fst (one i r st))))%Z).
  { intros i r st. destruct Hone as [-> | ->].
    - eapply counts_once_step, app_send_one_counts.
    - eapply counts_once_step, backend_send_one_counts. }
  split; [intros; apply app_send_one_counts|].
  split; [intros; apply backend_send_one_counts|].
  split.
  - intros n Hn.
    rewrite state_after_count; [reflexivity | intros; apply Hstep | exact Hn].
  - intros n m Hnm.
    apply state_after_mono; [intros; apply Hstep | exact Hnm].
Qed.

(* ------------------------------------------------------------------ *)
(** ** Pacing *)

Lemma nth_error_iterations body : forall rs k i st seg,
  nth_error (iterations rs i body st) k = Some seg ->
  exists r st', nth_error rs k = Some r /\
    seg = fst (fst (body (i + Z.of_nat k)%Z r st')).
Proof.
  induction rs as [|r rs IH]; intros k i st seg H; simpl in H.
  - destruct k; discriminate.
  - destruct (body i r st) as [[t st1] c] eqn:Hb.
    destruct k as [|k].
    + exists r, st. rewrite Z.add_0_r, Hb.
      destruct c; simpl in H; injection H as <-; auto.
    + assert (Hk : nth_error (iterations rs (i + 1) body st1) k = Some seg).
      { destruct c; simpl in H; try assumption; destruct k; discriminate. }
      apply IH in Hk as (r' & st' & Hr & ->).
      exists r', st'. split; [assumption|].
      replace (i + Z.of_nat (S k))%Z with (i + 1 + Z.of_nat k)%Z by lia.
      reflexivity.
Qed.

Lemma app_send_one_paced sf se sn subj body cv fn total env i r st :
  paced (if (i <? total)%Z then [Sleep (PyInt Config.EMAIL_DELAY)] else [])
    (fst (fst (App.send_one sf se sn subj body cv fn total env i r st))).
Proof.
  rewrite app_send_one_eq. unfold paced.
  destruct (App.validate_email r); cbn [negb];
    [|eexists; split; [|left; reflexivity]; repeat constructor].
  destruct (App.create_message _ _ _ _ _ _ _ _ _) as [e|msg];
    [|destruct (sendmail_error env i) as [e|]];
    destruct (progress_percent i total) as [e'|p]; cbn [fst];
    eexists; (split; [|first [right; do 5 eexists; reflexivity | left; reflexivity]]);
    repeat constructor.
Qed.

Lemma backend_send_one_paced se sn subj body cv fn total env i r st :
  paced [Sleep (PyFloat half)]
    (fst (fst (Backend.send_one se sn subj body cv fn total env i r st))).
Proof.
  rewrite backend_send_one_eq. unfold paced.
  destruct (Backend.validate_email r); cbn [negb];
    [destruct (Backend.create_message_with_attachment _ _ _ _ _ _ _ _) as [e|msg];
      [|destruct (sendmail_error env i) as [e|]]|];
    destruct (progress_percent i total) as [e'|p]; cbn [fst];
    eexists; (split; [|first [right; do 5 eexists; reflexivity | left; reflexivity]]);
    repeat constructor.
Qed.

Lemma backend_error_logs_quiet e : Forall quiet (map Yield (backend_error_logs e)).
Proof.
  unfold backend_error_logs.
  destruct (is_auth_error e);
    [destruct (contains signature (exn_str e))|destruct (is_smtp_exception e)];
    repeat constructor.
Qed.

(** Outside the iterations of the loop, a run of [send_emails_batch]
    neither sleeps nor reports progress. *)
Lemma app_trace_iterations sf self se sn pw subj body rs cv fn env :
  exists pre post, Forall quiet pre /\ Forall quiet post /\
    let t := trace_of (App.send_emails_batch sf self se sn pw subj body rs cv fn env) in
    t = pre ++ post \/
    t = pre ++ concat (iterations rs 1
                         (App.send_one sf se sn subj body cv fn (len rs) env)
                         loop_start) ++ post.
Proof.
  unfold trace_of.
  destruct (connect_error env) as [e|] eqn:H1;
    [rewrite (app_run_connect_fails _ _ _ _ _ _ _ _ _ _ _ H1); cbn [fst];
     eexists; exists []; repeat split;
       [| constructor | left; symmetry; apply app_nil_r]; repeat constructor|].
  destruct (starttls_error env) as [e|] eqn:H2;
    [rewrite (app_run_starttls_fails _ _ _ _ _ _ _ _ _ _ _ H1 H2); cbn [fst];
     eexists; exists []; repeat split;
       [| constructor | left; symmetry; apply app_nil_r]; repeat constructor|].
  destruct (login_error env) as [e|] eqn:H3;
    [rewrite (app_run_login_fails _ _ _ _ _ _ _ _ _ _ _ H1 H2 H3); cbn [fst];
     eexists; exists []; repeat split;
       [| constructor | left; symmetry; apply app_nil_r]; repeat constructor|].
  destruct (for_enumerate rs 1
              (App.send_one sf se sn subj body cv fn (len rs) env) loop_start)
    as [[lt lst] lc] eqn:Hloop.
  rewrite (app_run_loop _ _ _ _ _ _ _ _ _ _ _ H1 H2 H3 Hloop); cbn [fst].
  rewrite <- for_enumerate_trace, Hloop. cbn [fst].
  exists [Yield (Log (str "Starting email campaign...") info);
          Yield (Log (str "Connecting to " ++ App.smtp_server self ++ str "...") info);
          Smtp (Op_SMTP (App.smtp_server self) (App.smtp_port self) (Some 30%Z));
          Smtp Op_starttls;
          Yield (Log (str "Authenticating...") info);
          Smtp (Op_login se pw);
          Yield (Log (str "Authentication successful") success);
          Yield (Log (str "Sending to " ++ str_of_int (len rs)
                        ++ str " recipients...") info)].
  exists (app_epilogue lst lc). repeat split; [| | right; reflexivity].
  - repeat constructor.
  - destruct lc; repeat constructor.
Qed.

Lemma backend_trace_iterations se sn pw subj body rs cv fn env :
  exists pre post, Forall quiet pre /\ Forall quiet post /\
    let t := trace_of (Backend.send_emails_generator se sn pw subj body rs cv fn env) in
    t = pre ++ post \/
    t = pre ++ concat (iterations rs 1
                         (Backend.send_one se sn subj body cv fn (len rs) env)
                         loop_start) ++ post.
Proof.
  unfold trace_of.
  destruct (connect_error env) as [e|] eqn:H1;
    [rewrite (backend_run_connect_fails _ _ _ _ _ _ _ _ _ H1); cbn [fst];
     eexists; exists (map Yield (backend_error_logs e)); repeat split;
       [| apply backend_error_logs_quiet | left; reflexivity]; repeat constructor|].
  destruct (starttls_error env) as [e|] eqn:H2;
    [rewrite (backend_run_starttls_fails _ _ _ _ _ _ _ _ _ H1 H2); cbn [fst];
     eexists; exists (Smtp Op_starttls :: map Yield (backend_error_logs e));
     repeat split;
       [| constructor; [exact I | apply backend_error_logs_quiet]
        | left; reflexivity]; repeat constructor|].
  destruct (login_error env) as [e|] eqn:H3;
    [rewrite (backend_run_login_fails _ _ _ _ _ _ _ _ _ H1 H2 H3); cbn [fst];
     eexists; exists (Yield (Log (str "Authentication failed: " ++ exn_str e) error)
                        :: map Yield (backend_error_logs e));
     repeat split;
       [| constructor; [exact I | apply backend_error_logs_quiet]
        | left; reflexivity]; repeat constructor|].
  destruct (for_enumerate rs 1
              (Backend.send_one se sn subj body cv fn (len rs) env) loop_start)
    as [[lt lst] lc] eqn:Hloop.
  rewrite (backend_run_loop _ _ _ _ _ _ _ _ _ H1 H2 H3 Hloop); cbn [fst].
  rewrite <- for_enumerate_trace, Hloop. cbn [fst].
  exists [Yield (Log (str "Starting email campaign...") info);
          Yield (Log (str "Connecting to SMTP server (" ++ Backend.smtp_server
                        ++ str ")...") info);
          Smtp (Op_SMTP Backend.smtp_server Backend.smtp_port None);
          Smtp Op_starttls;
          Yield (Log (str "Authenticating...") info);
          Smtp (Op_login se pw);
          Yield (Log (str "Successfully authenticated") success);
          Yield (Log (str "Starting to send emails to " ++ str_of_int (len rs)
                        ++ str " recipients") info)].
  exists (backend_epilogue (quit_error env) lst lc). repeat split;
    [| | right; reflexivity].
  - repeat constructor.
  - destruct lc; [destruct (quit_error env)| | |]; cbn [backend_epilogue];
      repeat first [apply backend_error_logs_quiet | constructor].
Qed.

(** C6 (as amended).  In [send_emails_batch] (src/app.py) the iteration for
    recipient [i] reports progress at most once and then, when [i < total],
    sleeps [Config.EMAIL_DELAY] = 1 second and does nothing else; for
    [i = total] nothing follows the [Progress] event: there is no pause
    after the final recipient.  In [send_emails_generator]
    (src/backend/app.py) every [Progress] event, the final recipient's
    too, is followed by a pause of 0.5 seconds.  Outside these iterations
    neither generator sleeps. *)
Theorem pacing_between_recipients :
  forall secure_filename self sender_email sender_name password subject body
         recipients cv_data cv_filename env,
    let total := len recipients in
    let app_segments :=
      iterations recipients 1
        (App.send_one secure_filename sender_email sender_name subject body
           cv_data cv_filename total env) loop_start in
    let backend_segments :=
      iterations recipients 1
        (Backend.send_one sender_email sender_name subject body
           cv_data cv_filename total env) loop_start in
    (forall k seg, nth_error app_segments k = Some seg ->
       paced (if (Z.of_nat k + 1 <? total)%Z
              then [Sleep (PyInt Config.EMAIL_DELAY)] else []) seg) /\
    (forall k seg, nth_error backend_segments k = Some seg ->
       paced [Sleep (PyFloat half)] seg) /\
    (exists pre post, Forall quiet pre /\ Forall quiet post /\
       let t := trace_of (App.send_emails_batch secure_filename self
                  sender_email sender_name password subject body recipients
                  cv_data cv_filename env) in
       t = pre ++ post \/ t = pre ++ concat app_segments ++ post) /\
    (exists pre post, Forall quiet pre /\ Forall quiet post /\
       let t := trace_of (Backend.send_emails_generator
                  sender_email sender_name password subject body recipients
                  cv_data cv_filename env) in
       t = pre ++ post \/ t = pre ++ concat backend_segments ++ post).
Proof.
  intros sf self se sn pw subj body rs cv fn env total app_segments backend_segments.
  split; [|split; [|split]].
  - intros k seg H. apply nth_error_iterations in H as (r & st' & _ & ->).
    replace (Z.of_nat k + 1)%Z with (1 + Z.of_nat k)%Z by lia.
    apply app_send_one_paced.
  - intros k seg H. apply nth_error_iterations in H as (r & st' & _ & ->).
    apply backend_send_one_paced.
  - apply app_trace_iterations.
  - apply backend_trace_iterations.
Qed.

(* ------------------------------------------------------------------ *)
(** ** Closing the session *)

Lemma app_send_one_no_quit sf se sn subj body cv fn total env i r st :
  Forall (fun a => is_quit a = false)
    (fst (fst (App.send_one sf se sn subj body cv fn total env i r st))).
Proof.
  rewrite app_send_one_eq.
  destruct (App.validate_email r); cbn [negb]; [|repeat constructor].
  destruct (App.create_message _ _ _ _ _ _ _ _ _) as [e|msg];
    [|destruct (sendmail_error env i) as [e|]];
    destruct (progress_percent i total) as [e'|p];
    try destruct (i <? total)%Z; repeat constructor.
Qed.

Lemma app_send_one_not_returned sf se sn subj body cv fn total env i r st :
  snd (App.send_one sf se sn subj body cv fn total env i r st) <> Returned.
Proof.
  rewrite app_send_one_eq.
  destruct (App.validate_email r); cbn [negb]; [|discriminate].
  destruct (App.create_message _ _ _ _ _ _ _ _ _) as [e|msg];
    [|destruct (sendmail_error env i) as [e|]];
    destruct (progress_percent i total) as [e'|p]; discriminate.
Qed.

Lemma app_epilogue_closes st c :
  exists t, app_epilogue st c = t ++ [Smtp Op_quit] /\
    Forall (fun a => is_quit a = false) t.
Proof.
  destruct c.
  - eexists [_; _]. split; [reflexivity | repeat constructor].
  - eexists [_]. split; [reflexivity | repeat constructor].
  - exists []. split; [reflexivity | constructor].
  - exists []. split; [reflexivity | constructor].
Qed.

Section AppSession.

Variable secure_filename : pystr -> pystr.
Variable self : App.EmailSender.
Variables sender_email sender_name password subject body : pystr.
Variable recipients : list pystr.
Variable cv_data : list Byte.byte.
Variable cv_filename : pystr.

Let g := App.send_emails_batch secure_filename self sender_email sender_name
           password subject body recipients cv_data cv_filename.

(** The outcome of the loop of [send_emails_batch]. *)
Lemma app_loop_result env :
  exists lt lst lc,
    for_enumerate recipients 1
      (App.send_one secure_filename sender_email sender_name subject body
         cv_data cv_filename (len recipients) env) loop_start = (lt, lst, lc) /\
    Forall (fun a => is_quit a = false) lt /\
    (lc = Normal tt \/ exists e, lc = Raised e).
Proof.
  destruct (for_enumerate recipients 1 _ loop_start) as [[lt lst] lc] eqn:Hloop.
  exists lt, lst, lc. split; [reflexivity|]. split.
  - change lt with (fst (fst (lt, lst, lc))). rewrite <- Hloop.
    apply for_enumerate_Forall. intros. apply app_send_one_no_quit.
  - change lc with (snd (lt, lst, lc)). rewrite <- Hloop.
    apply for_enumerate_ctl. intros. apply app_send_one_not_returned.
Qed.

Lemma app_no_exception_escapes env :
  outcome_of (g env) = Normal tt \/ outcome_of (g env) = Returned.
Proof.
  unfold outcome_of, g.
  destruct (connect_error env) as [e|] eqn:H1;
    [rewrite (app_run_connect_fails _ _ _ _ _ _ _ _ _ _ _ H1); now left|].
  destruct (starttls_error env) as [e|] eqn:H2;
    [rewrite (app_run_starttls_fails _ _ _ _ _ _ _ _ _ _ _ H1 H2); now left|].
  destruct (login_error env) as [e|] eqn:H3;
    [rewrite (app_run_login_fails _ _ _ _ _ _ _ _ _ _ _ H1 H2 H3);
     cbn [snd]; destruct (is_auth_error e); auto|].
  destruct (app_loop_result env) as (lt & lst & lc & Hloop & _ & Hlc).
  rewrite (app_run_loop _ _ _ _ _ _ _ _ _ _ _ H1 H2 H3 Hloop). cbn [snd].
  destruct Hlc as [-> | (e & ->)]; now left.
Qed.

Lemma app_closes_last env :
  connect_error env = None ->
  exists t, trace_of (g env) = t ++ [Smtp Op_quit] /\
    Forall (fun a => is_quit a = false) t.
Proof.
  intros H1. unfold trace_of, g.
  destruct (starttls_error env) as [e|] eqn:H2;
    [rewrite (app_run_starttls_fails _ _ _ _ _ _ _ _ _ _ _ H1 H2); cbn [fst];
     eexists [_; _; _; _; _]; split; [reflexivity | repeat constructor]|].
  destruct (login_error env) as [e|] eqn:H3;
    [rewrite (app_run_login_fails _ _ _ _ _ _ _ _ _ _ _ H1 H2 H3); cbn [fst];
     eexists [_; _; _; _; _; _; _]; split; [reflexivity | repeat constructor]|].
  destruct (app_loop_result env) as (lt & lst & lc & Hloop & Hlt & _).
  rewrite (app_run_loop _ _ _ _ _ _ _ _ _ _ _ H1 H2 H3 Hloop). cbn [fst].
  destruct (app_epilogue_closes lst lc) as (t & -> & Ht).
  eexists (_ :: _ :: _ :: _ :: _ :: _ :: _ :: _ :: lt ++ t). split.
  - cbn -[str str_of_int]. rewrite <- app_assoc. reflexivity.
  - repeat (constructor; [reflexivity|]). apply Forall_app. now split.
Qed.

Lemma app_never_opened env :
  connect_error env <> None ->
  Forall (fun a => is_quit a = false) (trace_of (g env)).
Proof.
  intros H. unfold trace_of, g.
  destruct (connect_error env) as [e|] eqn:H1; [|congruence].
  rewrite (app_run_connect_fails _ _ _ _ _ _ _ _ _ _ _ H1). repeat constructor.
Qed.

(** Whatever [quit] does, the run is the same. *)
Lemma app_quit_error_swallowed env q :
  run (g (with_quit_error q env)) = run (g env).
Proof.
  unfold g.
  destruct (connect_error env) as [e|] eqn:H1.
  { rewrite (app_run_connect_fails _ _ _ _ _ _ _ _ _ _ _ H1).
    now apply app_run_connect_fails. }
  destruct (starttls_error env) as [e|] eqn:H2.
  { rewrite (app_run_starttls_fails _ _ _ _ _ _ _ _ _ _ _ H1 H2).
    now apply app_run_starttls_fails. }
  destruct (login_error env) as [e|] eqn:H3.
  { rewrite (app_run_login_fails _ _ _ _ _ _ _ _ _ _ _ H1 H2 H3).
    now apply app_run_login_fails. }
  destruct (app_loop_result env) as (lt & lst & lc & Hloop & _ & _).
  rewrite (app_run_loop _ _ _ _ _ _ _ _ _ _ _ H1 H2 H3 Hloop).
  now apply app_run_loop.
Qed.

End AppSession.

Lemma backend_unclosed se sn pw subj body rs cv fn env :
  connect_error env = None ->
  starttls_error env <> None \/ login_error env <> None ->
  Forall (fun a => is_quit a = false)
    (trace_of (Backend.send_emails_generator se sn pw subj body rs cv fn env)).
Proof.
  intros H1 H. unfold trace_of.
  assert (Hlogs : forall e, Forall (fun a => is_quit a = false)
                              (map Yield (backend_error_logs e))).
  { intros e. unfold backend_error_logs.
    destruct (is_auth_error e);
      [destruct (contains signature (exn_str e))|destruct (is_smtp_exception e)];
      repeat constructor. }
  destruct (starttls_error env) as [e|] eqn:H2.
  - rewrite (backend_run_starttls_fails _ _ _ _ _ _ _ _ _ H1 H2). cbn [fst].
    repeat (constructor; [reflexivity|]). apply Hlogs.
  - destruct (login_error env) as [e|] eqn:H3; [|destruct H; congruence].
    rewrite (backend_run_login_fails _ _ _ _ _ _ _ _ _ H1 H2 H3). cbn [fst].
    repeat (constructor; [reflexivity|]). apply Hlogs.
Qed.

(** C4 (as amended).  In [send_emails_batch] (src/app.py), on every exit
    path of a run whose connection was opened (normal completion,
    authentication failure, TLS failure, error in the loop), [server.quit()]
    is the last action of the run, after the last event, and is called
    once; an error raised by [quit] is swallowed: the whole run, its events
    and its outcome, is the same whatever [quit] does, and no exception
    leaves the generator.  When the connection could not be opened there is
    no session and [quit] is not called.  In [send_emails_generator]
    (src/backend/app.py) the session is closed only on the path that runs
    the recipient loop to its end: when [starttls] or [login] fails, the
    run ends without a call of [quit]. *)
Theorem session_closed_on_every_exit :
  forall secure_filename self sender_email sender_name password subject body
         recipients cv_data cv_filename env,
    let app := App.send_emails_batch secure_filename self sender_email
                 sender_name password subject body recipients cv_data
                 cv_filename in
    let backend := Backend.send_emails_generator sender_email sender_name
                     password subject body recipients cv_data cv_filename in
    (connect_error env = None ->
       exists t, trace_of (app env) = t ++ [Smtp Op_quit] /\
         Forall (fun a => is_quit a = false) t) /\
    (connect_error env <> None ->
       Forall (fun a => is_quit a = false) (trace_of (app env))) /\
    (forall q, run (app (with_quit_error q env)) = run (app env)) /\
    (outcome_of (app env) = Normal tt \/ outcome_of (app env) = Returned) /\
    (connect_error env = None ->
     starttls_error env <> None \/ login_error env <> None ->
       Forall (fun a => is_quit a = false) (trace_of (backend env))).
Proof.
  intros sf self se sn pw subj body rs cv fn env app backend.
  split; [apply app_closes_last|].
  split; [apply app_never_opened|].
  split; [intros q; apply app_quit_error_swallowed|].
  split; [apply app_no_exception_escapes|].
  apply backend_unclosed.
Qed.

(* ------------------------------------------------------------------ *)
(** ** Authentication failure *)

(** C5 (as amended).  When [login] raises [SMTPAuthenticationError],
    [send_emails_batch] (src/app.py) emits exactly one error log, which is
    the App-Password hint when the relay's message contains "Username and
    Password not accepted" and "Authentication failed: <message>"
    otherwise; it emits no [Progress] and no [Complete] event, calls
    [quit] last and returns.  [send_emails_generator]
    (src/backend/app.py) emits "Authentication failed: <message>" and then
    the two hint lines when the message contains the signature (three error
    logs), or "Authentication failed: <message>" a second time otherwise
    (two error logs); it emits no [Progress] and no [Complete] event either,
    and ends without closing the session. *)
Theorem authentication_failure_run :
  forall secure_filename self sender_email sender_name password subject body
         recipients cv_data cv_filename env e,
    connect_error env = None -> starttls_error env = None ->
    login_error env = Some e -> is_auth_error e = true ->
    let app := App.send_emails_batch secure_filename self sender_email
                 sender_name password subject body recipients cv_data
                 cv_filename env in
    let backend := Backend.send_emails_generator sender_email sender_name
                     password subject body recipients cv_data cv_filename env in
    let evs_app := events (trace_of app) in
    let evs_backend := events (trace_of backend) in
    evs_app =
      [Log (str "Starting email campaign...") info;
       Log (str "Connecting to " ++ App.smtp_server self ++ str "...") info;
       Log (str "Authenticating...") info;
       Log (if contains signature (exn_str e)
            then str "Authentication failed! For Gmail, use an App Password, not your regular password. "
                 ++ str "Generate one at: https://myaccount.google.com/apppasswords"
            else str "Authentication failed: " ++ exn_str e) error] /\
    length (filter is_error_log evs_app) = 1%nat /\
    filter is_progress evs_app = [] /\ filter is_complete evs_app = [] /\
    (exists t, trace_of app = t ++ [Smtp Op_quit]) /\
    outcome_of app = Returned /\
    evs_backend =
      [Log (str "Starting email campaign...") info;
       Log (str "Connecting to SMTP server (" ++ Backend.smtp_server ++ str ")...") info;
       Log (str "Authenticating...") info;
       Log (str "Authentication failed: " ++ exn_str e) error]
      ++ (if contains signature (exn_str e)
          then [Log (str "Authentication failed! For Gmail, you need to use an App Password, not your regular password.") error;
                Log (str "Please go to https://myaccount.google.com/apppasswords to generate one.") error]
          else [Log (str "Authentication failed: " ++ exn_str e) error]) /\
    length (filter is_error_log evs_backend)
      = (if contains signature (exn_str e) then 3 else 2)%nat /\
    filter is_progress evs_backend = [] /\ filter is_complete evs_backend = [] /\
    Forall (fun a => is_quit a = false) (trace_of backend) /\
    outcome_of backend = Normal tt.
Proof.
  intros sf self se sn pw subj body rs cv fn env e H1 H2 H3 He
    app backend evs_app evs_backend.
  assert (Ha : run app =
    ([Yield (Log (str "Starting email campaign...") info);
      Yield (Log (str "Connecting to " ++ App.smtp_server self ++ str "...") info);
      Smtp (Op_SMTP (App.smtp_server self) (App.smtp_port self) (Some 30%Z));
      Smtp Op_starttls;
      Yield (Log (str "Authenticating...") info);
      Smtp (Op_login se pw);
      Yield (Log (app_login_failure e) error)] ++ [Smtp Op_quit],
     loop_start, Returned)).
  { unfold app. rewrite (app_run_login_fails _ _ _ _ _ _ _ _ _ _ _ H1 H2 H3).
    rewrite He. reflexivity. }
  assert (Hb : run backend =
    ([Yield (Log (str "Starting email campaign...") info);
      Yield (Log (str "Connecting to SMTP server (" ++ Backend.smtp_server
                    ++ str ")...") info);
      Smtp (Op_SMTP Backend.smtp_server Backend.smtp_port None);
      Smtp Op_starttls;
      Yield (Log (str "Authenticating...") info);
      Smtp (Op_login se pw);
      Yield (Log (str "Authentication failed: " ++ exn_str e) error)]
     ++ map Yield (backend_error_logs e),
     loop_start, Normal tt)).
  { unfold backend. rewrite (backend_run_login_fails _ _ _ _ _ _ _ _ _ H1 H2 H3).
    reflexivity. }
  unfold evs_app, evs_backend, trace_of, outcome_of. rewrite Ha, Hb.
  cbn [fst snd]. unfold app_login_failure, backend_error_logs. rewrite He.
  destruct (contains signature (exn_str e)); cbn -[str];
    repeat split; try reflexivity;
    try (eexists [_; _; _; _; _; _; _]; reflexivity);
    repeat constructor.
Qed.

(* ------------------------------------------------------------------ *)
(** ** The message builder *)

Lemma slice_to_firstn {A} (n : nat) (s : list A) :
  slice_to (Z.of_nat n) s = firstn n s.
Proof.
  unfold slice_to. destruct (Z.of_nat n <? 0)%Z eqn:H.
  - apply Z.ltb_lt in H. lia.
  - now rewrite Nat2Z.id.
Qed.

(** C7 (as amended).  [create_message] (src/app.py) assigns the first 200
    characters of the subject and attaches the first 5000 characters of the
    body as ['plain'] text; it never raises because of a length: the only
    exception it can raise is the one of the attachment.
    [create_message_with_attachment] (src/backend/app.py) assigns the
    subject and attaches the body, as ['plain'] text, without truncating
    either. *)
Theorem builder_truncates_subject_and_body :
  forall secure_filename sender_email sender_name recipient subject body
         cv_data cv_filename encode,
    match App.create_message secure_filename sender_email sender_name recipient
            subject body cv_data cv_filename encode with
    | inr m =>
        msg_Subject m = firstn 200 subject /\
        (length (msg_Subject m) <= 200)%nat /\
        exists rest,
          msg_parts m =
            TextPart {| text_payload := firstn 5000 body;
                        text_subtype := str "plain";
                        text_charset := str "utf-8" |} :: rest /\
          (length (firstn 5000 body) <= 5000)%nat
    | inl e => encode = Some e
    end /\
    match Backend.create_message_with_attachment sender_email sender_name
            recipient subject body cv_data cv_filename encode with
    | inr m =>
        msg_Subject m = subject /\
        exists rest,
          msg_parts m =
            TextPart {| text_payload := body;
                        text_subtype := str "plain";
                        text_charset := str "utf-8" |} :: rest
    | inl e => encode <> None
    end.
Proof.
  intros sf se sn r subj body cv fn encode.
  unfold App.create_message, Backend.create_message_with_attachment,
    Config.MAX_SUBJECT_LENGTH, Config.MAX_EMAIL_BODY_LENGTH.
  change 200%Z with (Z.of_nat 200). change 5000%Z with (Z.of_nat 5000).
  rewrite !slice_to_firstn.
  split.
  - destruct (truthy cv && truthy fn); [destruct encode as [e|]|];
      cbn [msg_Subject msg_parts]; try reflexivity;
      (split; [reflexivity|]); (split; [apply firstn_le_length|]);
      eexists; (split; [reflexivity | apply firstn_le_length]).
  - destruct encode as [e|]; cbn [msg_Subject msg_parts];
      [discriminate | split; [reflexivity | eexists; reflexivity]].
Qed.

(* ------------------------------------------------------------------ *)
(** ** The credential test *)


(* ------------------------------------------------------------------ *)
(** ** The address validator *)

(** C3 (as amended).  [EmailValidator.validate_email] (src/app.py) returns
    false for the empty string and for a string of more than 254
    characters, and otherwise returns true exactly when the string, with the
    white space at its two ends removed, has the shape [local-part@domain]
    (local part of one or more of [[A-Za-z0-9._%+-]], domain of one or more
    of [[A-Za-z0-9.-]], a dot, a final label of two or more letters); so
    ["a@b.com"] is accepted and [""], ["no-at-sign"], ["a@b"] and every
    255-character string are rejected.  [validate_email] of
    src/backend/app.py has no length bound and accepts exactly the strings
    with an [@] and a dot between the first [@] and the next. *)
Theorem validate_email_accepts_stripped_shape :
  (forall s, App.validate_email s = true <->
             s <> [] /\ (length s <= 254)%nat /\ address_shape (strip s)) /\
  (forall s, s = [] \/ (254 < length s)%nat -> App.validate_email s = false) /\
  App.validate_email (str "a@b.com") = true /\
  App.validate_email (str "") = false /\
  App.validate_email (str "no-at-sign") = false /\
  App.validate_email (str "a@b") = false /\
  (forall s, length s = 255%nat -> App.validate_email s = false) /\
  (forall s, Backend.validate_email s = true <-> at_then_dot s).
Proof.
  assert (Hlong : forall s, s = [] \/ (254 < length s)%nat ->
                            App.validate_email s = false).
  { intros s H. destruct (App.validate_email s) eqn:E; [|reflexivity].
    apply app_validate_email_iff in E as (Hne & Hlen & _).
    destruct H; [contradiction | lia]. }
  split; [exact app_validate_email_iff|].
  split; [exact Hlong|].
  repeat (split; [vm_compute; reflexivity|]).
  split; [|exact backend_validate_email_iff].
  intros s Hs. apply Hlong. right. lia.
Qed.

Lemma validate_email_accepts_stripped_shape_witness :
  App.validate_email (str " a@b.com ") = true.
Proof.
  apply (proj1 validate_email_accepts_stripped_shape (str " a@b.com ")).
  split; [discriminate|]. split; [simpl; lia|].
  exists (str "a"), (str "b"), (str "com").
  repeat split; try discriminate; try (simpl; lia); repeat constructor.
Defined.

(** C3, refuted as stated: a string with white space around an address is
    accepted by src/app.py although it does not have the shape, and
    src/backend/app.py accepts an address of 255 characters. *)
Lemma validate_email_accepts_padded_address :
  App.validate_email (str " a@b.com ") = true /\
  ~ address_shape (str " a@b.com ") /\
  length (repeat 97%N 250 ++ str "@b.co") = 255%nat /\
  Backend.validate_email (repeat 97%N 250 ++ str "@b.co") = true.
Proof.
  split; [vm_compute; reflexivity|].
  split; [|split; vm_compute; reflexivity].
  intros (l & d & t & E & Hl & Hlc & _).
  destruct l as [|c l]; [congruence|].
  simpl in E. injection E as <- _.
  inversion Hlc; subst. discriminate.
Qed.

(* ------------------------------------------------------------------ *)
(** ** Progress events of src/app.py *)


(** The percentage is computed in binary64: for some positions it is one
    below the integer quotient. *)
Lemma progress_percent_rounds_down :
  progress_percent 29 100 = inr 28%Z /\ (29 * 100 / 100 = 29)%Z /\
  progress_percent 29 50 = inr 57%Z /\ (29 * 100 / 50 = 58)%Z.
Proof. repeat split; vm_compute; reflexivity. Qed.


(* ------------------------------------------------------------------ *)
(** ** Instances and refutations *)

Lemma complete_event_is_last_witness :
  let evs := events (trace_of (app_sample [alice] relay_ok)) in
  @nil event = [] /\
  exists pre',
    firstn 8 evs = pre' ++ [Log (str "Campaign completed! Sent: " ++ str_of_int 1
                                   ++ str ", Failed: " ++ str_of_int 0) success].
Proof.
  intros evs.
  apply (@complete_event_is_last (fun name => name) App.email_sender
           sample_sender sample_name sample_password sample_subject sample_body
           [alice] sample_cv sample_filename relay_ok evs (firstn 8 evs) 1 0 []).
  - left. reflexivity.
  - vm_compute. reflexivity.
Defined.

Lemma counters_count_each_recipient_once_witness :
  let one := App.send_one (fun name => name) sample_sender sample_name
               sample_subject sample_body sample_cv sample_filename
               (len [alice; bad; carol]) relay_ok in
  (sent (state_after 3 [alice; bad; carol] 1 one loop_start)
   + failed (state_after 3 [alice; bad; carol] 1 one loop_start) = Z.of_nat 3)%Z.
Proof.
  intros one.
  destruct (@counters_count_each_recipient_once (fun name => name) sample_sender
              sample_name sample_subject sample_body sample_cv sample_filename
              relay_ok [alice; bad; carol] one (or_introl eq_refl))
    as (_ & _ & H & _).
  apply (H 3%nat). vm_compute. repeat constructor.
Defined.

Lemma pacing_between_recipients_witness :
  paced [Sleep (PyInt Config.EMAIL_DELAY)]
    [Smtp (Op_sendmail sample_sender alice
             {| msg_From := dquote ++ sample_name ++ dquote ++ str " <"
                              ++ sample_sender ++ str ">";
                msg_To := alice;
                msg_Subject := sample_subject;
                msg_parts :=
                  [TextPart {| text_payload := sample_body;
                               text_subtype := str "plain";
                               text_charset := str "utf-8" |};
                   BasePart {| base_maintype := str "application";
                               base_subtype := str "pdf";
                               base_payload := sample_cv;
                               base_transfer_encoding := str "base64";
                               base_content_disposition :=
                                 str "attachment; filename=" ++ dquote
                                   ++ sample_filename ++ dquote |}] |});
     Yield (Log ([10003%N] ++ str " Sent to: " ++ alice) success);
     Yield (Progress 50 2 1 0 1);
     Sleep (PyInt 1)].
Proof.
  apply (proj1 (@pacing_between_recipients (fun name => name) App.email_sender
                  sample_sender sample_name sample_password sample_subject
                  sample_body [alice; carol] sample_cv sample_filename relay_ok)
           0%nat).
  vm_compute. reflexivity.
Defined.

(** C6, refuted as stated: [send_emails_generator] (src/backend/app.py)
    sleeps, for 0.5 seconds, after the [Progress] event of the final (here
    the only) recipient. *)
Lemma backend_pauses_after_final_recipient :
  skipn 10 (trace_of (backend_sample [alice] relay_ok)) =
    [Yield (Progress 100 1 1 0 0);
     Sleep (PyFloat half);
     Smtp Op_quit;
     Yield (completed 1 0);
     Yield (Complete 1 0)].
Proof. vm_compute. reflexivity. Qed.

Lemma session_closed_on_every_exit_witness :
  exists t,
    trace_of (app_sample [alice] (relay_rejecting rejected)) = t ++ [Smtp Op_quit] /\
    Forall (fun a => is_quit a = false) t.
Proof.
  apply (proj1 (@session_closed_on_every_exit (fun name => name) App.email_sender
                  sample_sender sample_name sample_password sample_subject
                  sample_body [alice] sample_cv sample_filename
                  (relay_rejecting rejected))).
  reflexivity.
Defined.

(** C4, refuted as stated: when the relay rejects the credentials,
    [send_emails_generator] (src/backend/app.py) ends without calling
    [quit] on the session it opened. *)
Lemma backend_leaves_session_open :
  existsb is_quit (trace_of (backend_sample [alice] (relay_rejecting rejected))) = false /\
  nth_error (trace_of (backend_sample [alice] (relay_rejecting rejected))) 2
    = Some (Smtp (Op_SMTP Backend.smtp_server Backend.smtp_port None)).
Proof. split; vm_compute; reflexivity. Qed.

Lemma authentication_failure_run_witness :
  length (filter is_error_log
            (events (trace_of (app_sample [alice] (relay_rejecting rejected)))))
    = 1%nat /\
  length (filter is_error_log
            (events (trace_of (backend_sample [alice] (relay_rejecting rejected)))))
    = 3%nat.
Proof.
  pose proof (@authentication_failure_run (fun name => name) App.email_sender
                sample_sender sample_name sample_password sample_subject
                sample_body [alice] sample_cv sample_filename
                (relay_rejecting rejected)
                {| exn_cls := SMTPAuthenticationError; exn_str := rejected |}
                eq_refl eq_refl eq_refl eq_refl) as H.
  cbv zeta in H.
  destruct H as (_ & Ha & _ & _ & _ & _ & _ & Hb & _).
  split; [exact Ha | exact Hb].
Defined.

(** C5, refuted as stated: the relay's message contains the signature
    "Username and Password not accepted", and [send_emails_batch]
    (src/app.py) emits one error log, not two;
    [send_emails_generator] (src/backend/app.py) emits three. *)
Lemma app_reports_rejection_in_one_log :
  contains signature rejected = true /\
  filter is_error_log
    (events (trace_of (app_sample [alice] (relay_rejecting rejected))))
    = [Log (str "Authentication failed! For Gmail, use an App Password, not your regular password. Generate one at: https://myaccount.google.com/apppasswords") error] /\
  length (filter is_error_log
            (events (trace_of (backend_sample [alice] (relay_rejecting rejected)))))
    = 3%nat.
Proof. repeat split; vm_compute; reflexivity. Qed.

(** C7, refuted as stated: [create_message_with_attachment]
    (src/backend/app.py) assigns a subject of 201 characters and attaches a
    body of 5001 characters as they are. *)
Lemma backend_builder_keeps_long_subject :
  match Backend.create_message_with_attachment sample_sender sample_name alice
          (repeat 120%N 201) (repeat 121%N (Z.to_nat 5001)) sample_cv sample_filename None with
  | inr m =>
      length (msg_Subject m) = 201%nat /\
      match msg_parts m with
      | TextPart t :: _ => len (text_payload t) = 5001%Z
      | _ => False
      end
  | inl _ => False
  end.
Proof. vm_compute. split; reflexivity. Qed.



(* ------------------------------------------------------------------ *)
(** ** What the [Progress] events report *)

Lemma progress_within_weaken total base more base' more' a :
  (base' <= base)%Z -> (base + more <= base' + more')%Z ->
  progress_within total base more a -> progress_within total base' more' a.
Proof.
  intros H1 H2. destruct a as [[]| |]; simpl; auto. intros (-> & H & ->).
  repeat split; lia.
Qed.

Lemma for_enumerate_progress total body :
  (forall i r st,
     Forall (progress_within total (sent st + failed st) 1)
       (fst (fst (body i r st))) /\
     (sent (snd (fst (body i r st))) + failed (snd (fst (body i r st)))
      = sent st + failed st + 1)%Z) ->
  forall rs i st,
    Forall (progress_within total (sent st + failed st) (len rs))
      (fst (fst (for_enumerate rs i body st))).
Proof.
  intros Hbody. induction rs as [|r rs IH]; intros i st; simpl; [constructor|].
  destruct (Hbody i r st) as [Ht Hst].
  destruct (body i r st) as [[t st1] c]. simpl in Ht, Hst.
  assert (Ht' : Forall (progress_within total (sent st + failed st)
                          (len (r :: rs))) t).
  { eapply Forall_impl; [|exact Ht]. intros x.
    apply progress_within_weaken; unfold len; simpl length; lia. }
  destruct c; simpl; try assumption;
    specialize (IH (i + 1)%Z st1);
    destruct (for_enumerate rs (i + 1) body st1) as [[t' st2] c']; simpl in *;
    (apply Forall_app; split; [assumption|]);
    (eapply Forall_impl; [|exact IH]); intros x;
    apply progress_within_weaken; unfold len; simpl length; lia.
Qed.

Lemma app_send_one_progress sf se sn subj body cv fn total env i r st :
  Forall (progress_within total (sent st + failed st) 1)
    (fst (fst (App.send_one sf se sn subj body cv fn total env i r st))) /\
  (sent (snd (fst (App.send_one sf se sn subj body cv fn total env i r st)))
   + failed (snd (fst (App.send_one sf se sn subj body cv fn total env i r st)))
   = sent st + failed st + 1)%Z.
Proof.
  split; [|eapply counts_once_step, app_send_one_counts].
  rewrite app_send_one_eq.
  destruct (App.validate_email r); cbn [negb]; [|repeat constructor].
  destruct (App.create_message _ _ _ _ _ _ _ _ _) as [e|msg];
    [|destruct (sendmail_error env i) as [e|]];
    destruct (progress_percent i total) as [e'|p];
    try destruct (i <? total)%Z; cbn [fst app];
    repeat (constructor; simpl; try lia; auto).
Qed.

Lemma backend_send_one_progress se sn subj body cv fn total env i r st :
  Forall (progress_within total (sent st + failed st) 1)
    (fst (fst (Backend.send_one se sn subj body cv fn total env i r st))) /\
  (sent (snd (fst (Backend.send_one se sn subj body cv fn total env i r st)))
   + failed (snd (fst (Backend.send_one se sn subj body cv fn total env i r st)))
   = sent st + failed st + 1)%Z.
Proof.
  split; [|eapply counts_once_step, backend_send_one_counts].
  rewrite backend_send_one_eq.
  destruct (Backend.validate_email r); cbn [negb];
    [destruct (Backend.create_message_with_attachment _ _ _ _ _ _ _ _) as [e|msg];
      [|destruct (sendmail_error env i) as [e|]]|];
    destruct (progress_percent i total) as [e'|p]; cbn [fst app];
    repeat (constructor; simpl; try lia; auto).
Qed.

Lemma quiet_progress_within total a : quiet a -> progress_within total 0 total a.
Proof. destruct a as [[]| |]; simpl; tauto. Qed.

(** X1.  In every run of either generator, every [Progress] event reports the
    number of recipients as [total], counters with
    [0 < sent + failed <= total], and [pending = total - sent - failed]. *)
Theorem progress_events_are_consistent :
  forall secure_filename self sender_email sender_name password subject body
         recipients cv_data cv_filename env t p total s f n,
    t = trace_of (App.send_emails_batch secure_filename self sender_email
                    sender_name password subject body recipients cv_data
                    cv_filename env) \/
    t = trace_of (Backend.send_emails_generator sender_email sender_name
                    password subject body recipients cv_data cv_filename env) ->
    In (Yield (Progress p total s f n)) t ->
    total = len recipients /\
    (0 < s + f <= total)%Z /\
    n = (total - s - f)%Z.
Proof.
  intros sf self se sn pw subj body rs cv fn env t p total s f n Ht Hin.
  assert (H : Forall (progress_within (len rs) 0 (len rs)) t).
  { destruct Ht as [-> | ->].
    - destruct (app_trace_iterations sf self se sn pw subj body rs cv fn env)
        as (pre & post & Hpre & Hpost & [-> | ->]);
        repeat (apply Forall_app; split);
        try (eapply Forall_impl; [|eassumption]; apply quiet_progress_within).
      rewrite <- for_enumerate_trace.
      change 0%Z with (sent loop_start + failed loop_start)%Z.
      apply for_enumerate_progress.
      intros. apply app_send_one_progress.
    - destruct (backend_trace_iterations se sn pw subj body rs cv fn env)
        as (pre & post & Hpre & Hpost & [-> | ->]);
        repeat (apply Forall_app; split);
        try (eapply Forall_impl; [|eassumption]; apply quiet_progress_within).
      rewrite <- for_enumerate_trace.
      change 0%Z with (sent loop_start + failed loop_start)%Z.
      apply for_enumerate_progress.
      intros. apply backend_send_one_progress. }
  rewrite Forall_forall in H. specialize (H _ Hin). simpl in H.
  destruct H as (-> & H & ->). repeat split; lia.
Qed.

Lemma progress_events_are_consistent_witness :
  3%Z = len [alice; bad; carol] /\ (0 < 2 + 1 <= 3)%Z /\ 0%Z = (3 - 2 - 1)%Z.
Proof.
  apply (@progress_events_are_consistent (fun name => name) App.email_sender
           sample_sender sample_name sample_password sample_subject sample_body
           [alice; bad; carol] sample_cv sample_filename relay_ok
           (trace_of (app_sample [alice; bad; carol] relay_ok)) 100 3 2 1 0).
  - left. reflexivity.
  - vm_compute. do 15 right. left. reflexivity.
Defined.

(* ------------------------------------------------------------------ *)
(** ** The percentage *)

Lemma percent_table :
  forallb (fun m => forallb (fun n => percent_as_expected (Z.of_nat n) (Z.of_nat m))
                      (seq 1 m)) (seq 1 100) = true.
Proof. vm_compute. reflexivity. Qed.

(** X3.  For a campaign of at most [Config.MAX_RECIPIENTS] recipients the
    percentage of every position is defined; it is [floor(100 * i / total)]
    except at four positions, where the binary64 product falls just below
    the next integer and the truncation gives one less. *)
Theorem progress_percent_upto_max_recipients :
  forall i total,
    (1 <= i <= total)%Z -> (total <= Config.MAX_RECIPIENTS)%Z ->
    exists p,
      progress_percent i total = inr p /\
      p = (if rounds_below i total then i * 100 / total - 1
           else i * 100 / total)%Z.
Proof.
  intros i total Hi Ht. unfold Config.MAX_RECIPIENTS in Ht.
  pose proof percent_table as H. rewrite forallb_forall in H.
  specialize (H (Z.to_nat total)).
  rewrite forallb_forall in H.
  assert (Hc : percent_as_expected i total = true).
  { rewrite <- (Z2Nat.id i), <- (Z2Nat.id total) by lia.
    apply H; apply in_seq; lia. }
  unfold percent_as_expected in Hc.
  destruct (progress_percent i total) as [e|p]; [discriminate|].
  exists p. split; [reflexivity|].
  destruct (rounds_below i total); apply Z.eqb_eq in Hc; exact Hc.
Qed.

Lemma progress_percent_upto_max_recipients_witness :
  exists p, progress_percent 2 3 = inr p /\ p = 66%Z.
Proof.
  apply (@progress_percent_upto_max_recipients 2%Z 3%Z);
    unfold Config.MAX_RECIPIENTS; lia.
Defined.

(* ------------------------------------------------------------------ *)
(** ** One report per recipient in src/backend/app.py *)




(* ================================================================== *)
(** * Further properties: strings and file names *)
(* ================================================================== *)

Lemma lstrip_fixed s :
  match s with [] => True | c :: _ => isspace c = false end -> lstrip s = s.
Proof. destruct s as [|c s]; simpl; [reflexivity|]. now intros ->. Qed.

Lemma lstrip_idem s : lstrip (lstrip s) = lstrip s.
Proof.
  apply lstrip_fixed. destruct (lstrip s) as [|c t] eqn:E; [exact I|].
  exact (lstrip_head _ E).
Qed.

Lemma lstrip_snoc x c : isspace c = false -> lstrip (x ++ [c]) = lstrip x ++ [c].
Proof.
  intros Hc. induction x as [|a x IH]; simpl.
  - now rewrite Hc.
  - destruct (isspace a); [exact IH | reflexivity].
Qed.

Lemma rstrip_cons c l : isspace c = false -> rstrip (c :: l) = c :: rstrip l.
Proof.
  intros Hc. unfold rstrip. simpl rev. rewrite lstrip_snoc by assumption.
  rewrite rev_app_distr. reflexivity.
Qed.

Lemma rstrip_idem s : rstrip (rstrip s) = rstrip s.
Proof. unfold rstrip. now rewrite rev_involutive, lstrip_idem. Qed.

Lemma strip_cases s :
  strip s = match lstrip s with [] => [] | c :: l => c :: rstrip l end.
Proof.
  unfold strip. destruct (lstrip s) as [|c l] eqn:E; [reflexivity|].
  apply rstrip_cons. exact (lstrip_head _ E).
Qed.

(** Stripping a stripped string changes nothing. *)
Lemma strip_idem s : strip (strip s) = strip s.
Proof.
  assert (H : lstrip (strip s) = strip s).
  { apply lstrip_fixed. rewrite strip_cases.
    destruct (lstrip s) as [|c l] eqn:E; [exact I | exact (lstrip_head _ E)]. }
  unfold strip at 1. rewrite H. unfold strip. apply rstrip_idem.
Qed.

Lemma length_lstrip s : (length (lstrip s) <= length s)%nat.
Proof.
  induction s as [|c s IH]; simpl; [lia|]. destruct (isspace c); simpl; lia.
Qed.

Lemma length_strip s : (length (strip s) <= length s)%nat.
Proof.
  unfold strip, rstrip. rewrite length_rev.
  etransitivity; [apply length_lstrip|]. rewrite length_rev. apply length_lstrip.
Qed.

Lemma address_shape_nonempty s : address_shape s -> s <> [].
Proof. intros (l & d & t & -> & _). now destruct l. Qed.

(** An address that passes [validate_email] still passes once stripped,
    which is how the route stores it. *)
Lemma app_validate_email_strip r :
  App.validate_email r = true ->
  App.validate_email (strip r) = true /\ strip (strip r) = strip r /\
  address_shape (strip r).
Proof.
  intros H. apply app_validate_email_iff in H as (Hne & Hlen & Hshape).
  split; [|split; [apply strip_idem | assumption]].
  apply app_validate_email_iff. rewrite strip_idem.
  split; [now apply address_shape_nonempty|].
  split; [|assumption]. pose proof (length_strip r). lia.
Qed.

Lemma pystr_eqb_eq a : forall b, pystr_eqb a b = true <-> a = b.
Proof.
  induction a as [|x a IH]; intros [|y b]; simpl; try (split; congruence).
  rewrite andb_true_iff, N.eqb_eq, IH. split; [intros [-> ->] | intros E];
    [reflexivity | injection E as -> ->; auto].
Qed.

Lemma break_first_some sep s a b :
  break_first sep s = Some (a, b) -> s = a ++ sep :: b /\ ~ In sep a.
Proof.
  revert a b. induction s as [|c s IH]; intros a b; simpl; [discriminate|].
  destruct (c =? sep)%N eqn:Hc.
  - apply N.eqb_eq in Hc. subst c. intros E. injection E as <- <-. now split.
  - apply N.eqb_neq in Hc.
    destruct (break_first sep s) as [[a' b']|]; [|discriminate].
    intros E. injection E as <- <-.
    destruct (IH a' b' eq_refl) as [-> Hin]. split; [reflexivity|].
    intros [H | H]; [congruence | contradiction].
Qed.

Lemma break_first_none sep s : break_first sep s = None -> ~ In sep s.
Proof.
  induction s as [|c s IH]; simpl; [auto|].
  destruct (c =? sep)%N eqn:Hc; [discriminate|]. apply N.eqb_neq in Hc.
  destruct (break_first sep s) as [[a' b']|]; [discriminate|].
  intros _ [H | H]; [congruence | now apply IH].
Qed.

Lemma break_first_app sep a b :
  ~ In sep a -> break_first sep (a ++ sep :: b) = Some (a, b).
Proof.
  induction a as [|c a IH]; simpl; intros H.
  - now rewrite N.eqb_refl.
  - destruct (c =? sep)%N eqn:Hc.
    + apply N.eqb_eq in Hc. tauto.
    + rewrite IH by tauto. reflexivity.
Qed.

(** The extension that the file checks look at: the text after the last
    dot. *)
Lemma extension_iff sep f ext :
  (In sep f /\ nth_error (rsplit1 sep f) 1 = Some ext) <->
  exists stem, f = stem ++ sep :: ext /\ ~ In sep ext.
Proof.
  unfold rsplit1. split.
  - intros [Hin H]. destruct (break_first sep (rev f)) as [[a b]|] eqn:E.
    + cbn [nth_error] in H. injection H as <-.
      apply break_first_some in E as [E Ha]. exists (rev b). split.
      * rewrite <- (rev_involutive f), E, rev_app_distr. simpl.
        now rewrite <- app_assoc.
      * now rewrite <- in_rev.
    + apply break_first_none in E. rewrite <- in_rev in E. contradiction.
  - intros (stem & -> & Hext). split; [apply in_or_app; right; now left|].
    rewrite rev_app_distr. simpl rev. rewrite <- app_assoc. simpl app.
    rewrite break_first_app by now rewrite <- in_rev.
    cbn [nth_error]. now rewrite !rev_involutive.
Qed.

Lemma ascii_lower_is (c target upper : N) :
  in_range 97 122 target = true -> upper = (target - 32)%N ->
  ascii_lower c = target <-> c = target \/ c = upper.
Proof.
  unfold ascii_lower, in_range. intros Ht ->.
  apply andb_true_iff in Ht as [H1 H2].
  apply N.leb_le in H1. apply N.leb_le in H2.
  destruct ((65 <=? c)%N && (c <=? 90)%N) eqn:Hc.
  - apply andb_true_iff in Hc as [H3 H4].
    apply N.leb_le in H3. apply N.leb_le in H4. lia.
  - apply andb_false_iff in Hc as [Hc | Hc]; apply N.leb_gt in Hc; lia.
Qed.

Lemma lower_ascii ul s :
  forallb is_ascii s = true -> EmailValidator.lower ul s = map ascii_lower s.
Proof. unfold EmailValidator.lower. now intros ->. Qed.

Lemma validate_file_iff ul f :
  EmailValidator.validate_file ul f = true <->
  exists stem ext,
    f = stem ++ chr "." :: ext /\ ~ In (chr ".") ext /\
    EmailValidator.lower ul ext = str "pdf".
Proof.
  unfold EmailValidator.validate_file, WebConfig.ALLOWED_EXTENSIONS.
  split.
  - destruct f as [|c f]; cbn [truthy negb]; [discriminate|].
    rewrite andb_true_iff, has_char_In. intros [Hin H].
    destruct (nth_error (rsplit1 (chr ".") (c :: f)) 1) as [ext|] eqn:E;
      [|discriminate].
    destruct (proj1 (extension_iff _ _ _) (conj Hin E)) as (stem & Hf & Hext).
    exists stem, ext. repeat split; auto.
    cbn [existsb] in H. rewrite orb_false_r in H. now apply pystr_eqb_eq.
  - intros (stem & ext & Hf & Hext & Hlow).
    destruct (proj2 (extension_iff (chr ".") f ext)) as [Hin E]; [eauto|].
    destruct f as [|c f]; [now destruct stem|]. cbn [truthy negb].
    rewrite andb_true_iff, has_char_In, E. split; [assumption|].
    cbn [existsb]. rewrite orb_false_r. now apply pystr_eqb_eq.
Qed.

Lemma allowed_file_validate_file ul f :
  BackendRoute.allowed_file ul f = EmailValidator.validate_file ul f.
Proof.
  unfold BackendRoute.allowed_file, EmailValidator.validate_file.
  destruct f as [|c f]; reflexivity.
Qed.

(** X4.  The two file-name checks ([EmailValidator.validate_file] of src/app.py
    and [allowed_file] of src/backend/app.py) agree on every name.  A name
    of ASCII characters passes exactly when it ends in a dot followed by
    [pdf] in any mix of cases; what stands before that dot does not matter,
    so [".pdf"] passes and ["cv.pdf.exe"], ["cv.pd"], ["pdf"] and [""] do
    not. *)
Theorem file_name_checks_accept_pdf_extension :
  forall unicode_lower f,
    BackendRoute.allowed_file unicode_lower f
      = EmailValidator.validate_file unicode_lower f /\
    (forallb is_ascii f = true ->
     (EmailValidator.validate_file unicode_lower f = true <->
      exists stem p d e,
        f = stem ++ [chr "."; p; d; e] /\
        (p = chr "p" \/ p = chr "P") /\ (d = chr "d" \/ d = chr "D") /\
        (e = chr "f" \/ e = chr "F"))).
Proof.
  intros ul f. split; [apply allowed_file_validate_file|].
  intros Hascii. rewrite validate_file_iff. split.
  - intros (stem & ext & -> & Hext & Hlow).
    rewrite lower_ascii in Hlow.
    2:{ rewrite forallb_app in Hascii. apply andb_true_iff in Hascii as [_ H].
        simpl in H. exact H. }
    destruct ext as [|p [|d [|e [|x ext]]]]; try discriminate.
    simpl in Hlow. injection Hlow as Hp Hd He.
    exists stem, p, d, e. split; [reflexivity|].
    apply (@ascii_lower_is p (chr "p") (chr "P") eq_refl eq_refl) in Hp.
    apply (@ascii_lower_is d (chr "d") (chr "D") eq_refl eq_refl) in Hd.
    apply (@ascii_lower_is e (chr "f") (chr "F") eq_refl eq_refl) in He.
    auto.
  - intros (stem & p & d & e & -> & Hp & Hd & He).
    exists stem, [p; d; e]. split; [reflexivity|]. split.
    + intros [H | [H | [H | []]]]; subst;
        destruct Hp as [Hp | Hp], Hd as [Hd | Hd], He as [He | He];
        discriminate.
    + rewrite lower_ascii.
      * destruct Hp as [-> | ->], Hd as [-> | ->], He as [-> | ->]; reflexivity.
      * destruct Hp as [-> | ->], Hd as [-> | ->], He as [-> | ->]; reflexivity.
Qed.

Lemma file_name_checks_accept_pdf_extension_witness :
  EmailValidator.validate_file (fun s => s) (str "Resume.v2.PdF") = true.
Proof.
  apply (proj2 (@file_name_checks_accept_pdf_extension (fun s => s)
                  (str "Resume.v2.PdF"))); [reflexivity|].
  exists (str "Resume.v2"), (chr "P"), (chr "d"), (chr "F").
  repeat split; auto.
Defined.

Lemma validate_pdf_content_iff data :
  EmailValidator.validate_pdf_content data = true <->
  exists rest, data = [Byte.x25; Byte.x50; Byte.x44; Byte.x46] ++ rest.
Proof.
  unfold EmailValidator.validate_pdf_content. split.
  - destruct data as [|b0 [|b1 [|b2 [|b3 rest]]]]; try discriminate.
    destruct (negb (truthy _) || _); [discriminate|].
    change (slice_to 4 (b0 :: b1 :: b2 :: b3 :: rest)) with [b0; b1; b2; b3].
    rewrite !andb_true_iff. intros [[[H0 H1] H2] H3].
    apply Byte.byte_dec_bl in H0, H1, H2, H3. subst. now exists rest.
  - intros (rest & ->).
    replace (len _ <? 4)%Z with false.
    + reflexivity.
    + symmetry. apply Z.ltb_ge. unfold len. simpl length. lia.
Qed.

(* ================================================================== *)
(** * Further properties: the route [/send-emails] of src/app.py *)
(* ================================================================== *)

Lemma valid_recipients_clean items :
  Forall clean_address (AppRoute.valid_recipients items).
Proof.
  induction items as [|[r|] items IH]; simpl; auto.
  destruct (App.validate_email r) eqn:Hr; [|assumption].
  constructor; [|assumption].
  destruct (app_validate_email_strip _ Hr) as (H1 & H2 & H3).
  now repeat split.
Qed.

Lemma valid_recipients_In items r :
  In r (AppRoute.valid_recipients items) <->
  exists r0, In (JStr r0) items /\ App.validate_email r0 = true /\ r = strip r0.
Proof.
  induction items as [|[r1|] items IH]; simpl.
  - split; [intros [] | intros (r0 & [] & _)].
  - destruct (App.validate_email r1) eqn:Hr; simpl; rewrite IH; split.
    + intros [<- | (r0 & H1 & H2 & H3)]; [exists r1 | exists r0]; auto.
    + intros (r0 & [E | H1] & H2 & H3);
        [injection E as ->; now left | right; eauto].
    + intros (r0 & H1 & H2 & H3). eauto.
    + intros (r0 & [E | H1] & H2 & H3); [injection E as ->; congruence | eauto].
  - rewrite IH. split; intros (r0 & H1 & H2 & H3).
    + eauto.
    + destruct H1 as [E | H1]; [discriminate | eauto].
Qed.

Lemma truthy_nonempty {A} (l : list A) : truthy l = true <-> l <> [].
Proof. destruct l; simpl; split; congruence. Qed.

(** X5.  Every campaign that the route [send_emails] of src/app.py hands to the
    generator has been checked: the sender address (stripped) passes
    [validate_email]; password, subject and body are not empty; the
    recipients are the strings of the posted list that pass
    [validate_email], stripped (entries that are not strings or not
    addresses are dropped without a report), at least one and at most
    [Config.MAX_RECIPIENTS], each well formed and free of surrounding white
    space; the attachment is not empty, is at most 10 MB, starts with the
    bytes [%PDF], and was uploaded under a name that passes
    [validate_file]. *)
Theorem route_starts_only_checked_campaigns :
  forall unicode_lower secure_filename req c,
    AppRoute.send_emails unicode_lower secure_filename req = Streaming c ->
    http_verb req = POST /\
    c_sender_email c = strip (get_or_empty (form_sender_email req)) /\
    clean_address (c_sender_email c) /\
    c_sender_name c = strip (get_or_empty (form_sender_name req)) /\
    c_password c = get_or_empty (form_password req) /\ c_password c <> [] /\
    c_subject c = strip (get_or_empty (form_subject req)) /\ c_subject c <> [] /\
    c_body c = strip (get_or_empty (form_body req)) /\ c_body c <> [] /\
    (exists items,
       form_recipients req = Parsed (JList items) /\
       forall r, In r (c_recipients c) <->
                 exists r0, In (JStr r0) items /\
                            App.validate_email r0 = true /\ r = strip r0) /\
    c_recipients c <> [] /\
    (len (c_recipients c) <= Config.MAX_RECIPIENTS)%Z /\
    Forall clean_address (c_recipients c) /\
    (exists cv,
       file_cv req = Some cv /\ c_cv_data c = content cv /\
       c_cv_filename c = secure_filename (filename cv) /\
       EmailValidator.validate_file unicode_lower (filename cv) = true) /\
    (exists rest, c_cv_data c = [Byte.x25; Byte.x50; Byte.x44; Byte.x46] ++ rest) /\
    (len (c_cv_data c) <= WebConfig.MAX_FILE_SIZE)%Z.
Proof.
  intros ul sf req c. unfold AppRoute.send_emails.
  destruct (http_verb req); [|discriminate].
  set (sender_email := strip (get_or_empty (form_sender_email req))).
  set (subject := strip (get_or_empty (form_subject req))).
  set (body := strip (get_or_empty (form_body req))).
  set (password := get_or_empty (form_password req)).
  destruct (truthy sender_email && truthy password && truthy subject
            && truthy body) eqn:Hall; cbn [negb]; [|discriminate].
  apply andb_true_iff in Hall as [Hall Hbody].
  apply andb_true_iff in Hall as [Hall Hsubject].
  apply andb_true_iff in Hall as [Hsender Hpassword].
  apply truthy_nonempty in Hbody, Hsubject, Hpassword.
  destruct (App.validate_email sender_email) eqn:Hvalid; cbn [negb];
    [|discriminate].
  assert (Hclean : clean_address sender_email).
  { split; [assumption|]. split.
    - apply app_validate_email_iff in Hvalid as (_ & _ & H).
      unfold sender_email in H. rewrite strip_idem in H. exact H.
    - apply strip_idem. }
  destruct (form_recipients req) as [| |[items|]] eqn:Hfield;
    try discriminate; cbn [AppRoute.valid_recipients truthy negb];
    try discriminate.
  destruct (truthy (AppRoute.valid_recipients items)) eqn:Hsome; cbn [negb];
    [|discriminate].
  apply truthy_nonempty in Hsome.
  destruct (Config.MAX_RECIPIENTS <? len (AppRoute.valid_recipients items))%Z
    eqn:Hmax; [discriminate|]. apply Z.ltb_ge in Hmax.
  unfold AppRoute.with_file.
  destruct (file_cv req) as [cv|] eqn:Hcv; [|discriminate].
  destruct (truthy (filename cv)); cbn [negb]; [|discriminate].
  destruct (EmailValidator.validate_file ul (filename cv)) eqn:Hname;
    cbn [negb]; [|discriminate].
  destruct (truthy (content cv)); cbn [negb]; [|discriminate].
  destruct (WebConfig.MAX_FILE_SIZE <? len (content cv))%Z eqn:Hsize;
    [discriminate|]. apply Z.ltb_ge in Hsize.
  destruct (EmailValidator.validate_pdf_content (content cv)) eqn:Hpdf;
    cbn [negb]; [|discriminate].
  apply validate_pdf_content_iff in Hpdf.
  intros E. injection E as <-.
  cbn [c_sender_email c_sender_name c_password c_subject c_body c_recipients
       c_cv_data c_cv_filename].
  repeat match goal with |- _ /\ _ => split end; auto.
  - exists items. split; [reflexivity|]. intros r. apply valid_recipients_In.
  - apply valid_recipients_clean.
  - exists cv. auto.
Qed.

(* ================================================================== *)
(** * Further properties: one report per recipient *)
(* ================================================================== *)

Lemma progress_percent_expected i total :
  (1 <= i <= total)%Z -> (total <= Config.MAX_RECIPIENTS)%Z ->
  progress_percent i total = inr (expected_percent i total).
Proof.
  intros Hi Ht. unfold Config.MAX_RECIPIENTS in Ht.
  pose proof percent_table as H. rewrite forallb_forall in H.
  specialize (H (Z.to_nat total)). rewrite forallb_forall in H.
  assert (Hc : percent_as_expected i total = true).
  { rewrite <- (Z2Nat.id i), <- (Z2Nat.id total) by lia.
    apply H; apply in_seq; lia. }
  unfold percent_as_expected in Hc. unfold expected_percent.
  destruct (progress_percent i total) as [e|p]; [discriminate|].
  destruct (rounds_below i total); apply Z.eqb_eq in Hc; now subst.
Qed.

(** A loop whose body, at every position, ends normally and emits exactly
    one [Progress] event (that of the position, with the counters it
    leaves) runs to the end and emits these events in order. *)
Lemma for_enumerate_progress_events body total pct (rs0 : list pystr) hi :
  (forall i r st, In r rs0 -> (1 <= i <= hi)%Z ->
     snd (body i r st) = Normal tt /\
     filter is_progress (events (fst (fst (body i r st)))) =
       [Progress (pct i) total
          (sent (snd (fst (body i r st)))) (failed (snd (fst (body i r st))))
          (total - sent (snd (fst (body i r st)))
           - failed (snd (fst (body i r st))))]) ->
  forall rs i st, incl rs rs0 -> (1 <= i)%Z -> (i + len rs - 1 <= hi)%Z ->
    snd (for_enumerate rs i body st) = Normal tt /\
    length (iterations rs i body st) = length rs /\
    filter is_progress (events (fst (fst (for_enumerate rs i body st)))) =
      map (fun k =>
             Progress (pct (i + Z.of_nat k - 1)%Z) total
               (sent (state_after k rs i body st))
               (failed (state_after k rs i body st))
               (total - sent (state_after k rs i body st)
                - failed (state_after k rs i body st)))
          (seq 1 (length rs)).
Proof.
  intros Hbody. induction rs as [|r rs IH]; intros i st Hincl Hi Hhi.
  - simpl. auto.
  - assert (Hr : In r rs0) by (apply Hincl; now left).
    assert (Hrs : incl rs rs0) by (intros x Hx; apply Hincl; now right).
    unfold len in Hhi. simpl length in Hhi.
    assert (H1 : (1 <= i <= hi)%Z) by lia.
    assert (H2 : (1 <= i + 1)%Z) by lia.
    assert (H3 : (i + 1 + len rs - 1 <= hi)%Z) by (unfold len; lia).
    destruct (Hbody i r st Hr H1) as [Hc Hp].
    destruct (IH (i + 1)%Z (snd (fst (body i r st))) Hrs H2 H3)
      as (IHc & IHn & IHp).
    cbn [for_enumerate iterations length].
    destruct (body i r st) as [[t st1] c] eqn:Hb. cbn [fst snd] in *. subst c.
    destruct (for_enumerate rs (i + 1) body st1) as [[t' st2] c'] eqn:Hloop.
    cbn [fst snd] in *. split; [assumption|]. split; [simpl; lia|].
    rewrite events_app, filter_app, Hp, IHp.
    cbn [seq map app]. f_equal.
    + cbn [state_after]. rewrite Hb.
      replace (i + Z.of_nat 1 - 1)%Z with i by lia. reflexivity.
    + rewrite <- (seq_shift (length rs) 1), map_map. apply map_ext. intros k.
      cbn [state_after]. rewrite Hb.
      replace (i + Z.of_nat (S k) - 1)%Z with (i + 1 + Z.of_nat k - 1)%Z by lia.
      reflexivity.
Qed.

Lemma app_send_one_reports sf se sn subj body cv fn total env i r st :
  App.validate_email r = true ->
  (1 <= i <= total)%Z -> (total <= Config.MAX_RECIPIENTS)%Z ->
  let result := App.send_one sf se sn subj body cv fn total env i r st in
  snd result = Normal tt /\
  filter is_progress (events (fst (fst result))) =
    [Progress (expected_percent i total) total
       (sent (snd (fst result))) (failed (snd (fst result)))
       (total - sent (snd (fst result)) - failed (snd (fst result)))].
Proof.
  intros Hv Hi Ht. cbv zeta. rewrite app_send_one_eq, Hv. cbn [negb].
  rewrite (progress_percent_expected Hi Ht).
  destruct (App.create_message _ _ _ _ _ _ _ _ _) as [e|msg];
    [|destruct (sendmail_error env i) as [e|]];
    destruct (i <? total)%Z; split; reflexivity.
Qed.

Lemma backend_send_one_reports se sn subj body cv fn total env i r st :
  (1 <= i <= total)%Z -> (total <= Config.MAX_RECIPIENTS)%Z ->
  let result := Backend.send_one se sn subj body cv fn total env i r st in
  snd result = Normal tt /\
  filter is_progress (events (fst (fst result))) =
    [Progress (expected_percent i total) total
       (sent (snd (fst result))) (failed (snd (fst result)))
       (total - sent (snd (fst result)) - failed (snd (fst result)))].
Proof.
  intros Hi Ht. cbv zeta. rewrite backend_send_one_eq.
  rewrite (progress_percent_expected Hi Ht).
  destruct (Backend.validate_email r); cbn [negb];
    [destruct (Backend.create_message_with_attachment _ _ _ _ _ _ _ _) as [e|msg];
      [|destruct (sendmail_error env i) as [e|]]|];
    split; reflexivity.
Qed.

Lemma filter_progress_quiet t :
  Forall quiet t -> filter is_progress (events t) = [].
Proof.
  induction 1 as [|a t Ha _ IH]; [reflexivity|].
  destruct a as [[]| |]; simpl in *; auto; contradiction.
Qed.

(** The loop of either generator over at most [Config.MAX_RECIPIENTS]
    recipients (all valid, for src/app.py). *)
Lemma loop_reports one rs :
  (len rs <= Config.MAX_RECIPIENTS)%Z ->
  (forall i r st, In r rs -> (1 <= i <= len rs)%Z ->
     snd (one i r st) = Normal tt /\
     filter is_progress (events (fst (fst (one i r st)))) =
       [Progress (expected_percent i (len rs)) (len rs)
          (sent (snd (fst (one i r st)))) (failed (snd (fst (one i r st))))
          (len rs - sent (snd (fst (one i r st)))
           - failed (snd (fst (one i r st))))]) ->
  snd (for_enumerate rs 1 one loop_start) = Normal tt /\
  length (iterations rs 1 one loop_start) = length rs /\
  filter is_progress (events (fst (fst (for_enumerate rs 1 one loop_start))))
    = map (progress_at one rs) (seq 1 (length rs)).
Proof.
  intros Hmax Hone.
  assert (H1 : (1 <= 1)%Z) by lia.
  assert (H2 : (1 + len rs - 1 <= len rs)%Z) by lia.
  destruct (@for_enumerate_progress_events one (len rs)
              (fun i => expected_percent i (len rs)) rs (len rs) Hone
              rs 1%Z loop_start (incl_refl rs) H1 H2)
    as (Hc & Hn & Hp).
  split; [assumption|]. split; [assumption|].
  rewrite Hp. apply map_ext. intros k. unfold progress_at. cbv zeta.
  replace (1 + Z.of_nat k - 1)%Z with (Z.of_nat k) by lia. reflexivity.
Qed.

Section Reports.

Variable secure_filename : pystr -> pystr.
Variable self : App.EmailSender.
Variables sender_email sender_name password subject body : pystr.
Variable recipients : list pystr.
Variable cv_data : list Byte.byte.
Variable cv_filename : pystr.
Variable env : relay.

Hypothesis connect_ok : connect_error env = None.
Hypothesis starttls_ok : starttls_error env = None.
Hypothesis login_ok : login_error env = None.
Hypothesis bounded : (len recipients <= Config.MAX_RECIPIENTS)%Z.

Let app_one := App.send_one secure_filename sender_email sender_name subject
                 body cv_data cv_filename (len recipients) env.
Let backend_one := Backend.send_one sender_email sender_name subject
                     body cv_data cv_filename (len recipients) env.

Lemma app_run_reports :
  Forall (fun r => App.validate_email r = true) recipients ->
  let evs := events (trace_of (App.send_emails_batch secure_filename self
               sender_email sender_name password subject body recipients
               cv_data cv_filename env)) in
  let final := state_after (length recipients) recipients 1 app_one loop_start in
  filter is_progress evs
    = map (progress_at app_one recipients) (seq 1 (length recipients)) /\
  length (iterations recipients 1 app_one loop_start) = length recipients /\
  exists pre,
    evs = pre ++ [completed (sent final) (failed final);
                  Complete (sent final) (failed final)].
Proof.
  intros Hvalid evs final. rewrite Forall_forall in Hvalid.
  destruct (@loop_reports app_one recipients bounded) as (Hc & Hn & Hp).
  { intros i r st Hr Hi. apply app_send_one_reports; auto. }
  pose proof (for_enumerate_state recipients 1 app_one loop_start) as Hst.
  destruct (for_enumerate recipients 1 app_one loop_start) as [[lt lst] lc] eqn:Hloop.
  cbn [fst snd] in *. subst lc. fold final in Hst. subst lst.
  unfold evs, trace_of.
  rewrite (app_run_loop _ _ _ _ _ _ _ _ _ _ _ connect_ok starttls_ok login_ok Hloop).
  cbn [fst app_epilogue]. split; [|split; [assumption|]].
  - rewrite !events_app, !filter_app, Hp.
    cbn [events filter is_progress app]. apply app_nil_r.
  - eexists. rewrite !events_app. cbn [events app].
    rewrite !app_comm_cons. rewrite app_assoc. reflexivity.
Qed.

Lemma backend_run_reports :
  let evs := events (trace_of (Backend.send_emails_generator
               sender_email sender_name password subject body recipients
               cv_data cv_filename env)) in
  let final := state_after (length recipients) recipients 1 backend_one loop_start in
  filter is_progress evs
    = map (progress_at backend_one recipients) (seq 1 (length recipients)) /\
  length (iterations recipients 1 backend_one loop_start) = length recipients /\
  (quit_error env = None ->
   exists pre,
     evs = pre ++ [completed (sent final) (failed final);
                   Complete (sent final) (failed final)]).
Proof.
  intros evs final.
  destruct (@loop_reports backend_one recipients bounded) as (Hc & Hn & Hp).
  { intros i r st Hr Hi. apply backend_send_one_reports; auto. }
  pose proof (for_enumerate_state recipients 1 backend_one loop_start) as Hst.
  destruct (for_enumerate recipients 1 backend_one loop_start) as [[lt lst] lc] eqn:Hloop.
  cbn [fst snd] in *. subst lc. fold final in Hst. subst lst.
  unfold evs, trace_of.
  rewrite (backend_run_loop _ _ _ _ _ _ _ _ _ connect_ok starttls_ok login_ok Hloop).
  cbn [fst backend_epilogue]. split; [|split; [assumption|]].
  - rewrite !events_app, !filter_app, Hp.
    destruct (quit_error env) as [e|];
      cbn [events filter is_progress app]; [|apply app_nil_r].
    rewrite events_map_Yield. unfold backend_error_logs.
    destruct (is_auth_error e);
      [destruct (contains signature (exn_str e))|destruct (is_smtp_exception e)];
      cbn [filter is_progress]; apply app_nil_r.
  - intros Hq. rewrite Hq. eexists. rewrite !events_app. cbn [events app].
    rewrite !app_comm_cons. rewrite app_assoc. reflexivity.
Qed.

End Reports.

Lemma route_starts_only_checked_campaigns_witness :
  Forall clean_address [alice; carol] /\
  (len [alice; carol] <= Config.MAX_RECIPIENTS)%Z.
Proof.
  assert (E : AppRoute.send_emails (fun s => s) (fun s => s) sample_request
              = Streaming sample_campaign) by (vm_compute; reflexivity).
  destruct (@route_starts_only_checked_campaigns (fun s => s) (fun s => s)
              sample_request sample_campaign E)
    as (_ & _ & _ & _ & _ & _ & _ & _ & _ & _ & _ & _ & Hmax & Hclean & _).
  split; assumption.
Defined.

Lemma expected_percent_last n :
  (1 <= n)%Z -> expected_percent n n = 100%Z.
Proof.
  intros Hn. unfold expected_percent, rounds_below.
  replace ((n =? 29) && (n =? 50))%Z with false
    by (destruct (Z.eqb_spec n 29), (Z.eqb_spec n 50); simpl; auto; lia).
  replace ((n =? 29) && (n =? 100))%Z with false
    by (destruct (Z.eqb_spec n 29), (Z.eqb_spec n 100); simpl; auto; lia).
  replace ((n =? 57) && (n =? 100))%Z with false
    by (destruct (Z.eqb_spec n 57), (Z.eqb_spec n 100); simpl; auto; lia).
  replace ((n =? 58) && (n =? 100))%Z with false
    by (destruct (Z.eqb_spec n 58), (Z.eqb_spec n 100); simpl; auto; lia).
  cbn [orb]. rewrite Z.mul_comm. apply Z.div_mul. lia.
Qed.

Lemma map_seq_last {A} (f : nat -> A) n :
  (1 <= n)%nat -> map f (seq 1 n) = map f (seq 1 (n - 1)) ++ [f n].
Proof.
  destruct n as [|n]; [lia|]. intros _.
  rewrite seq_S, map_app, Nat.sub_succ, Nat.sub_0_r. reflexivity.
Qed.

(** X6.  A campaign of at most [Config.MAX_RECIPIENTS] recipients on a
    relay that accepts the connection, [starttls] and [login] gets one
    [Progress] event per recipient, in the order of the list, whatever
    happens to each message: in [send_emails_generator]
    (src/backend/app.py) for every list of recipients, in
    [send_emails_batch] (src/app.py) when every recipient passes
    [validate_email].  The event of the [k]-th recipient carries the
    percentage of position [k], the total, and the counters as they stand
    after [k] recipients, which sum to [k]. *)
Theorem every_recipient_is_reported :
  forall secure_filename self sender_email sender_name password subject body
         recipients cv_data cv_filename env,
    connect_error env = None -> starttls_error env = None ->
    login_error env = None ->
    (len recipients <= Config.MAX_RECIPIENTS)%Z ->
    let app_one := App.send_one secure_filename sender_email sender_name
                     subject body cv_data cv_filename (len recipients) env in
    let backend_one := Backend.send_one sender_email sender_name subject body
                         cv_data cv_filename (len recipients) env in
    (Forall (fun r => App.validate_email r = true) recipients ->
     filter is_progress
       (events (trace_of (App.send_emails_batch secure_filename self
                  sender_email sender_name password subject body recipients
                  cv_data cv_filename env)))
     = map (progress_at app_one recipients) (seq 1 (length recipients)) /\
     forall k, (k <= length recipients)%nat ->
       (sent (state_after k recipients 1 app_one loop_start)
        + failed (state_after k recipients 1 app_one loop_start)
        = Z.of_nat k)%Z) /\
    filter is_progress
      (events (trace_of (Backend.send_emails_generator
                 sender_email sender_name password subject body recipients
                 cv_data cv_filename env)))
    = map (progress_at backend_one recipients) (seq 1 (length recipients)) /\
    forall k, (k <= length recipients)%nat ->
      (sent (state_after k recipients 1 backend_one loop_start)
       + failed (state_after k recipients 1 backend_one loop_start)
       = Z.of_nat k)%Z.
Proof.
  intros sf self se sn pw subj body rs cv fn env H1 H2 H3 Hmax app_one backend_one.
  split; [intros Hvalid|].
  - pose proof (@app_run_reports sf self se sn pw subj body rs cv fn env
                  H1 H2 H3 Hmax Hvalid) as H.
    cbv zeta in H. destruct H as (Hp & Hn & _). split; [exact Hp|].
    intros k Hk.
    fold app_one in Hn.
    rewrite (@state_after_count app_one); [reflexivity| |lia].
    intros i r st.
    apply (proj1 (@counts_once_step _ _ _ _ _
                    (app_send_one_counts _ _ _ _ _ _ _ _ _ _ _ _))).
  - pose proof (@backend_run_reports se sn pw subj body rs cv fn env
                  H1 H2 H3 Hmax) as H.
    cbv zeta in H. destruct H as (Hp & Hn & _). split; [exact Hp|].
    intros k Hk.
    fold backend_one in Hn.
    rewrite (@state_after_count backend_one); [reflexivity| |lia].
    intros i r st.
    apply (proj1 (@counts_once_step _ _ _ _ _
                    (backend_send_one_counts _ _ _ _ _ _ _ _ _ _ _))).
Qed.

Lemma every_recipient_is_reported_witness :
  filter is_progress (events (trace_of (backend_sample [alice; bad; carol] relay_ok)))
  = [Progress 33 3 1 0 2; Progress 66 3 1 1 1; Progress 100 3 2 1 0].
Proof.
  assert (Hmax : (len [alice; bad; carol] <= Config.MAX_RECIPIENTS)%Z)
    by (vm_compute; discriminate).
  pose proof (@every_recipient_is_reported (fun name => name) App.email_sender
                sample_sender sample_name sample_password sample_subject
                sample_body [alice; bad; carol] sample_cv sample_filename
                relay_ok eq_refl eq_refl eq_refl Hmax) as H.
  cbv zeta in H. destruct H as (_ & H & _).
  unfold backend_sample. rewrite H. vm_compute. reflexivity.
Defined.

(** X7.  What the route [send_emails] of src/app.py starts, once the relay
    has accepted the connection, [starttls] and [login], reports every
    recipient: the [Progress] events of the response are those of the
    positions 1 to [total] in order, the last of them reports 100 percent
    with [sentCount + failedCount = total] and nothing pending, and the
    response ends with the completion log and the [Complete] event that
    carry the same two counters. *)
Theorem route_campaign_reports_every_recipient :
  forall unicode_lower secure_filename req c env,
    AppRoute.send_emails unicode_lower secure_filename req = Streaming c ->
    connect_error env = None -> starttls_error env = None ->
    login_error env = None ->
    let total := len (c_recipients c) in
    let one := App.send_one secure_filename (c_sender_email c) (c_sender_name c)
                 (c_subject c) (c_body c) (c_cv_data c) (c_cv_filename c)
                 total env in
    let evs := events (trace_of (AppRoute.stream secure_filename c env)) in
    let final := state_after (length (c_recipients c)) (c_recipients c) 1 one
                   loop_start in
    filter is_progress evs
      = map (progress_at one (c_recipients c))
          (seq 1 (length (c_recipients c))) /\
    (sent final + failed final = total)%Z /\
    (exists earlier,
       filter is_progress evs
       = earlier ++ [Progress 100 total (sent final) (failed final) 0]) /\
    (exists before,
       evs = before ++ [completed (sent final) (failed final);
                        Complete (sent final) (failed final)]).
Proof.
  intros ul sf req c env Hroute H1 H2 H3 total one evs final.
  assert (Hc : c_recipients c <> [] /\
               (total <= Config.MAX_RECIPIENTS)%Z /\
               Forall (fun r => App.validate_email r = true) (c_recipients c)).
  { unfold AppRoute.send_emails in Hroute.
    destruct (http_verb req); [|discriminate].
    destruct (negb _); [discriminate|].
    destruct (negb _); [discriminate|].
    destruct (form_recipients req) as [| |[items|]]; try discriminate;
      cbn [AppRoute.valid_recipients truthy negb] in Hroute; try discriminate.
    destruct (truthy (AppRoute.valid_recipients items)) eqn:Hsome;
      cbn [negb] in Hroute; [|discriminate].
    destruct (Config.MAX_RECIPIENTS <? len (AppRoute.valid_recipients items))%Z
      eqn:Hmax; [discriminate|]. apply Z.ltb_ge in Hmax.
    unfold AppRoute.with_file in Hroute.
    destruct (file_cv req) as [cv|]; [|discriminate].
    repeat (destruct (negb _); [discriminate|]).
    destruct (_ <? _)%Z; [discriminate|].
    destruct (negb _); [discriminate|].
    injection Hroute as <-. unfold total. cbn [c_recipients].
    split; [now apply truthy_nonempty|]. split; [assumption|].
    eapply Forall_impl; [|apply valid_recipients_clean].
    intros r Hr. apply Hr. }
  destruct Hc as (Hne & Hmax & Hvalid).
  pose proof (@app_run_reports sf App.email_sender (c_sender_email c)
                (c_sender_name c) (c_password c) (c_subject c) (c_body c)
                (c_recipients c) (c_cv_data c) (c_cv_filename c) env
                H1 H2 H3 Hmax Hvalid) as H.
  cbv zeta in H. destruct H as (Hp & Hn & Hend).
  fold total one in Hp, Hn, Hend. fold final in Hend.
  assert (Hsum : (sent final + failed final = total)%Z).
  { unfold final, total, len.
    rewrite (@state_after_count one); [reflexivity| |lia].
    intros i r st.
    apply (proj1 (@counts_once_step _ _ _ _ _
                    (app_send_one_counts _ _ _ _ _ _ _ _ _ _ _ _))). }
  split; [exact Hp|]. split; [exact Hsum|]. split; [|exact Hend].
  assert (Hlen : (1 <= length (c_recipients c))%nat).
  { destruct (c_recipients c); [congruence | simpl; lia]. }
  unfold evs, AppRoute.stream. rewrite Hp, (map_seq_last _ Hlen).
  eexists. f_equal. unfold progress_at. cbv zeta.
  fold (len (c_recipients c)). fold total. fold one. fold final.
  rewrite expected_percent_last by (unfold total, len; lia).
  do 2 f_equal. lia.
Qed.

Lemma route_campaign_reports_every_recipient_witness :
  exists before,
    events (trace_of (AppRoute.stream (fun s => s) sample_campaign relay_ok))
    = before ++ [completed 2 0; Complete 2 0].
Proof.
  assert (E : AppRoute.send_emails (fun s => s) (fun s => s) sample_request
              = Streaming sample_campaign) by (vm_compute; reflexivity).
  pose proof (@route_campaign_reports_every_recipient (fun s => s) (fun s => s)
                sample_request sample_campaign relay_ok E eq_refl eq_refl eq_refl)
    as H.
  cbv zeta in H. destruct H as (_ & _ & _ & H). exact H.
Defined.

(* ================================================================== *)
(** * Further properties: what the [Complete] event counts *)
(* ================================================================== *)

(** The four ways a run of [send_emails_batch] can go. *)
Ltac app_cases sf self se sn pw subj body rs cv fn env :=
  let e := fresh "e" in
  let H1 := fresh "Hconnect" in
  let H2 := fresh "Hstarttls" in
  let H3 := fresh "Hlogin" in
  let lt := fresh "lt" in
  let lst := fresh "lst" in
  let lc := fresh "lc" in
  let Hloop := fresh "Hloop" in
  destruct (connect_error env) as [e|] eqn:H1;
  [rewrite (@app_run_connect_fails sf self se sn pw subj body rs cv fn env e H1)
  |destruct (starttls_error env) as [e|] eqn:H2;
   [rewrite (@app_run_starttls_fails sf self se sn pw subj body rs cv fn env e H1 H2)
   |destruct (login_error env) as [e|] eqn:H3;
    [rewrite (@app_run_login_fails sf self se sn pw subj body rs cv fn env e H1 H2 H3)
    |destruct (for_enumerate rs 1
                 (App.send_one sf se sn subj body cv fn (len rs) env) loop_start)
       as [[lt lst] lc] eqn:Hloop;
     rewrite (@app_run_loop sf self se sn pw subj body rs cv fn env lt lst lc
                H1 H2 H3 Hloop)]]].

(** The four ways a run of [send_emails_generator] can go. *)
Ltac backend_cases se sn pw subj body rs cv fn env :=
  let e := fresh "e" in
  let H1 := fresh "Hconnect" in
  let H2 := fresh "Hstarttls" in
  let H3 := fresh "Hlogin" in
  let lt := fresh "lt" in
  let lst := fresh "lst" in
  let lc := fresh "lc" in
  let Hloop := fresh "Hloop" in
  destruct (connect_error env) as [e|] eqn:H1;
  [rewrite (@backend_run_connect_fails se sn pw subj body rs cv fn env e H1)
  |destruct (starttls_error env) as [e|] eqn:H2;
   [rewrite (@backend_run_starttls_fails se sn pw subj body rs cv fn env e H1 H2)
   |destruct (login_error env) as [e|] eqn:H3;
    [rewrite (@backend_run_login_fails se sn pw subj body rs cv fn env e H1 H2 H3)
    |destruct (for_enumerate rs 1
                 (Backend.send_one se sn subj body cv fn (len rs) env) loop_start)
       as [[lt lst] lc] eqn:Hloop;
     rewrite (@backend_run_loop se sn pw subj body rs cv fn env lt lst lc
                H1 H2 H3 Hloop)]]].

Lemma events_without_complete t s f :
  Forall not_complete t -> ~ In (Complete s f) (events t).
Proof.
  intros Ht Hin. apply events_not_complete in Ht.
  rewrite Forall_forall in Ht. specialize (Ht _ Hin). discriminate.
Qed.

(** A loop that ends normally has counted every element: [sent] has grown
    by the number of accepted recipients and [failed] by the number of the
    others. *)
Lemma for_enumerate_accepted valid build env body :
  (forall i r st,
     counts_once (valid r) (build i r) (sendmail_error env i) st
       (snd (fst (body i r st)))) ->
  forall rs i st,
    snd (for_enumerate rs i body st) = Normal tt ->
    sent (snd (fst (for_enumerate rs i body st)))
      = (sent st + accepted valid build env i rs)%Z /\
    failed (snd (fst (for_enumerate rs i body st)))
      = (failed st + (len rs - accepted valid build env i rs))%Z.
Proof.
  intros Hbody. induction rs as [|r rs IH]; intros i st Hc.
  - unfold len. simpl. lia.
  - specialize (Hbody i r st). cbn [for_enumerate accepted] in *.
    destruct (body i r st) as [[t st1] c]. cbn [fst snd] in Hbody.
    assert (Hstep : (sent st1
                     = sent st + match valid r, build i r, sendmail_error env i with
                                 | true, inr _, None => 1
                                 | _, _, _ => 0
                                 end)%Z /\
                    (failed st1
                     = failed st + 1 - match valid r, build i r, sendmail_error env i with
                                       | true, inr _, None => 1
                                       | _, _, _ => 0
                                       end)%Z).
    { unfold counts_once in Hbody.
      destruct (valid r), (build i r), (sendmail_error env i); lia. }
    assert (Hlen : len (r :: rs) = (len rs + 1)%Z) by (unfold len; simpl length; lia).
    rewrite Hlen.
    destruct c as [[]|e| |]; try discriminate;
      specialize (IH (i + 1)%Z st1);
      destruct (for_enumerate rs (i + 1) body st1) as [[t' st2] c'];
      cbn [fst snd] in *; destruct (IH Hc) as [IH1 IH2]; lia.
Qed.

Lemma app_complete_counters sf self se sn pw subj body rs cv fn env s f :
  In (Complete s f)
     (events (trace_of (App.send_emails_batch sf self se sn pw subj body rs
                          cv fn env))) ->
  exists lt lst,
    for_enumerate rs 1 (App.send_one sf se sn subj body cv fn (len rs) env)
      loop_start = (lt, lst, Normal tt) /\
    s = sent lst /\ f = failed lst.
Proof.
  unfold trace_of. app_cases sf self se sn pw subj body rs cv fn env;
    cbn [fst]; intros Hin.
  1-3: exfalso; revert Hin; apply events_without_complete;
       repeat constructor.
  assert (Hlt : Forall not_complete lt).
  { change lt with (fst (fst (lt, lst, lc))). rewrite <- Hloop.
    apply for_enumerate_Forall. intros i r st. apply app_send_one_not_complete. }
  rewrite !events_app, !in_app_iff in Hin.
  destruct Hin as [[Hin | Hin] | [Hin | [Hin | Hin]]].
  1-3: exfalso; revert Hin; apply events_without_complete; repeat constructor.
  - exfalso. revert Hin. now apply events_without_complete.
  - destruct lc as [[]|e| |]; cbn -[str str_of_int] in Hin.
    + destruct Hin as [Hin | [Hin | []]]; [discriminate|].
      injection Hin as <- <-. eauto.
    + destruct Hin as [Hin | []]; discriminate.
    + destruct Hin.
    + destruct Hin.
Qed.

Lemma backend_error_logs_without_complete e s f :
  ~ In (Complete s f) (backend_error_logs e).
Proof.
  rewrite <- (events_map_Yield (backend_error_logs e)).
  apply events_without_complete, backend_error_logs_not_complete.
Qed.

Lemma backend_complete_counters se sn pw subj body rs cv fn env s f :
  In (Complete s f)
     (events (trace_of (Backend.send_emails_generator se sn pw subj body rs
                          cv fn env))) ->
  quit_error env = None /\
  exists lt lst,
    for_enumerate rs 1 (Backend.send_one se sn subj body cv fn (len rs) env)
      loop_start = (lt, lst, Normal tt) /\
    s = sent lst /\ f = failed lst.
Proof.
  unfold trace_of. backend_cases se sn pw subj body rs cv fn env;
    cbn [fst]; intros Hin.
  1-3: exfalso; revert Hin; apply events_without_complete;
       repeat first [apply Forall_app; split
                    | apply backend_error_logs_not_complete
                    | constructor ].
  assert (Hlt : Forall not_complete lt).
  { change lt with (fst (fst (lt, lst, lc))). rewrite <- Hloop.
    apply for_enumerate_Forall. intros i r st.
    apply backend_send_one_not_complete. }
  rewrite !events_app, !in_app_iff in Hin.
  destruct Hin as [[Hin | Hin] | [Hin | [Hin | Hin]]].
  1-3: exfalso; revert Hin; apply events_without_complete; repeat constructor.
  - exfalso. revert Hin. now apply events_without_complete.
  - destruct lc as [[]|e| |]; cbn [backend_epilogue] in Hin.
    + destruct (quit_error env) as [e|].
      * exfalso. revert Hin. apply events_without_complete.
        constructor; [exact I | apply backend_error_logs_not_complete].
      * cbn -[str str_of_int] in Hin.
        destruct Hin as [Hin | [Hin | []]]; [discriminate|].
        injection Hin as <- <-. split; [reflexivity | eauto].
    + exfalso. revert Hin. apply events_without_complete,
        backend_error_logs_not_complete.
    + destruct Hin.
    + destruct Hin.
Qed.

(** X8.  The counters of the [Complete] event account for every recipient:
    whenever a run of either generator emits [Complete{sent, failed}],
    [sent] is the number of recipients that passed the generator's
    [validate_email], whose message was built and whose submission the
    relay accepted, and [failed] is the number of all the others, so that
    [sent + failed] is the number of recipients. *)
Theorem complete_counts_accepted_recipients :
  forall secure_filename self sender_email sender_name password subject body
         recipients cv_data cv_filename env s f,
    (In (Complete s f)
        (events (trace_of (App.send_emails_batch secure_filename self
                   sender_email sender_name password subject body recipients
                   cv_data cv_filename env))) ->
     s = accepted App.validate_email
           (fun i r => App.create_message secure_filename sender_email
                         sender_name r subject body cv_data cv_filename
                         (encode_error env i))
           env 1 recipients /\
     (s + f = len recipients)%Z) /\
    (In (Complete s f)
        (events (trace_of (Backend.send_emails_generator
                   sender_email sender_name password subject body recipients
                   cv_data cv_filename env))) ->
     s = accepted Backend.validate_email
           (fun i r => Backend.create_message_with_attachment sender_email
                         sender_name r subject body cv_data cv_filename
                         (encode_error env i))
           env 1 recipients /\
     (s + f = len recipients)%Z).
Proof.
  intros sf self se sn pw subj body rs cv fn env s f. split; intros Hin.
  - apply app_complete_counters in Hin as (lt & lst & Hloop & -> & ->).
    destruct (@for_enumerate_accepted App.validate_email
                (fun i r => App.create_message sf se sn r subj body cv fn
                              (encode_error env i))
                env (App.send_one sf se sn subj body cv fn (len rs) env)
                (fun i r st => app_send_one_counts sf se sn subj body cv fn
                                 (len rs) env i r st)
                rs 1%Z loop_start) as [Hs Hf].
    + now rewrite Hloop.
    + rewrite Hloop in Hs, Hf. cbn [fst snd] in Hs, Hf.
      change (sent loop_start) with 0%Z in Hs.
      change (failed loop_start) with 0%Z in Hf. lia.
  - apply backend_complete_counters in Hin as (_ & lt & lst & Hloop & -> & ->).
    destruct (@for_enumerate_accepted Backend.validate_email
                (fun i r => Backend.create_message_with_attachment se sn r subj
                              body cv fn (encode_error env i))
                env (Backend.send_one se sn subj body cv fn (len rs) env)
                (fun i r st => backend_send_one_counts se sn subj body cv fn
                                 (len rs) env i r st)
                rs 1%Z loop_start) as [Hs Hf].
    + now rewrite Hloop.
    + rewrite Hloop in Hs, Hf. cbn [fst snd] in Hs, Hf.
      change (sent loop_start) with 0%Z in Hs.
      change (failed loop_start) with 0%Z in Hf. lia.
Qed.

Lemma complete_counts_accepted_recipients_witness :
  (2 + 1 = len [alice; bad; carol])%Z.
Proof.
  apply (proj1 (@complete_counts_accepted_recipients (fun name => name)
                  App.email_sender sample_sender sample_name sample_password
                  sample_subject sample_body [alice; bad; carol] sample_cv
                  sample_filename relay_ok 2 1)).
  vm_compute. do 11 right. left. reflexivity.
Defined.

(* ================================================================== *)
(** * Further properties: the calls on the connection *)
(* ================================================================== *)













Section Calls.

Variable secure_filename : pystr -> pystr.
Variable self : App.EmailSender.
Variables sender_email sender_name password subject body : pystr.
Variable recipients : list pystr.
Variable cv_data : list Byte.byte.
Variable cv_filename : pystr.
Variable env : relay.

Let app_one := App.send_one secure_filename sender_email sender_name subject
                 body cv_data cv_filename (len recipients) env.
Let backend_one := Backend.send_one sender_email sender_name subject
                     body cv_data cv_filename (len recipients) env.





End Calls.


(* ================================================================== *)
(** * Further properties: one submission per valid recipient *)
(* ================================================================== *)






(* ================================================================== *)
(** * Further properties: where the password goes *)
(* ================================================================== *)

Lemma app_run_redacted sf self se sn pw pw' subj body rs cv fn env :
  map redact (trace_of (App.send_emails_batch sf self se sn pw subj body rs
                          cv fn env))
  = map redact (trace_of (App.send_emails_batch sf self se sn pw' subj body rs
                            cv fn env)) /\
  final_state (App.send_emails_batch sf self se sn pw subj body rs cv fn env)
  = final_state (App.send_emails_batch sf self se sn pw' subj body rs cv fn env) /\
  outcome_of (App.send_emails_batch sf self se sn pw subj body rs cv fn env)
  = outcome_of (App.send_emails_batch sf self se sn pw' subj body rs cv fn env).
Proof.
  unfold trace_of, final_state, outcome_of.
  app_cases sf self se sn pw subj body rs cv fn env.
  - rewrite (@app_run_connect_fails sf self se sn pw' subj body rs cv fn env
               e Hconnect). auto.
  - rewrite (@app_run_starttls_fails sf self se sn pw' subj body rs cv fn env
               e Hconnect Hstarttls). auto.
  - rewrite (@app_run_login_fails sf self se sn pw' subj body rs cv fn env
               e Hconnect Hstarttls Hlogin). auto.
  - rewrite (@app_run_loop sf self se sn pw' subj body rs cv fn env
               lt lst lc Hconnect Hstarttls Hlogin Hloop).
    cbn [fst snd]. rewrite !map_app. auto.
Qed.

Lemma backend_run_redacted se sn pw pw' subj body rs cv fn env :
  map redact (trace_of (Backend.send_emails_generator se sn pw subj body rs
                          cv fn env))
  = map redact (trace_of (Backend.send_emails_generator se sn pw' subj body rs
                            cv fn env)) /\
  final_state (Backend.send_emails_generator se sn pw subj body rs cv fn env)
  = final_state (Backend.send_emails_generator se sn pw' subj body rs cv fn env) /\
  outcome_of (Backend.send_emails_generator se sn pw subj body rs cv fn env)
  = outcome_of (Backend.send_emails_generator se sn pw' subj body rs cv fn env).
Proof.
  unfold trace_of, final_state, outcome_of.
  backend_cases se sn pw subj body rs cv fn env.
  - rewrite (@backend_run_connect_fails se sn pw' subj body rs cv fn env
               e Hconnect). auto.
  - rewrite (@backend_run_starttls_fails se sn pw' subj body rs cv fn env
               e Hconnect Hstarttls). auto.
  - rewrite (@backend_run_login_fails se sn pw' subj body rs cv fn env
               e Hconnect Hstarttls Hlogin).
    cbn [fst snd]. rewrite !map_app. auto.
  - rewrite (@backend_run_loop se sn pw' subj body rs cv fn env
               lt lst lc Hconnect Hstarttls Hlogin Hloop).
    cbn [fst snd]. rewrite !map_app. auto.
Qed.

Lemma events_redact t : events (map redact t) = events t.
Proof.
  induction t as [|a t IH]; [reflexivity|].
  destruct a as [e|[]|d]; simpl; now rewrite ?IH.
Qed.

(** X11.  The password reaches the [login] call and nothing else: two runs
    of either generator that differ only in the password, against the same
    relay, yield the same events (no log line quotes the password), build
    and submit the same messages, make the same other calls and pauses in
    the same order, and end in the same way with the same counters. *)
Theorem password_only_reaches_login :
  forall secure_filename self sender_email sender_name password password'
         subject body recipients cv_data cv_filename env,
    let app pw := App.send_emails_batch secure_filename self sender_email
                    sender_name pw subject body recipients cv_data
                    cv_filename env in
    let backend pw := Backend.send_emails_generator sender_email sender_name
                        pw subject body recipients cv_data cv_filename env in
    (map redact (trace_of (app password))
       = map redact (trace_of (app password')) /\
     events (trace_of (app password)) = events (trace_of (app password')) /\
     final_state (app password) = final_state (app password') /\
     outcome_of (app password) = outcome_of (app password')) /\
    (map redact (trace_of (backend password))
       = map redact (trace_of (backend password')) /\
     events (trace_of (backend password))
       = events (trace_of (backend password')) /\
     final_state (backend password) = final_state (backend password') /\
     outcome_of (backend password) = outcome_of (backend password')).
Proof.
  intros sf self se sn pw pw' subj body rs cv fn env app backend. split.
  - destruct (@app_run_redacted sf self se sn pw pw' subj body rs cv fn env)
      as (Ht & Hs & Hc).
    repeat split; auto.
    rewrite <- (events_redact (trace_of (app pw))),
            <- (events_redact (trace_of (app pw'))).
    unfold app. now rewrite Ht.
  - destruct (@backend_run_redacted se sn pw pw' subj body rs cv fn env)
      as (Ht & Hs & Hc).
    repeat split; auto.
    rewrite <- (events_redact (trace_of (backend pw))),
            <- (events_redact (trace_of (backend pw'))).
    unfold backend. now rewrite Ht.
Qed.

(* ================================================================== *)
(** * Further properties: the records of the response body *)
(* ================================================================== *)

Lemma printable_digits fuel : forall n acc,
  (0 <= n)%Z -> Forall printable acc -> Forall printable (digits fuel n acc).
Proof.
  induction fuel as [|fuel IH]; intros n acc Hn Hacc; simpl; [assumption|].
  destruct (n <? 10)%Z eqn:H10.
  - apply Z.ltb_lt in H10. constructor; [|assumption].
    unfold printable, in_range, digit.
    apply andb_true_iff. split; apply N.leb_le; lia.
  - apply IH; [apply Z.div_pos; lia|].
    constructor; [|assumption].
    pose proof (Z.mod_pos_bound n 10). unfold printable, in_range, digit.
    apply andb_true_iff. split; apply N.leb_le; lia.
Qed.

Lemma printable_str_of_int n : Forall printable (str_of_int n).
Proof.
  unfold str_of_int. destruct (n <? 0)%Z eqn:Hn.
  - apply Z.ltb_lt in Hn. constructor; [reflexivity|].
    apply printable_digits; [lia | constructor].
  - apply Z.ltb_ge in Hn. apply printable_digits; [lia | constructor].
Qed.

Lemma printable_hex_digit d : (d < 16)%N -> printable (hex_digit d).
Proof.
  intros Hd. unfold printable, in_range, hex_digit.
  destruct (d <? 10)%N eqn:H10;
    [apply N.ltb_lt in H10 | apply N.ltb_ge in H10];
    apply andb_true_iff; split; apply N.leb_le; lia.
Qed.

Lemma printable_hex4 n : Forall printable (hex4 n).
Proof.
  unfold hex4.
  repeat constructor; apply printable_hex_digit; apply N.mod_lt; discriminate.
Qed.

Lemma printable_escape_char c : Forall printable (escape_char c).
Proof.
  unfold escape_char.
  repeat match goal with
         | |- context [if ?b then _ else _] => destruct b eqn:?
         end;
    repeat first [apply Forall_app; split | apply printable_hex4];
    repeat constructor; assumption.
Qed.

Lemma printable_json_string s : Forall printable (json_string s).
Proof.
  unfold json_string. apply Forall_app. split; [repeat constructor|].
  apply Forall_app. split; [|repeat constructor].
  induction s as [|c s IH]; simpl; [constructor|].
  apply Forall_app. split; [apply printable_escape_char | assumption].
Qed.

Lemma printable_dict_item key value :
  Forall printable value -> Forall printable (dict_item key value).
Proof.
  intros H. unfold dict_item.
  apply Forall_app. split; [apply printable_json_string|].
  apply Forall_app. split; [repeat constructor | assumption].
Qed.

Lemma printable_json_dumps e : Forall printable (json_dumps e).
Proof.
  destruct e; unfold json_dumps;
    repeat first [ apply printable_dict_item
                 | apply printable_json_string
                 | apply printable_str_of_int
                 | apply Forall_app; split ];
    repeat constructor.
Qed.

Lemma printable_not_newline s : Forall printable s -> ~ In 10%N s.
Proof.
  intros H Hin. rewrite Forall_forall in H. specialize (H _ Hin). discriminate.
Qed.

Lemma py_split_records l :
  py_split 10 (concat (map yielded l)) = map json_dumps l ++ [[]].
Proof.
  induction l as [|e l IH]; [reflexivity|].
  cbn [map concat app]. unfold yielded at 1. rewrite <- app_assoc.
  cbn [app]. rewrite py_split_app, IH; [reflexivity|].
  apply printable_not_newline, printable_json_dumps.
Qed.

(** X12.  Every record the generators yield, [json.dumps(...)] of a log,
    progress or complete dictionary, consists of printable ASCII characters
    only, whatever the recipients' addresses and the relay's messages
    contain; so the line feed that the generators append is the only one,
    and the response body, split at the line feeds, gives back exactly the
    serialised events of the run, in order, followed by one empty
    string. *)
Theorem response_body_is_one_record_per_line :
  forall t : trace,
    Forall (fun e => Forall printable (json_dumps e)) (events t) /\
    py_split 10 (body_of t) = map json_dumps (events t) ++ [[]].
Proof.
  intros t. split.
  - apply Forall_forall. intros e _. apply printable_json_dumps.
  - apply py_split_records.
Qed.

(* ================================================================== *)
(** * Further properties: the two validators, and the positions that
      [send_emails_batch] reports *)
(* ================================================================== *)

Lemma lstrip_split s :
  exists pre, s = pre ++ lstrip s /\ Forall (fun c => isspace c = true) pre.
Proof.
  induction s as [|c s (pre & E & Hpre)]; simpl.
  - exists []. split; [reflexivity | constructor].
  - destruct (isspace c) eqn:Hc.
    + exists (c :: pre). split; [simpl; now f_equal | now constructor].
    + exists []. split; [reflexivity | constructor].
Qed.

Lemma strip_split s :
  exists pre post,
    s = pre ++ strip s ++ post /\
    Forall (fun c => isspace c = true) pre /\
    Forall (fun c => isspace c = true) post.
Proof.
  destruct (lstrip_split s) as (pre & E & Hpre).
  destruct (lstrip_split (rev (lstrip s))) as (tsop & E' & Htsop).
  exists pre, (rev tsop). split; [|split; [assumption|]].
  - unfold strip, rstrip. rewrite <- rev_app_distr, <- E', rev_involutive.
    exact E.
  - apply Forall_rev. assumption.
Qed.

Lemma no_at_sign (P : N -> bool) l :
  P (chr "@") = false -> Forall (fun c => P c = true) l -> ~ In (chr "@") l.
Proof.
  intros HP Hl Hin. rewrite Forall_forall in Hl. specialize (Hl _ Hin).
  congruence.
Qed.

(** X13.  The validator of src/app.py is the stricter of the two: every
    string that [EmailValidator.validate_email] accepts is accepted by
    [validate_email] of src/backend/app.py as well, so every recipient the
    route of src/app.py lets through would have passed the older check. *)
Theorem app_validator_is_the_stricter :
  forall r, App.validate_email r = true -> Backend.validate_email r = true.
Proof.
  intros r H. apply app_validate_email_iff in H as (_ & _ & H).
  destruct H as (l & d & t & E & _ & Hl & _ & Hd & _ & Ht).
  destruct (strip_split r) as (pre & post & Er & Hpre & Hpost).
  apply backend_validate_email_iff.
  exists (pre ++ l), (d ++ chr "." :: t ++ post), [].
  split; [|split; [|split; [|split]]].
  - rewrite Er, E, app_nil_r, <- !app_assoc. cbn [app].
    rewrite <- !app_assoc. reflexivity.
  - intros Hin. apply in_app_or in Hin as [Hin | Hin]; revert Hin.
    + now apply (@no_at_sign isspace).
    + now apply (@no_at_sign local_char).
  - intros Hin. apply in_app_or in Hin as [Hin | [Hin | Hin]];
      [revert Hin; now apply (@no_at_sign domain_char) | discriminate |].
    apply in_app_or in Hin as [Hin | Hin]; revert Hin.
    + now apply (@no_at_sign is_alpha).
    + now apply (@no_at_sign isspace).
  - apply in_or_app. right. now left.
  - now left.
Qed.

Lemma app_validator_is_the_stricter_witness :
  Backend.validate_email (str " a@b.com ") = true.
Proof.
  apply (@app_validator_is_the_stricter (str " a@b.com ")).
  vm_compute. reflexivity.
Defined.

Lemma app_send_one_positions sf se sn subj body cv fn total env i r st :
  (1 <= i <= total)%Z -> (total <= Config.MAX_RECIPIENTS)%Z ->
  let result := App.send_one sf se sn subj body cv fn total env i r st in
  (snd result = Normal tt \/ snd result = Continued) /\
  map percent_of (filter is_progress (events (fst (fst result))))
  = if App.validate_email r then [expected_percent i total] else [].
Proof.
  intros Hi Ht. cbv zeta. rewrite app_send_one_eq.
  destruct (App.validate_email r); cbn [negb]; [|split; auto].
  rewrite (progress_percent_expected Hi Ht).
  destruct (App.create_message _ _ _ _ _ _ _ _ _) as [e|msg];
    [|destruct (sendmail_error env i) as [e|]];
    destruct (i <? total)%Z; split; auto.
Qed.

Lemma for_enumerate_positions (valid : pystr -> bool) body total hi :
  (forall i r st, (1 <= i <= hi)%Z ->
     (snd (body i r st) = Normal tt \/ snd (body i r st) = Continued) /\
     map percent_of (filter is_progress (events (fst (fst (body i r st)))))
     = if valid r then [expected_percent i total] else []) ->
  forall rs i st, (1 <= i)%Z -> (i + len rs - 1 <= hi)%Z ->
    snd (for_enumerate rs i body st) = Normal tt /\
    map percent_of
      (filter is_progress (events (fst (fst (for_enumerate rs i body st)))))
    = map (fun k => expected_percent k total) (valid_positions valid i rs).
Proof.
  intros Hbody. induction rs as [|r rs IH]; intros i st Hi Hhi.
  - simpl. auto.
  - unfold len in Hhi. simpl length in Hhi.
    assert (H1 : (1 <= i <= hi)%Z) by lia.
    assert (H2 : (1 <= i + 1)%Z) by lia.
    assert (H3 : (i + 1 + len rs - 1 <= hi)%Z) by (unfold len; lia).
    destruct (Hbody i r st H1) as [Hc Hp].
    cbn [for_enumerate valid_positions].
    destruct (body i r st) as [[t st1] c]. cbn [fst snd] in Hc, Hp.
    destruct (IH (i + 1)%Z st1 H2 H3) as [IHc IHp].
    destruct (for_enumerate rs (i + 1) body st1) as [[t' st2] c'].
    cbn [fst snd] in IHc, IHp.
    destruct Hc as [-> | ->]; cbn [fst snd];
      rewrite events_app, filter_app, !map_app, Hp, IHp;
      destruct (valid r); auto.
Qed.

Lemma app_run_positions sf self se sn pw subj body rs cv fn env :
  connect_error env = None -> starttls_error env = None ->
  login_error env = None ->
  (len rs <= Config.MAX_RECIPIENTS)%Z ->
  map percent_of
    (filter is_progress
       (events (trace_of (App.send_emails_batch sf self se sn pw subj body rs
                            cv fn env))))
  = map (fun k => expected_percent k (len rs))
      (valid_positions App.validate_email 1 rs).
Proof.
  intros H1 H2 H3 Hmax.
  assert (Hlo : (1 <= 1)%Z) by lia.
  assert (Hhi : (1 + len rs - 1 <= len rs)%Z) by lia.
  destruct (@for_enumerate_positions App.validate_email
              (App.send_one sf se sn subj body cv fn (len rs) env)
              (len rs) (len rs)
              (fun i r st Hi => @app_send_one_positions sf se sn subj body cv fn
                                  (len rs) env i r st Hi Hmax)
              rs 1%Z loop_start Hlo Hhi) as [Hc Hp].
  destruct (for_enumerate rs 1 _ loop_start) as [[lt lst] lc] eqn:Hloop.
  cbn [fst snd] in Hc, Hp. subst lc. unfold trace_of.
  rewrite (app_run_loop _ _ _ _ _ _ _ _ _ _ _ H1 H2 H3 Hloop). cbn [fst].
  rewrite !events_app, !filter_app, !map_app, Hp.
  cbn [app_epilogue events filter is_progress map app]. apply app_nil_r.
Qed.

(** X14.  Which positions [send_emails_batch] (src/app.py) reports: for a
    campaign of at most [Config.MAX_RECIPIENTS] recipients on a relay that
    accepts the connection, [starttls] and [login], the [Progress] events
    of the run are, in order, those of the positions whose recipient
    passes [validate_email], each with the percentage of its position;
    the positions of the other recipients are passed over. *)
Theorem app_reports_the_valid_positions :
  forall secure_filename self sender_email sender_name password subject body
         recipients cv_data cv_filename env,
    connect_error env = None -> starttls_error env = None ->
    login_error env = None ->
    (len recipients <= Config.MAX_RECIPIENTS)%Z ->
    map percent_of
      (filter is_progress
         (events (trace_of (App.send_emails_batch secure_filename self
                    sender_email sender_name password subject body recipients
                    cv_data cv_filename env))))
    = map (fun k => expected_percent k (len recipients))
        (valid_positions App.validate_email 1 recipients).
Proof.
  intros sf self se sn pw subj body rs cv fn env.
  apply app_run_positions.
Qed.

Lemma app_reports_the_valid_positions_witness :
  map percent_of
    (filter is_progress
       (events (trace_of (app_sample [alice; bad; carol; bad] relay_ok))))
  = [25; 75]%Z.
Proof.
  assert (Hmax : (len [alice; bad; carol; bad] <= Config.MAX_RECIPIENTS)%Z)
    by (vm_compute; discriminate).
  unfold app_sample.
  rewrite (@app_reports_the_valid_positions (fun name => name)
             App.email_sender sample_sender sample_name sample_password
             sample_subject sample_body [alice; bad; carol; bad] sample_cv
             sample_filename relay_ok eq_refl eq_refl eq_refl Hmax).
  vm_compute. reflexivity.
Defined.

(* ================================================================== *)
(** * Further properties: the percentage never goes back *)
(* ================================================================== *)

Lemma percent_steps :
  forallb (fun total =>
             forallb (fun i => percent_step_ok (Z.of_nat i) (Z.of_nat total))
                     (seq 1 total))
          (seq 1 100) = true.
Proof. vm_compute. reflexivity. Qed.

Lemma percent_step i total :
  (1 <= i <= total)%Z -> (total <= Config.MAX_RECIPIENTS)%Z ->
  (1 <= expected_percent i total <= 100)%Z /\
  (i < total -> expected_percent i total <= expected_percent (i + 1) total)%Z.
Proof.
  intros Hi Ht. unfold Config.MAX_RECIPIENTS in Ht.
  pose proof percent_steps as H. rewrite forallb_forall in H.
  specialize (H (Z.to_nat total)). rewrite forallb_forall in H.
  assert (Hc : percent_step_ok i total = true).
  { rewrite <- (Z2Nat.id i), <- (Z2Nat.id total) by lia.
    apply H; apply in_seq; lia. }
  unfold percent_step_ok in Hc.
  apply andb_true_iff in Hc as [Hc Hstep].
  apply andb_true_iff in Hc as [Hlo Hhi].
  apply Z.leb_le in Hlo, Hhi. split; [lia|]. intros Hlt.
  apply orb_true_iff in Hstep as [Hstep | Hstep]; apply Z.leb_le in Hstep; lia.
Qed.

Lemma percent_monotone total i n :
  (1 <= i)%Z -> (i + Z.of_nat n <= total)%Z ->
  (total <= Config.MAX_RECIPIENTS)%Z ->
  (expected_percent i total <= expected_percent (i + Z.of_nat n) total)%Z.
Proof.
  intros Hi Hn Ht. induction n as [|n IH].
  - rewrite Z.add_0_r. lia.
  - assert (H1 : (1 <= i + Z.of_nat n <= total)%Z) by lia.
    destruct (percent_step H1 Ht) as [_ Hstep].
    replace (i + Z.of_nat (S n))%Z with (i + Z.of_nat n + 1)%Z by lia.
    etransitivity; [apply IH; lia | apply Hstep; lia].
Qed.

Lemma nondecreasing_cons a l :
  Forall (fun b => (a <= b)%Z) l -> nondecreasing l -> nondecreasing (a :: l).
Proof.
  intros Hl Hn. destruct l as [|b l]; [exact I|].
  split; [now inversion Hl | assumption].
Qed.

(** The percentages of the positions that a loop over [rs] reports, from
    position [i] on, never go down and lie between 1 and 100. *)
Lemma valid_positions_percent valid total :
  (total <= Config.MAX_RECIPIENTS)%Z ->
  forall rs i, (1 <= i)%Z -> (i + len rs - 1 <= total)%Z ->
    let ps := map (fun k => expected_percent k total)
                  (valid_positions valid i rs) in
    nondecreasing ps /\
    Forall (fun p => (expected_percent i total <= p <= 100)%Z) ps.
Proof.
  intros Ht. induction rs as [|r rs IH]; intros i Hi Hhi; cbv zeta.
  - simpl. auto.
  - unfold len in Hhi. simpl length in Hhi.
    assert (H1 : (1 <= i <= total)%Z) by lia.
    destruct (percent_step H1 Ht) as [Hrange Hstep].
    destruct rs as [|r' rs'].
    + cbn [valid_positions app]. destruct (valid r); simpl; auto.
      split; [exact I|]. constructor; [lia | constructor].
    + assert (H2 : (1 <= i + 1)%Z) by lia.
      assert (H3 : (i + 1 + len (r' :: rs') - 1 <= total)%Z)
        by (unfold len; lia).
      destruct (IH (i + 1)%Z H2 H3) as [IHn IHr].
      assert (Hlt : (i < total)%Z) by (simpl length in Hhi; lia).
      specialize (Hstep Hlt).
      assert (IHr' : Forall (fun p => (expected_percent i total <= p <= 100)%Z)
                       (map (fun k => expected_percent k total)
                            (valid_positions valid (i + 1) (r' :: rs')))).
      { eapply Forall_impl; [|exact IHr]. simpl. intros p Hp. lia. }
      change (valid_positions valid i (r :: r' :: rs'))
        with ((if valid r then [i] else [])
              ++ valid_positions valid (i + 1) (r' :: rs')).
      destruct (valid r); cbn [app map]; [|auto].
      split.
      * apply nondecreasing_cons; [|assumption].
        eapply Forall_impl; [|exact IHr']. simpl. intros p Hp. lia.
      * constructor; [lia | assumption].
Qed.

Lemma backend_send_one_positions se sn subj body cv fn total env i r st :
  (1 <= i <= total)%Z -> (total <= Config.MAX_RECIPIENTS)%Z ->
  let result := Backend.send_one se sn subj body cv fn total env i r st in
  (snd result = Normal tt \/ snd result = Continued) /\
  map percent_of (filter is_progress (events (fst (fst result))))
  = if (fun _ : pystr => true) r then [expected_percent i total] else [].
Proof.
  intros Hi Ht. cbv zeta beta. rewrite backend_send_one_eq.
  rewrite (progress_percent_expected Hi Ht).
  destruct (Backend.validate_email r); cbn [negb];
    [destruct (Backend.create_message_with_attachment _ _ _ _ _ _ _ _) as [e|msg];
      [|destruct (sendmail_error env i) as [e|]]|];
    split; auto.
Qed.

Lemma backend_run_positions se sn pw subj body rs cv fn env :
  connect_error env = None -> starttls_error env = None ->
  login_error env = None ->
  (len rs <= Config.MAX_RECIPIENTS)%Z ->
  map percent_of
    (filter is_progress
       (events (trace_of (Backend.send_emails_generator se sn pw subj body rs
                            cv fn env))))
  = map (fun k => expected_percent k (len rs))
      (valid_positions (fun _ => true) 1 rs).
Proof.
  intros H1 H2 H3 Hmax.
  assert (Hlo : (1 <= 1)%Z) by lia.
  assert (Hhi : (1 + len rs - 1 <= len rs)%Z) by lia.
  destruct (@for_enumerate_positions (fun _ => true)
              (Backend.send_one se sn subj body cv fn (len rs) env)
              (len rs) (len rs)
              (fun i r st Hi => @backend_send_one_positions se sn subj body cv fn
                                  (len rs) env i r st Hi Hmax)
              rs 1%Z loop_start Hlo Hhi) as [Hc Hp].
  destruct (for_enumerate rs 1 _ loop_start) as [[lt lst] lc] eqn:Hloop.
  cbn [fst snd] in Hc, Hp. subst lc. unfold trace_of.
  rewrite (backend_run_loop _ _ _ _ _ _ _ _ _ H1 H2 H3 Hloop). cbn [fst].
  rewrite !events_app, !filter_app, !map_app, Hp.
  assert (Hq : filter is_progress
                 (events (backend_epilogue (quit_error env) lst (Normal tt)))
               = []).
  { cbn [backend_epilogue events]. destruct (quit_error env) as [e|];
      [|reflexivity].
    rewrite events_map_Yield. unfold backend_error_logs.
    destruct (is_auth_error e);
      [destruct (contains signature (exn_str e))|destruct (is_smtp_exception e)];
      reflexivity. }
  rewrite Hq. cbn [events filter is_progress map app]. apply app_nil_r.
Qed.

(** X15.  The reported percentage never goes back: for a campaign of at
    most [Config.MAX_RECIPIENTS] recipients on a relay that accepts the
    connection, [starttls] and [login], the percentages of the [Progress]
    events of a run of either generator, in the order of the events, never
    decrease, and each lies between 1 and 100. *)
Theorem progress_never_goes_back :
  forall secure_filename self sender_email sender_name password subject body
         recipients cv_data cv_filename env,
    connect_error env = None -> starttls_error env = None ->
    login_error env = None ->
    (len recipients <= Config.MAX_RECIPIENTS)%Z ->
    let app := map percent_of
                 (filter is_progress
                    (events (trace_of (App.send_emails_batch secure_filename
                               self sender_email sender_name password subject
                               body recipients cv_data cv_filename env)))) in
    let backend := map percent_of
                     (filter is_progress
                        (events (trace_of (Backend.send_emails_generator
                                   sender_email sender_name password subject
                                   body recipients cv_data cv_filename env)))) in
    (nondecreasing app /\ Forall (fun p => (1 <= p <= 100)%Z) app) /\
    (nondecreasing backend /\ Forall (fun p => (1 <= p <= 100)%Z) backend).
Proof.
  intros sf self se sn pw subj body rs cv fn env H1 H2 H3 Hmax app backend.
  assert (Hlo : (1 <= 1)%Z) by lia.
  assert (Hhi : (1 + len rs - 1 <= len rs)%Z) by lia.
  assert (Hfirst : rs <> [] -> (1 <= expected_percent 1 (len rs))%Z).
  { intros Hne. assert (H : (1 <= 1 <= len rs)%Z).
    { destruct rs; [congruence | unfold len; simpl length; lia]. }
    apply (percent_step H Hmax). }
  split.
  - unfold app. rewrite (@app_run_positions sf self se sn pw subj body rs cv fn
                           env H1 H2 H3 Hmax).
    destruct (@valid_positions_percent App.validate_email (len rs) Hmax rs 1%Z
                Hlo Hhi) as [Hn Hr].
    split; [exact Hn|]. destruct rs as [|r rs']; [constructor|].
    eapply Forall_impl; [|exact Hr]. simpl. intros p Hp.
    assert (Hne : r :: rs' <> []) by discriminate.
    specialize (Hfirst Hne). lia.
  - unfold backend. rewrite (@backend_run_positions se sn pw subj body rs cv fn
                               env H1 H2 H3 Hmax).
    destruct (@valid_positions_percent (fun _ => true) (len rs) Hmax rs 1%Z
                Hlo Hhi) as [Hn Hr].
    split; [exact Hn|]. destruct rs as [|r rs']; [constructor|].
    eapply Forall_impl; [|exact Hr]. simpl. intros p Hp.
    assert (Hne : r :: rs' <> []) by discriminate.
    specialize (Hfirst Hne). lia.
Qed.

Lemma progress_never_goes_back_witness :
  nondecreasing
    (map percent_of
       (filter is_progress
          (events (trace_of (backend_sample [alice; bad; carol] relay_ok))))).
Proof.
  assert (Hmax : (len [alice; bad; carol] <= Config.MAX_RECIPIENTS)%Z)
    by (vm_compute; discriminate).
  pose proof (@progress_never_goes_back (fun name => name) App.email_sender
                sample_sender sample_name sample_password sample_subject
                sample_body [alice; bad; carol] sample_cv sample_filename
                relay_ok eq_refl eq_refl eq_refl Hmax) as H.
  cbv zeta in H. destruct H as (_ & H & _). exact H.
Defined.
